(** * ZooFUSE: a FUSE filesystem backed by a ZooKeeper tree

    Shallow embedding of the adapter layer of zoofuse (zookeeper.go,
    fuse.go, fusefile.go) and the properties of its specification.

    Conventions.
    - Go strings are byte strings: [string]; [[]byte] is [list byte].
    - Go's fixed-width integers are [Z] with the conversions written out
      ([int] is 64 bits wide, as on amd64).
    - A Go result pair [(v, err)] is a [result]: [Ok v] when [err == nil],
      [Err e] otherwise.
    - The [Zoohandler] interface is a record of state-passing functions
      over the state [W] of whatever stands behind the interface.
    - A run-time panic is the outcome [Panicked]. *)

From Stdlib Require Import ZArith List String Ascii Bool Lia PeanoNat.
From stdpp Require Import base list.
Import ListNotations.

Local Open Scope string_scope.
Local Open Scope Z_scope.

(* ===================================================================== *)
(** * Go values                                                            *)
(* ===================================================================== *)

Definition byte := Z.

(** Go's [error] interface, by its message. *)
Definition error := string.

Inductive result (A : Type) : Type :=
| Ok (a : A)
| Err (e : error).
Arguments Ok {A} a.
Arguments Err {A} e.

(** What a call can do: come back with a value, or panic. *)
Inductive outcome (A : Type) : Type :=
| Returned (a : A)
| Panicked.
Arguments Returned {A} a.
Arguments Panicked {A}.

Definition len {A} (l : list A) : Z := Z.of_nat (List.length l).

(** Two's-complement conversions. *)
Definition to_uint32 (x : Z) : Z := x mod 2 ^ 32.
Definition to_uint64 (x : Z) : Z := x mod 2 ^ 64.
Definition to_int64 (x : Z) : Z := (x + 2 ^ 63) mod 2 ^ 64 - 2 ^ 63.
Definition max_int64 : Z := 2 ^ 63 - 1.

(* ===================================================================== *)
(** * Go's [strings] and [path/filepath] (Unix)                            *)
(* ===================================================================== *)

(** The functions of the standard library that the adapter calls, written
    after the library's implementation for Unix (no volume names, the
    separator is the slash). *)

Module strings.

(** [strings.HasSuffix(s, suffix)]. *)
Definition HasSuffix (s suffix : string) : bool :=
  let n := String.length s in
  let m := String.length suffix in
  (m <=? n)%nat && String.eqb (substring (n - m) m s) suffix.

(** [strings.Join(elems, sep)]. *)
Definition Join (elems : list string) (sep : string) : string :=
  String.concat sep elems.

(** [strings.Count(s, "/")]. *)
Fixpoint CountSep (s : string) : nat :=
  match s with
  | EmptyString => 0
  | String c s' => ((if Ascii.eqb c "/" then 1 else 0) + CountSep s')%nat
  end.

End strings.

Module filepath.

Definition Separator : ascii := "/"%char.

Definition IsPathSeparator (c : ascii) : bool := Ascii.eqb c Separator.

(** [r == n || IsPathSeparator(path[r])] for the unread part of the path. *)
Definition at_elem_end (rest : list ascii) : bool :=
  match rest with
  | [] => true
  | c :: _ => IsPathSeparator c
  end.

(** The output buffer of [Clean] is kept with its last byte first, so
    that [out.w] is the length of the list and [out.w--] drops the head. *)

(** [out.w--; for out.w > dotdot && !IsPathSeparator(out.index(out.w)) { out.w-- }] *)
Fixpoint backtrack (out : list ascii) (dotdot : nat) : list ascii :=
  match out with
  | [] => []
  | c :: out' =>
      if (dotdot <? List.length out')%nat && negb (IsPathSeparator c)
      then backtrack out' dotdot
      else out'
  end.

(** [for ; r < n && !IsPathSeparator(path[r]); r++ { out.append(path[r]) }] *)
Fixpoint copy_elem (path out : list ascii) : list ascii * list ascii :=
  match path with
  | [] => ([], out)
  | c :: rest =>
      if IsPathSeparator c then (path, out) else copy_elem rest (c :: out)
  end.

(** The main loop of [Clean]: [path] is the unread part [path[r:]]. *)
Fixpoint clean_loop (fuel : nat) (rooted : bool) (path out : list ascii)
    (dotdot : nat) : list ascii :=
  match fuel with
  | O => out
  | S fuel' =>
      match path with
      | [] => out
      | c :: rest =>
          if IsPathSeparator c then
            (* empty path element *)
            clean_loop fuel' rooted rest out dotdot
          else if Ascii.eqb c "." && at_elem_end rest then
            (* . element *)
            clean_loop fuel' rooted rest out dotdot
          else if Ascii.eqb c "." &&
                  match rest with
                  | c' :: rest' => Ascii.eqb c' "." && at_elem_end rest'
                  | [] => false
                  end then
            (* .. element: remove to last separator *)
            let rest' := tl rest in
            if (dotdot <? List.length out)%nat then
              clean_loop fuel' rooted rest' (backtrack out dotdot) dotdot
            else if negb rooted then
              let out1 :=
                if (0 <? List.length out)%nat then Separator :: out else out in
              let out2 := "."%char :: "."%char :: out1 in
              clean_loop fuel' rooted rest' out2 (List.length out2)
            else
              clean_loop fuel' rooted rest' out dotdot
          else
            (* real path element: add slash if needed, copy element *)
            let w := List.length out in
            let out1 :=
              if (rooted && negb (w =? 1)%nat) || (negb rooted && negb (w =? 0)%nat)
              then Separator :: out else out in
            let '(rest', out2) := copy_elem path out1 in
            clean_loop fuel' rooted rest' out2 dotdot
      end
  end.

(** [filepath.Clean(path)]. *)
Definition Clean (path : string) : string :=
  match list_ascii_of_string path with
  | [] => "."
  | (c :: _) as p =>
      let rooted := IsPathSeparator c in
      let out0 := if rooted then [Separator] else [] in
      let r0 := if rooted then tl p else p in
      let out := clean_loop (S (List.length p)) rooted r0 out0
                   (if rooted then 1 else 0)%nat in
      match out with
      | [] => "."
      | _ => string_of_list_ascii (rev out)
      end
  end.

(** [filepath.Join(elem...)]: empty leading elements are skipped, the
    rest is joined with the separator and cleaned. *)
Fixpoint Join (elem : list string) : string :=
  match elem with
  | [] => ""
  | e :: rest =>
      if String.eqb e "" then Join rest
      else Clean (strings.Join elem "/")
  end.

(** [s[i:j]] for [i <= j <= len(s)]. *)
Definition slice (s : string) (i j : nat) : string := substring i (j - i) s.

(** [for i < n && s[i] != Separator { i++ }] *)
Fixpoint scan_elem (fuel : nat) (s : string) (i : nat) : nat :=
  match fuel with
  | O => i
  | S fuel' =>
      match String.get i s with
      | Some c => if IsPathSeparator c then i else scan_elem fuel' s (S i)
      | None => i
      end
  end.

(** The loop of [Rel] that positions [base[b0:bi]] and [targ[t0:ti]] at
    the first differing elements; it returns [(b0, bi, t0, ti)]. *)
Fixpoint rel_loop (fuel : nat) (base targ : string) (b0 bi t0 ti : nat)
    : nat * nat * nat * nat :=
  match fuel with
  | O => (b0, bi, t0, ti)
  | S fuel' =>
      let bl := String.length base in
      let tl := String.length targ in
      if (bi <? bl)%nat && (ti <? tl)%nat then
        let b0 := bi in
        let bi := scan_elem bl base bi in
        let t0 := ti in
        let ti := scan_elem tl targ ti in
        if negb (String.eqb (slice targ t0 ti) (slice base b0 bi)) then
          (b0, bi, t0, ti)
        else
          let bi := if (bi <? bl)%nat then S bi else bi in
          let ti := if (ti <? tl)%nat then S ti else ti in
          rel_loop fuel' base targ bi bi ti ti
      else (b0, bi, t0, ti)
  end.

Definition starts_with_sep (s : string) : bool :=
  match s with
  | String c _ => IsPathSeparator c
  | EmptyString => false
  end.

Fixpoint updirs (seps : nat) : string :=
  match seps with
  | O => ""
  | S n => "/.." ++ updirs n
  end.

(** [filepath.Rel(basepath, targpath)] (no volume names on Unix). *)
Definition Rel (basepath targpath : string) : result string :=
  let base := Clean basepath in
  let targ := Clean targpath in
  if String.eqb targ base then Ok "."
  else
    let base := if String.eqb base "." then "" else base in
    if negb (Bool.eqb (starts_with_sep base) (starts_with_sep targ)) then
      Err ("Rel: can't make " ++ targpath ++ " relative to " ++ basepath)
    else
      let bl := String.length base in
      let tl := String.length targ in
      let '(b0, bi, t0, ti) := rel_loop (S bl) base targ 0 0 0 0 in
      if String.eqb (slice base b0 bi) ".." then
        Err ("Rel: can't make " ++ targpath ++ " relative to " ++ basepath)
      else if negb (b0 =? bl)%nat then
        (* Base elements left. Must go up before going down. *)
        let seps := strings.CountSep (slice base b0 bl) in
        Ok (".." ++ updirs seps ++
            (if negb (t0 =? tl)%nat then "/" ++ slice targ t0 tl else ""))
      else Ok (slice targ t0 tl).

End filepath.


(* ===================================================================== *)
(** * The libraries' data: [zk] and [fuse]                                 *)
(* ===================================================================== *)

Module zk.

(** [zk.Stat], with the fields the adapter reads.  [Ctime] and [Mtime]
    are [int64] milliseconds, [DataLength] and [NumChildren] are [int32]. *)
Record Stat : Type := {
  Ctime : Z;
  Mtime : Z;
  DataLength : Z;
  NumChildren : Z
}.

Record ACL : Type := {
  Perms : Z;
  Scheme : string;
  ID : string
}.

Definition PermAll : Z := 31.

Definition WorldACL (perms : Z) : list ACL :=
  [ {| Perms := perms; Scheme := "world"; ID := "anyone" |} ].

End zk.

Module fuse.

(** [fuse.Status], the errno values the adapter returns. *)
Inductive Status : Type := OK | EPERM | ENOENT | EIO | ENOTDIR | EINVAL.

Definition errno (s : Status) : Z :=
  match s with
  | OK => 0 | EPERM => 1 | ENOENT => 2 | EIO => 5 | ENOTDIR => 20 | EINVAL => 22
  end.

Definition S_IFDIR : Z := 16384.   (* 0040000 *)
Definition S_IFREG : Z := 32768.   (* 0100000 *)

Record Owner : Type := { Uid : Z; Gid : Z }.

(** [fuse.Attr]; a field the code leaves out of a literal is zero. *)
Record Attr : Type := {
  Mode : Z;
  Size : Z;
  Atime : Z;
  Mtime : Z;
  Ctime : Z;
  owner : Owner
}.

Record DirEntry : Type := {
  Name : string;
  EntryMode : Z
}.

End fuse.

(** Go's [|] on [uint32]. *)
Infix ".|" := Z.lor (at level 50, left associativity).

(* ===================================================================== *)
(** * zookeeper.go                                                         *)
(* ===================================================================== *)

(** [MaxZnodeData] represents the maximum size of the data object per znode. *)
Definition MaxZnodeData : Z := 1048576.

(** Modelled from the spec: the declaration of the constant [ZNodeMarker]
    is not among the source files; README.md names the special file that
    exposes the payload of a directory znode [__znode_data__]. *)
Definition ZNodeMarker : string := "__znode_data__".

(** The [Zoohandler] interface.  [W] is the state behind the interface
    (the ZooKeeper ensemble and the connection to it); every method takes
    the state it finds and returns the state it leaves. *)
Module Zoohandler.

Record t (W : Type) : Type := {
  Close : W -> W;
  Children : string -> W -> result (list string * zk.Stat) * W;
  Create : string -> list byte -> Z -> list zk.ACL -> W -> result string * W;
  Delete : string -> Z -> W -> option error * W;
  Exists : string -> W -> result (bool * zk.Stat) * W;
  Get : string -> W -> result (list byte * zk.Stat) * W;
  Set_ : string -> list byte -> Z -> W -> result zk.Stat * W
}.
Arguments Close {W}.
Arguments Children {W}.
Arguments Create {W}.
Arguments Delete {W}.
Arguments Exists {W}.
Arguments Get {W}.
Arguments Set_ {W}.

End Zoohandler.
Abbreviation Zoohandler := Zoohandler.t.

Module ZooHandle.
Section Methods.

Context {W : Type}.

(** [type ZooHandle struct]. *)
Record t : Type := {
  zk : Zoohandler W;    (* Connection object to ZK *)
  ZKRoot : string;      (* alias of the root of the zookeeper directory *)
  FuseMount : string    (* the full pathname of the fuse mounted filesystem *)
}.

Definition ZKPath (z : t) (path : string) : string :=
  match filepath.Rel (FuseMount z) (filepath.Join [FuseMount z; path]) with
  | Err _ => filepath.Join ["/"; ZKRoot z]
  | Ok rel => filepath.Join ["/"; ZKRoot z; rel]
  end.

Definition Close (z : t) (w : W) : W := Zoohandler.Close (zk z) w.

Definition Delete (z : t) (path : string) (version : Z) (w : W) :=
  let path := ZKPath z path in
  Zoohandler.Delete (zk z) path version w.

Definition Create (z : t) (path : string) (data : list byte) (flags : Z)
    (acl : list zk.ACL) (w : W) :=
  let path := ZKPath z path in
  Zoohandler.Create (zk z) path data flags acl w.

Definition Children (z : t) (path : string) (w : W) :=
  let path := ZKPath z path in
  Zoohandler.Children (zk z) path w.

Definition Exists (z : t) (path : string) (w : W) :=
  let path := ZKPath z path in
  Zoohandler.Exists (zk z) path w.

Definition Get (z : t) (path : string) (w : W) :=
  let path := ZKPath z path in
  Zoohandler.Get (zk z) path w.

Definition Set_ (z : t) (path : string) (data : list byte) (version : Z)
    (w : W) : result zk.Stat * W :=
  if len data >? MaxZnodeData then
    (Err "length of data payload exceeds allowable limit (1048576)", w)
  else
    let path := ZKPath z path in
    Zoohandler.Set_ (zk z) path data version w.

(** [*ZooHandle] implements [Zoohandler]. *)
Definition handler (z : t) : Zoohandler W := {|
  Zoohandler.Close := Close z;
  Zoohandler.Children := Children z;
  Zoohandler.Create := Create z;
  Zoohandler.Delete := Delete z;
  Zoohandler.Exists := Exists z;
  Zoohandler.Get := Get z;
  Zoohandler.Set_ := Set_ z
|}.

End Methods.
Arguments t : clear implicits.
End ZooHandle.


(* ===================================================================== *)
(** * fusefile.go                                                          *)
(* ===================================================================== *)

(** [IfDirRW], [IfDirRO], [IfRegRW], [IfRegRO]: the octal masks
    0755, 0555, 0644 and 0444. *)
Definition IfDirRW : Z := 493.
Definition IfDirRO : Z := 365.
Definition IfRegRW : Z := 420.
Definition IfRegRO : Z := 292.

(** What [NewFuseFile] takes from its environment: [time.Now().Unix()]
    and [fuse.CurrentOwner()]. *)
Record Env : Type := {
  unix_now : Z;
  current_owner : fuse.Owner
}.

(** [data[lo:hi]] on a byte slice.  Go panics unless
    [0 <= lo <= hi <= cap(data)]; where the adapter slices, [hi] has been
    capped at [len(data)] before, and [len(data) <= cap(data)], so the
    check against the length decides the same. *)
Definition slice_bytes (data : list byte) (lo hi : Z) : outcome (list byte) :=
  if (0 <=? lo) && (lo <=? hi) && (hi <=? len data)
  then Returned (firstn (Z.to_nat (hi - lo)) (skipn (Z.to_nat lo) data))
  else Panicked.

Module FuseFile.
Section Methods.

Context {W : Type}.

(** [type FuseFile struct]; [attr] is the record behind the pointer. *)
Record t : Type := {
  data : list byte;         (* contents of the file *)
  attr : fuse.Attr;         (* file mode attributes *)
  zh : Zoohandler W;        (* reference to the zookeeper connection *)
  path : string             (* path of the file *)
}.

Definition NewFuseFile (env : Env) (data : list byte) (mode : Z)
    (path : string) (zh : Zoohandler W) : t :=
  let now := to_uint64 (unix_now env) in
  let attr := {| fuse.Mode := mode .| IfRegRW;
                 fuse.Size := to_uint64 (len data);
                 fuse.Atime := now;
                 fuse.Mtime := now;
                 fuse.Ctime := 0;
                 fuse.owner := current_owner env |} in
  {| data := data; attr := attr; path := path; zh := zh |}.

(** [Read]: [off] is an [int64], [end] an [int]. *)
Definition Read (f : t) (buf : list byte) (off : Z)
    : outcome (list byte * fuse.Status) :=
  let end_ := to_int64 (off + len buf) in
  let end_ := if end_ >? len (data f) then len (data f) else end_ in
  match slice_bytes (data f) off end_ with
  | Returned bytes => Returned (bytes, fuse.OK)
  | Panicked => Panicked
  end.

Definition set_Size (f : t) (size : Z) : t :=
  {| data := data f;
     attr := {| fuse.Mode := fuse.Mode (attr f);
                fuse.Size := size;
                fuse.Atime := fuse.Atime (attr f);
                fuse.Mtime := fuse.Mtime (attr f);
                fuse.Ctime := fuse.Ctime (attr f);
                fuse.owner := fuse.owner (attr f) |};
     zh := zh f;
     path := path f |}.

(** [Write] returns the bytes written and the status, the handle as the
    call leaves it, and the state behind the gateway. *)
Definition Write (f : t) (content : list byte) (off : Z) (w : W)
    : (Z * fuse.Status) * t * W :=
  if len content =? 0 then ((0, fuse.OK), f, w)
  else
    match Zoohandler.Set_ (zh f) (path f) content (-1) w with
    | (Err err, w') => ((0, fuse.EIO), f, w')
    | (Ok stat, w') =>
        ((to_uint32 (zk.DataLength stat), fuse.OK),
         set_Size f (to_uint64 (zk.DataLength stat)), w')
    end.

End Methods.
Arguments t : clear implicits.
End FuseFile.

(* ===================================================================== *)
(** * fuse.go                                                              *)
(* ===================================================================== *)

(** [MaxConcurrentRequests] represents max number of parallel requests to
    send to the remote ZK directory. *)
Definition MaxConcurrentRequests : nat := 25.

(** [dirPermissions] returns the appropriate directory permission mask. *)
Definition dirPermissions (isReadWrite : bool) : Z :=
  if isReadWrite then IfDirRW else IfDirRO.

(** [filePermissions] returns the appropriate file permission mask. *)
Definition filePermissions (isReadWrite : bool) : Z :=
  if isReadWrite then IfRegRW else IfRegRO.

Module FuseFS.
Section Methods.

Context {W : Type}.

(** [type FuseFS struct], without the go-fuse server it is mounted on. *)
Record t : Type := {
  zh : Zoohandler W;        (* ZK connection reference *)
  FuseRoot : string;
  IsReadWrite : bool        (* Will write actions be enabled *)
}.

Definition zero_Attr : fuse.Attr :=
  {| fuse.Mode := 0; fuse.Size := 0; fuse.Atime := 0; fuse.Mtime := 0;
     fuse.Ctime := 0; fuse.owner := {| fuse.Uid := 0; fuse.Gid := 0 |} |}.

Definition GetAttr (f : t) (path : string) (w : W)
    : (option fuse.Attr * fuse.Status) * W :=
  if String.eqb path "" then
    ((Some {| fuse.Mode := fuse.S_IFDIR .| dirPermissions (IsReadWrite f);
              fuse.Size := 0; fuse.Atime := 0; fuse.Mtime := 0;
              fuse.Ctime := 0; fuse.owner := fuse.owner zero_Attr |},
      fuse.OK), w)
  else
    match Zoohandler.Exists (zh f) path w with
    | (Err err, w') => ((None, fuse.ENOENT), w')
    | (Ok (found, stat), w') =>
        if negb found then ((None, fuse.ENOENT), w')
        else
          let mode :=
            if strings.HasSuffix path ZNodeMarker then
              (* marker file is always RO *)
              fuse.S_IFREG .| IfRegRO
            else if zk.NumChildren stat =? 0 then
              fuse.S_IFREG .| filePermissions (IsReadWrite f)
            else
              fuse.S_IFDIR .| dirPermissions (IsReadWrite f) in
          ((Some {| fuse.Mode := mode;
                    fuse.Size := to_uint64 (zk.DataLength stat);
                    fuse.Atime := 0;
                    fuse.Mtime := to_uint64 (Z.quot (zk.Mtime stat) 1000);
                    fuse.Ctime := to_uint64 (Z.quot (zk.Ctime stat) 1000);
                    fuse.owner := fuse.owner zero_Attr |},
            fuse.OK), w')
    end.

Definition Utimens (f : t) (name : string) (w : W) : fuse.Status * W :=
  (fuse.OK, w).

Definition Truncate (f : t) (name : string) (size : Z) (w : W)
    : fuse.Status * W :=
  (fuse.OK, w).

Definition Create (env : Env) (f : t) (path : string) (flags mode : Z) (w : W)
    : (option (FuseFile.t W) * fuse.Status) * W :=
  match Zoohandler.Create (zh f) path [] 0 (zk.WorldACL zk.PermAll) w with
  | (Err err, w') => ((None, fuse.ENOENT), w')
  | (Ok _, w') =>
      ((Some (FuseFile.NewFuseFile env [] IfRegRW path (zh f)), fuse.OK), w')
  end.

Definition Open (env : Env) (f : t) (path : string) (flags : Z) (w : W)
    : (option (FuseFile.t W) * fuse.Status) * W :=
  match Zoohandler.Get (zh f) path w with
  | (Err err, w') => ((None, fuse.ENOENT), w')
  | (Ok (data, _), w') =>
      ((Some (FuseFile.NewFuseFile env data IfRegRW path (zh f)), fuse.OK), w')
  end.

Definition Unlink (f : t) (path : string) (w : W) : fuse.Status * W :=
  (* guard ensures that a user cannot remove the ZNodeMarker file *)
  if strings.HasSuffix path ZNodeMarker then (fuse.EPERM, w)
  else
    match Zoohandler.Delete (zh f) path (-1) w with
    | (Some err, w') => (fuse.EIO, w')
    | (None, w') => (fuse.OK, w')
    end.

Definition Rmdir (f : t) (path : string) (w : W) : fuse.Status * W :=
  match Zoohandler.Exists (zh f) path w with
  | (Err err, w') => (fuse.ENOENT, w')
  | (Ok (found, stat), w') =>
      if negb found then (fuse.ENOENT, w')
      else if zk.NumChildren stat =? 0 then (fuse.ENOTDIR, w')
      else
        match Zoohandler.Delete (zh f) path (-1) w' with
        | (Some err, w'') => (fuse.ENOENT, w'')
        | (None, w'') => (fuse.OK, w'')
        end
  end.

(** ** [OpenDir]

    [OpenDir] starts one goroutine per child.  The goroutines share the
    variable [dirEntries], the buffered channel [chanLimiter] and the wait
    group [wg]; they run interleaved, one step of one thread at a time.  A
    step is one access to what is shared: a channel operation, the call of
    the gateway, the read of [dirEntries] that [append] takes as argument,
    the assignment of the result of [append] to [dirEntries], or
    [wg.Done()].  A slice is modelled by its contents: [append] yields the
    contents it has read with the entry added, and the assignment replaces
    the contents of [dirEntries].

    The read and the write of [dirEntries] are one step each.  In the
    program the slice is three words (pointer, length, capacity), read and
    written one by one and without synchronisation: an execution in which
    a goroutine reads some of the words before and the others after the
    assignment of another goroutine has no run here, and in it [append]
    may copy from beyond the array it was given.  What is proved below of
    the slots of [chanLimiter], of the wait group, of the calls that reach
    the gateway, of the length of the listing and of the runs that are
    shown does not lean on this; what is proved of the contents of every
    listing ([run_entries_ok], [OpenDir_listing_sound]) holds of the runs
    of the model only. *)

(** Where a goroutine stands: the statement it executes next. *)
Inductive Worker : Type :=
| wSend (directory : string)          (* chanLimiter <- struct{}{} *)
| wExists (directory : string)        (* f.zh.Exists(filepath.Join(...)) *)
| wLoad (dirEntry : fuse.DirEntry)    (* append(dirEntries, dirEntry): the read *)
| wStore (dirEntry : fuse.DirEntry) (seen : list fuse.DirEntry)
                                      (* dirEntries = ...: the write *)
| wRecv                               (* deferred: <-chanLimiter *)
| wDone                               (* deferred: wg.Done() *)
| wExited.

(** Where the calling thread stands. *)
Inductive Main : Type :=
| mSpawn (children : list string)     (* the rest of the range loop *)
| mWait                               (* wg.Wait() *)
| mReturned (entries : list fuse.DirEntry).

Record State : Type := {
  world : W;                          (* the state behind the gateway *)
  dirEntries : list fuse.DirEntry;
  chanLimiter : nat;                  (* elements in the channel's buffer *)
  wg : nat;                           (* the wait group's counter *)
  main : Main;
  workers : list Worker
}.

Inductive Tid : Type :=
| tMain
| tWorker (i : nat).

Definition set_worker (s : State) (i : nat) (wk : Worker) : State :=
  {| world := world s; dirEntries := dirEntries s;
     chanLimiter := chanLimiter s; wg := wg s; main := main s;
     workers := <[i := wk]> (workers s) |}.

(** The entry a goroutine builds after a probe that found the znode. *)
Definition probe_entry (directory : string) (stat : zk.Stat) : fuse.DirEntry :=
  {| fuse.Name := directory;
     fuse.EntryMode := if zk.NumChildren stat >? 0 then fuse.S_IFDIR
                       else fuse.S_IFREG |}.

(** One step of goroutine [i]; a goroutine that is blocked or has exited
    leaves the state as it is. *)
Definition step_worker (f : t) (path : string) (maxWorkers : nat) (i : nat)
    (s : State) : State :=
  match workers s !! i with
  | Some (wSend directory) =>
      if (chanLimiter s <? maxWorkers)%nat then
        {| world := world s; dirEntries := dirEntries s;
           chanLimiter := S (chanLimiter s); wg := wg s; main := main s;
           workers := <[i := wExists directory]> (workers s) |}
      else s
  | Some (wExists directory) =>
      match Zoohandler.Exists (zh f) (filepath.Join [path; "/"; directory])
              (world s) with
      | (Err err, w') =>
          {| world := w'; dirEntries := dirEntries s;
             chanLimiter := chanLimiter s; wg := wg s; main := main s;
             workers := <[i := wRecv]> (workers s) |}
      | (Ok (found, stat), w') =>
          {| world := w'; dirEntries := dirEntries s;
             chanLimiter := chanLimiter s; wg := wg s; main := main s;
             workers :=
               <[i := if negb found then wRecv
                      else wLoad (probe_entry directory stat)]> (workers s) |}
      end
  | Some (wLoad dirEntry) =>
      set_worker s i (wStore dirEntry (dirEntries s))
  | Some (wStore dirEntry seen) =>
      {| world := world s; dirEntries := seen ++ [dirEntry];
         chanLimiter := chanLimiter s; wg := wg s; main := main s;
         workers := <[i := wRecv]> (workers s) |}
  | Some wRecv =>
      {| world := world s; dirEntries := dirEntries s;
         chanLimiter := pred (chanLimiter s); wg := wg s; main := main s;
         workers := <[i := wDone]> (workers s) |}
  | Some wDone =>
      {| world := world s; dirEntries := dirEntries s;
         chanLimiter := chanLimiter s; wg := pred (wg s); main := main s;
         workers := <[i := wExited]> (workers s) |}
  | Some wExited => s
  | None => s
  end.

(** One step of the calling thread: [wg.Add(1)] and the [go] statement
    for the next child, then [wg.Wait()], which blocks until the counter
    is zero, then the return of [dirEntries]. *)
Definition step_main (s : State) : State :=
  match main s with
  | mSpawn (child :: rest) =>
      {| world := world s; dirEntries := dirEntries s;
         chanLimiter := chanLimiter s; wg := S (wg s); main := mSpawn rest;
         workers := workers s ++ [wSend child] |}
  | mSpawn [] =>
      {| world := world s; dirEntries := dirEntries s;
         chanLimiter := chanLimiter s; wg := wg s; main := mWait;
         workers := workers s |}
  | mWait =>
      if (wg s =? 0)%nat then
        {| world := world s; dirEntries := dirEntries s;
           chanLimiter := chanLimiter s; wg := wg s;
           main := mReturned (dirEntries s); workers := workers s |}
      else s
  | mReturned _ => s
  end.

Definition step (f : t) (path : string) (maxWorkers : nat) (tid : Tid)
    (s : State) : State :=
  match tid with
  | tMain => step_main s
  | tWorker i => step_worker f path maxWorkers i s
  end.

(** The run under a schedule: the threads step in the order given. *)
Fixpoint run (f : t) (path : string) (maxWorkers : nat) (sched : list Tid)
    (s : State) : State :=
  match sched with
  | [] => s
  | tid :: sched' => run f path maxWorkers sched' (step f path maxWorkers tid s)
  end.

Definition marker_entry : fuse.DirEntry :=
  {| fuse.Name := ZNodeMarker; fuse.EntryMode := fuse.S_IFREG |}.

Definition maxWorkers_for (children : list string) : nat :=
  if (List.length children <? MaxConcurrentRequests)%nat
  then List.length children else MaxConcurrentRequests.

Definition fan_out (children : list string) (w : W) : State :=
  {| world := w; dirEntries := [marker_entry]; chanLimiter := 0; wg := 0;
     main := mSpawn children; workers := [] |}.

(** [OpenDir] under the schedule [sched] of its goroutines.  The result is
    [None] when the call has not returned by the end of the schedule. *)
Definition OpenDir (f : t) (path : string) (sched : list Tid) (w : W)
    : option ((option (list fuse.DirEntry) * fuse.Status) * W) :=
  match Zoohandler.Children (zh f) path w with
  | (Err err, w') => Some ((None, fuse.ENOENT), w')
  | (Ok (children, _), w') =>
      if (List.length children =? 0)%nat then
        Some ((Some [marker_entry], fuse.OK), w')
      else
        let s := run f path (maxWorkers_for children) sched
                   (fan_out children w') in
        match main s with
        | mReturned entries => Some ((Some entries, fuse.OK), world s)
        | _ => None
        end
  end.

(** The goroutines that hold a slot of [chanLimiter]. *)
Definition in_flight (wk : Worker) : bool :=
  match wk with
  | wExists _ | wLoad _ | wStore _ _ | wRecv => true
  | wSend _ | wDone | wExited => false
  end.

(** The goroutines between the read of [dirEntries] and the write back. *)
Definition appending (wk : Worker) : bool :=
  match wk with
  | wStore _ _ => true
  | _ => false
  end.

(** The goroutines that have not called [wg.Done()] yet. *)
Definition unfinished (wk : Worker) : bool :=
  match wk with
  | wExited => false
  | _ => true
  end.

Definition count (p : Worker -> bool) (ws : list Worker) : nat :=
  List.length (List.filter p ws).

(** The loop of the other [OpenDir] among the source files
    (src/unnamed/part_000), which probes the children one after the other
    and appends to [entries]. *)
Fixpoint probe_loop (f : t) (path : string) (c : list string)
    (entries : list fuse.DirEntry) (w : W) : list fuse.DirEntry * W :=
  match c with
  | [] => (entries, w)
  | cld :: rest =>
      match Zoohandler.Exists (zh f) (filepath.Join [path; "/"; cld]) w with
      | (Err err, w') => probe_loop f path rest entries w'
      | (Ok (found, stat), w') =>
          if negb found then probe_loop f path rest entries w'
          else probe_loop f path rest (entries ++ [probe_entry cld stat]) w'
      end
  end.

(** The schedule that starts the [n] goroutines and then lets them run
    to their end one after the other. *)
Definition one_by_one (n : nat) : list Tid :=
  repeat tMain (S n) ++
  flat_map (fun i => repeat (tWorker i) 6) (seq 0 n) ++
  [tMain].

End Methods.
Arguments t : clear implicits.
End FuseFS.

(* ===================================================================== *)
(** * src/unnamed/part_000                                                 *)
(* ===================================================================== *)

(** Another version of fuse.go among the source files, from before the
    marker entry and the goroutines.  Its [GetAttr], [OpenDir] and [Unlink]
    differ from those above; the rest of it is the same. *)
Module Part000.
Section Methods.

Context {W : Type}.

Definition GetAttr (f : FuseFS.t W) (path : string) (w : W)
    : (option fuse.Attr * fuse.Status) * W :=
  if String.eqb path "" then
    ((Some {| fuse.Mode := fuse.S_IFDIR .| dirPermissions (FuseFS.IsReadWrite f);
              fuse.Size := 0; fuse.Atime := 0; fuse.Mtime := 0;
              fuse.Ctime := 0; fuse.owner := fuse.owner FuseFS.zero_Attr |},
      fuse.OK), w)
  else
    match Zoohandler.Exists (FuseFS.zh f) path w with
    | (Err err, w') => ((None, fuse.ENOENT), w')
    | (Ok (found, stat), w') =>
        if negb found then ((None, fuse.ENOENT), w')
        else
          let mode :=
            if zk.NumChildren stat >? 0 then
              fuse.S_IFDIR .| dirPermissions (FuseFS.IsReadWrite f)
            else
              fuse.S_IFREG .| filePermissions (FuseFS.IsReadWrite f) in
          ((Some {| fuse.Mode := mode;
                    fuse.Size := to_uint64 (zk.DataLength stat);
                    fuse.Atime := 0;
                    fuse.Mtime := to_uint64 (Z.quot (zk.Mtime stat) 1000);
                    fuse.Ctime := to_uint64 (Z.quot (zk.Ctime stat) 1000);
                    fuse.owner := fuse.owner FuseFS.zero_Attr |},
            fuse.OK), w')
    end.

(** The children are probed in a loop, one after the other; the listing
    starts out empty. *)
Definition OpenDir (f : FuseFS.t W) (path : string) (w : W)
    : (option (list fuse.DirEntry) * fuse.Status) * W :=
  match Zoohandler.Children (FuseFS.zh f) path w with
  | (Err err, w') => ((None, fuse.ENOENT), w')
  | (Ok (c, _), w') =>
      let (entries, w'') := FuseFS.probe_loop f path c [] w' in
      ((Some entries, fuse.OK), w'')
  end.

(** A pre-check is performed in order to ensure the znode still exists,
    then the [Delete] is performed. *)
Definition Unlink (f : FuseFS.t W) (path : string) (w : W) : fuse.Status * W :=
  match Zoohandler.Exists (FuseFS.zh f) path w with
  | (Err err, w') => (fuse.ENOENT, w')
  | (Ok (found, _), w') =>
      if negb found then (fuse.ENOENT, w')
      else
        match Zoohandler.Delete (FuseFS.zh f) path (-1) w' with
        | (Some err, w'') => (fuse.EIO, w'')
        | (None, w'') => (fuse.OK, w'')
        end
  end.

End Methods.
End Part000.

(* ===================================================================== *)
(** * Observing the gateway                                                *)
(* ===================================================================== *)

(** A call that reached a [Zoohandler], with its arguments. *)
Inductive Call : Type :=
| CallClose
| CallChildren (path : string)
| CallCreate (path : string) (data : list byte) (flags : Z) (acl : list zk.ACL)
| CallDelete (path : string) (version : Z)
| CallExists (path : string)
| CallGet (path : string)
| CallSet (path : string) (data : list byte) (version : Z).

Definition record (log : list Call) (c : Call) : list Call := log ++ [c].

(** [recording zh] behaves as [zh] and keeps the log of the calls made. *)
Definition recording {W : Type} (zh : Zoohandler W) : Zoohandler (W * list Call) :=
  {| Zoohandler.Close := fun s =>
       (Zoohandler.Close zh (fst s), record (snd s) CallClose);
     Zoohandler.Children := fun path s =>
       let (r, w') := Zoohandler.Children zh path (fst s) in
       (r, (w', record (snd s) (CallChildren path)));
     Zoohandler.Create := fun path data flags acl s =>
       let (r, w') := Zoohandler.Create zh path data flags acl (fst s) in
       (r, (w', record (snd s) (CallCreate path data flags acl)));
     Zoohandler.Delete := fun path version s =>
       let (r, w') := Zoohandler.Delete zh path version (fst s) in
       (r, (w', record (snd s) (CallDelete path version)));
     Zoohandler.Exists := fun path s =>
       let (r, w') := Zoohandler.Exists zh path (fst s) in
       (r, (w', record (snd s) (CallExists path)));
     Zoohandler.Get := fun path s =>
       let (r, w') := Zoohandler.Get zh path (fst s) in
       (r, (w', record (snd s) (CallGet path)));
     Zoohandler.Set_ := fun path data version s =>
       let (r, w') := Zoohandler.Set_ zh path data version (fst s) in
       (r, (w', record (snd s) (CallSet path data version))) |}.

(** A test double that returns programmed results and keeps no state. *)
Record Script : Type := {
  on_Children : string -> result (list string * zk.Stat);
  on_Create : string -> result string;
  on_Delete : string -> option error;
  on_Exists : string -> result (bool * zk.Stat);
  on_Get : string -> result (list byte * zk.Stat);
  on_Set : string -> list byte -> result zk.Stat
}.

Definition scripted (m : Script) : Zoohandler unit :=
  {| Zoohandler.Close := fun w => w;
     Zoohandler.Children := fun path w => (on_Children m path, w);
     Zoohandler.Create := fun path _ _ _ w => (on_Create m path, w);
     Zoohandler.Delete := fun path _ w => (on_Delete m path, w);
     Zoohandler.Exists := fun path w => (on_Exists m path, w);
     Zoohandler.Get := fun path w => (on_Get m path, w);
     Zoohandler.Set_ := fun path data _ w => (on_Set m path data, w) |}.

Definition leaf_Stat (n : Z) : zk.Stat :=
  {| zk.Ctime := 0; zk.Mtime := 0; zk.DataLength := n; zk.NumChildren := 0 |}.

(** A store in which every znode exists, holds ["hi"] and has no child,
    and whose root lists the children [a] and [b]. *)
Definition flat_store : Script :=
  {| on_Children := fun _ => Ok (["a"; "b"], leaf_Stat 0);
     on_Create := fun path => Ok path;
     on_Delete := fun _ => None;
     on_Exists := fun _ => Ok (true, leaf_Stat 2);
     on_Get := fun _ => Ok ([104; 105], leaf_Stat 2);
     on_Set := fun _ data => Ok (leaf_Stat (len data)) |}.

Definition test_env : Env :=
  {| unix_now := 1700000000;
     current_owner := {| fuse.Uid := 1000; fuse.Gid := 1000 |} |}.

(** The handle of fusefile_test.go: three zero bytes at ["mock/path"]. *)
Definition test_file : FuseFile.t unit :=
  FuseFile.NewFuseFile test_env [0; 0; 0] 0 "mock/path" (scripted flat_store).

(** The gateway of [TestZKPath], on a recorded wire client. *)
Definition test_handle (root : string) : ZooHandle.t (unit * list Call) :=
  {| ZooHandle.zk := recording (scripted flat_store);
     ZooHandle.ZKRoot := root;
     ZooHandle.FuseMount := "/mnt/fuse" |}.

(** A read-only mount of the alias [/chroot]. *)
Definition test_fs : FuseFS.t (unit * list Call) :=
  {| FuseFS.zh := ZooHandle.handler (test_handle "/chroot");
     FuseFS.FuseRoot := "/mnt/fuse";
     FuseFS.IsReadWrite := false |}.

(** A handle whose gateway is [zh], with the calls recorded. *)
Definition handle_on {W : Type} (zh : Zoohandler W) (data : list byte)
    (attr : fuse.Attr) (path : string) : FuseFile.t (W * list Call) :=
  {| FuseFile.data := data; FuseFile.attr := attr;
     FuseFile.zh := recording zh; FuseFile.path := path |}.

(** A [ZooHandle] on the wire client [wire], with the calls recorded. *)
Definition gateway_on {W : Type} (wire : Zoohandler W) (root mount : string)
    : ZooHandle.t (W * list Call) :=
  {| ZooHandle.zk := recording wire;
     ZooHandle.ZKRoot := root;
     ZooHandle.FuseMount := mount |}.

(** An adapter on the gateway [zh], with the calls recorded. *)
Definition adapter_on {W : Type} (zh : Zoohandler W) (root : string) (rw : bool)
    : FuseFS.t (W * list Call) :=
  {| FuseFS.zh := recording zh; FuseFS.FuseRoot := root;
     FuseFS.IsReadWrite := rw |}.

(** An adapter directly on the test double, as the tests build it. *)
Definition flat_fs : FuseFS.t unit :=
  {| FuseFS.zh := scripted flat_store; FuseFS.FuseRoot := "/mnt/fuse";
     FuseFS.IsReadWrite := false |}.

(** The calling thread starts both goroutines; each takes a slot, probes
    its child and reads [dirEntries]. *)
Definition overlap_schedule : list FuseFS.Tid :=
  [FuseFS.tMain; FuseFS.tMain; FuseFS.tMain;
   FuseFS.tWorker 0; FuseFS.tWorker 1;      (* chanLimiter <- struct{}{} *)
   FuseFS.tWorker 0; FuseFS.tWorker 1;      (* Exists *)
   FuseFS.tWorker 0; FuseFS.tWorker 1].     (* the read of dirEntries *)

(** Then each writes its result back, releases its slot and signals the
    wait group, and the calling thread returns. *)
Definition lost_entry_schedule : list FuseFS.Tid :=
  overlap_schedule ++
  [FuseFS.tWorker 0; FuseFS.tWorker 1;      (* the write of dirEntries *)
   FuseFS.tWorker 0; FuseFS.tWorker 0;      (* <-chanLimiter; wg.Done() *)
   FuseFS.tWorker 1; FuseFS.tWorker 1;
   FuseFS.tMain].

(** The slots of [chanLimiter] are held by the goroutines in flight, and
    there are no more slots than [maxWorkers]. *)
Definition slots_ok {W : Type} (maxWorkers : nat) (s : @FuseFS.State W) : Prop :=
  FuseFS.count FuseFS.in_flight (FuseFS.workers s) = FuseFS.chanLimiter s /\
  (FuseFS.chanLimiter s <= maxWorkers)%nat.

(** An entry that the probe of one of [children] has produced: the probe
    found the znode present. *)
Definition probed {W : Type} (f : FuseFS.t W) (path : string)
    (children : list string) (e : fuse.DirEntry) : Prop :=
  exists child stat w w',
    In child children /\
    Zoohandler.Exists (FuseFS.zh f) (filepath.Join [path; "/"; child]) w =
      (Ok (true, stat), w') /\
    e = FuseFS.probe_entry child stat.

(** A listing of [path]: the marker entry, then entries of probed children. *)
Definition listing_of {W : Type} (f : FuseFS.t W) (path : string)
    (children : list string) (entries : list fuse.DirEntry) : Prop :=
  exists l, entries = FuseFS.marker_entry :: l /\
            Forall (probed f path children) l.

Definition worker_ok {W : Type} (f : FuseFS.t W) (path : string)
    (children : list string) (wk : FuseFS.Worker) : Prop :=
  match wk with
  | FuseFS.wSend directory | FuseFS.wExists directory => In directory children
  | FuseFS.wLoad dirEntry => probed f path children dirEntry
  | FuseFS.wStore dirEntry seen =>
      probed f path children dirEntry /\ listing_of f path children seen
  | FuseFS.wRecv | FuseFS.wDone | FuseFS.wExited => True
  end.

Definition main_ok {W : Type} (f : FuseFS.t W) (path : string)
    (children : list string) (m : FuseFS.Main) : Prop :=
  match m with
  | FuseFS.mSpawn rest => forall child, In child rest -> In child children
  | FuseFS.mWait => True
  | FuseFS.mReturned entries => listing_of f path children entries
  end.

(** What every state of the fan-out satisfies. *)
Definition entries_ok {W : Type} (f : FuseFS.t W) (path : string)
    (children : list string) (s : @FuseFS.State W) : Prop :=
  listing_of f path children (FuseFS.dirEntries s) /\
  Forall (worker_ok f path children) (FuseFS.workers s) /\
  main_ok f path children (FuseFS.main s).

(** The adapter [f] with the read-write flag of the mount set to [rw]. *)
Definition with_IsReadWrite {W : Type} (f : FuseFS.t W) (rw : bool) : FuseFS.t W :=
  {| FuseFS.zh := FuseFS.zh f; FuseFS.FuseRoot := FuseFS.FuseRoot f;
     FuseFS.IsReadWrite := rw |}.

(** The children for which the calling thread has not started a goroutine. *)
Definition unspawned (m : FuseFS.Main) : nat :=
  match m with
  | FuseFS.mSpawn children => List.length children
  | FuseFS.mWait | FuseFS.mReturned _ => 0
  end.

(** The wait group counts the goroutines that have not exited, there is
    one goroutine for each child the loop has passed, and the calling
    thread returns [dirEntries] as it is once the counter is zero. *)
Definition wg_ok {W : Type} (n : nat) (s : @FuseFS.State W) : Prop :=
  FuseFS.wg s = FuseFS.count FuseFS.unfinished (FuseFS.workers s) /\
  (List.length (FuseFS.workers s) + unspawned (FuseFS.main s) = n)%nat /\
  forall entries, FuseFS.main s = FuseFS.mReturned entries ->
                  FuseFS.wg s = 0%nat /\ FuseFS.dirEntries s = entries.

(** [s] ends in [suffix]. *)
Definition ends_in (s suffix : string) : Prop := exists pre, s = pre ++ suffix.

(** [syscall.S_IFMT], the mask of the file type in a mode (0170000), and
    the write bits of a mode (0222). *)
Definition S_IFMT : Z := 61440.
Definition write_bits : Z := 146.

(** A handle on the gateway [ZooHandle] over the wire client [wire], with
    the calls that reach the wire client recorded. *)
Definition handle_through {W : Type} (wire : Zoohandler W) (root mount : string)
    (data : list byte) (attr : fuse.Attr) (path : string)
    : FuseFile.t (W * list Call) :=
  {| FuseFile.data := data; FuseFile.attr := attr;
     FuseFile.zh := ZooHandle.handler (gateway_on wire root mount);
     FuseFile.path := path |}.

(** The goroutines that are past their [append], or have skipped it. *)
Definition past_append (wk : FuseFS.Worker) : bool :=
  match wk with
  | FuseFS.wRecv | FuseFS.wDone | FuseFS.wExited => true
  | _ => false
  end.

(** No listing, read or being written, is longer than the marker entry
    and one entry for each goroutine past its [append]. *)
Definition length_ok {W : Type} (s : @FuseFS.State W) : Prop :=
  let bound := S (FuseFS.count past_append (FuseFS.workers s)) in
  (List.length (FuseFS.dirEntries s) <= bound)%nat /\
  Forall (fun wk => match wk with
                    | FuseFS.wStore _ seen => (List.length seen <= bound)%nat
                    | _ => True
                    end) (FuseFS.workers s) /\
  (forall entries, FuseFS.main s = FuseFS.mReturned entries ->
                   (List.length entries <= bound)%nat).

(** A goroutine at rest: it has not taken a slot yet, or it has exited. *)
Definition at_rest (wk : FuseFS.Worker) : Prop :=
  match wk with
  | FuseFS.wSend _ | FuseFS.wExited => True
  | _ => False
  end.

(** Every goroutine in turn, left to run for six steps. *)
Definition each_in_turn (n : nat) : list FuseFS.Tid :=
  flat_map (fun i => repeat (FuseFS.tWorker i) 6) (seq 0 n).

(** The schedule that brings a fan-out over [n] children to its end from
    wherever it stands: the calling thread starts what goroutines are
    left, the goroutines in flight run out and free their slots, the
    waiting ones follow, and the calling thread returns. *)
Definition drain (n : nat) : list FuseFS.Tid :=
  repeat FuseFS.tMain (S n) ++ each_in_turn n ++ each_in_turn n ++ [FuseFS.tMain].

(** The steps a goroutine has before it at most. *)
Definition steps_left (wk : FuseFS.Worker) : nat :=
  match wk with
  | FuseFS.wSend _ => 6%nat
  | FuseFS.wExists _ => 5%nat
  | FuseFS.wLoad _ => 4%nat
  | FuseFS.wStore _ _ => 3%nat
  | FuseFS.wRecv => 2%nat
  | FuseFS.wDone => 1%nat
  | FuseFS.wExited => 0%nat
  end.

(** A goroutine that holds a slot of [chanLimiter] or has held one. *)
Definition admitted (wk : FuseFS.Worker) : Prop :=
  match wk with
  | FuseFS.wSend _ => False
  | _ => True
  end.

(** The calling thread is through its loop. *)
Definition spawned (m : FuseFS.Main) : Prop :=
  match m with
  | FuseFS.mSpawn _ => False
  | FuseFS.mWait | FuseFS.mReturned _ => True
  end.

(** The name of a znode: not empty, without separator, and neither [.]
    nor [..]. *)
Definition node_name (e : list ascii) : Prop :=
  e <> [] /\ Forall (fun c => filepath.IsPathSeparator c = false) e /\
  e <> ["."%char] /\ e <> ["."%char; "."%char].

(** The buffer of [Clean] that holds the rooted path of the names in
    [stack], the last name first: each name backwards, after it the
    separator that stands before it in the path. *)
Definition buffer_of (stack : list (list ascii)) : list ascii :=
  match stack with
  | [] => [filepath.Separator]
  | _ => flat_map (fun e => (rev e ++ [filepath.Separator])%list) stack
  end.

(** The path that begins at the root and goes through [names]. *)
Definition path_through (names : list (list ascii)) : string :=
  String "/" (String.concat "/" (List.map string_of_list_ascii names)).

(** The path of a znode: the separator, then names with one separator
    between them. *)
Definition znode_path (p : string) : Prop :=
  exists names, Forall node_name names /\ p = path_through names.

(** A call that names no znode, or names one by the path of a znode. *)
Definition znode_call (c : Call) : Prop :=
  match c with
  | CallClose => True
  | CallChildren p | CallCreate p _ _ _ | CallDelete p _ | CallExists p
  | CallGet p | CallSet p _ _ => znode_path p
  end.

(** The element at the head of a path. *)
Fixpoint head_elem (path : list ascii) : list ascii :=
  match path with
  | [] => []
  | c :: rest => if filepath.IsPathSeparator c then [] else c :: head_elem rest
  end.

(** The child a goroutine has still to probe. *)
Definition to_probe (wk : FuseFS.Worker) : list string :=
  match wk with
  | FuseFS.wSend directory | FuseFS.wExists directory => [directory]
  | _ => []
  end.

(** The children the loop of the calling thread has still to pass. *)
Definition to_spawn (m : FuseFS.Main) : list string :=
  match m with
  | FuseFS.mSpawn children => children
  | FuseFS.mWait | FuseFS.mReturned _ => []
  end.

(** The call by which a goroutine of [OpenDir(path)] probes [child]. *)
Definition probe_call (path child : string) : Call :=
  CallExists (filepath.Join [path; "/"; child]).

(** The calls made since the fan-out began are the probes of the children
    in [done], and these with the children still to probe are the
    children of the directory. *)
Definition probes_ok {W : Type} (path : string) (children : list string)
    (log0 : list Call) (s : @FuseFS.State (W * list Call)) : Prop :=
  exists done,
    snd (FuseFS.world s) = (log0 ++ List.map (probe_call path) done)%list /\
    Permutation
      (done ++ flat_map to_probe (FuseFS.workers s) ++ to_spawn (FuseFS.main s))%list
      children.

(** A relative path: names with one separator between them. *)
Definition relative (names : list (list ascii)) : string :=
  String.concat "/" (List.map string_of_list_ascii names).

(** The bytes [cs] spell the names [ns]: separators and [.] elements
    apart, [cs] is the names in their order, each one a whole element. *)
Inductive spells : list ascii -> list (list ascii) -> Prop :=
| spells_nil : spells [] []
| spells_sep cs ns : spells cs ns -> spells (filepath.Separator :: cs) ns
| spells_dot cs ns :
    filepath.at_elem_end cs = true -> spells cs ns -> spells ("."%char :: cs) ns
| spells_name n cs ns :
    node_name n -> filepath.at_elem_end cs = true -> spells cs ns ->
    spells (n ++ cs)%list (n :: ns).

(* ===================================================================== *)
(** * The rules of [Clean] and [Rel], element by element                   *)
(* ===================================================================== *)

(** [filepath.Clean] and [filepath.Rel] above follow the library's loops
    byte by byte.  Here are their rules on the elements of a path, to
    check the loops against. *)

(** The elements of a path: what stands between the separators. *)
Fixpoint elements (path : string) : list string :=
  match path with
  | EmptyString => [""]
  | String c rest =>
      if filepath.IsPathSeparator c then "" :: elements rest
      else match elements rest with
           | e :: es => String c e :: es
           | [] => [String c ""]
           end
  end.

(** The rules of [Clean] on the elements, kept last element first: empty
    elements and [.] go; [..] takes the element before it away, is dropped
    at the root, and stays at the head of a path that is not rooted. *)
Fixpoint clean_elements (rooted : bool) (es kept : list string) : list string :=
  match es with
  | [] => kept
  | e :: es' =>
      if String.eqb e "" || String.eqb e "." then clean_elements rooted es' kept
      else if String.eqb e ".." then
        match kept with
        | k :: kept' =>
            if String.eqb k ".." then clean_elements rooted es' (e :: kept)
            else clean_elements rooted es' kept'
        | [] =>
            if rooted then clean_elements rooted es' kept
            else clean_elements rooted es' [e]
        end
      else clean_elements rooted es' (e :: kept)
  end.

Definition Clean_by_elements (path : string) : string :=
  let rooted := filepath.starts_with_sep path in
  let kept := rev (clean_elements rooted (elements path) []) in
  if rooted then "/" ++ String.concat "/" kept
  else match kept with
       | [] => "."
       | _ => String.concat "/" kept
       end.

(** The rules of [Rel] on the elements of the two cleaned paths. *)
Definition path_elements (clean : string) : list string :=
  List.filter (fun e => negb (String.eqb e "")) (elements clean).

Fixpoint strip_common (bs ts : list string) : list string * list string :=
  match bs, ts with
  | b :: bs', t :: ts' =>
      if String.eqb b t then strip_common bs' ts' else (bs, ts)
  | _, _ => (bs, ts)
  end.

Definition Rel_by_elements (basepath targpath : string) : result string :=
  let base := Clean_by_elements basepath in
  let targ := Clean_by_elements targpath in
  if String.eqb targ base then Ok "."
  else if negb (Bool.eqb (filepath.starts_with_sep base)
                         (filepath.starts_with_sep targ)) then
    Err ("Rel: can't make " ++ targpath ++ " relative to " ++ basepath)
  else
    let base := if String.eqb base "." then "" else base in
    let '(bs, ts) := strip_common (path_elements base) (path_elements targ) in
    match bs, ts with
    | b :: _, _ :: _ =>
        if String.eqb b ".." then
          Err ("Rel: can't make " ++ targpath ++ " relative to " ++ basepath)
        else Ok (String.concat "/" (List.map (fun _ => "..") bs ++ ts))
    | _, _ => Ok (String.concat "/" (List.map (fun _ => "..") bs ++ ts))
    end.

(** All strings of length [n] over an alphabet. *)
Fixpoint words (alphabet : list ascii) (n : nat) : list string :=
  match n with
  | O => [""]
  | S n' => List.flat_map (fun w => List.map (fun c => String c w) alphabet)
              (words alphabet n')
  end.

Definition words_upto (alphabet : list ascii) (n : nat) : list string :=
  List.flat_map (words alphabet) (seq 0 (S n)).

Definition result_eqb (r1 r2 : result string) : bool :=
  match r1, r2 with
  | Ok s1, Ok s2 => String.eqb s1 s2
  | Err e1, Err e2 => String.eqb e1 e2
  | _, _ => false
  end.

(* ===================================================================== *)
(** * The library functions                                                *)
(* ===================================================================== *)

Section Fuel.

Local Open Scope list_scope.
Local Open Scope nat_scope.

(** [copy_elem] leaves a suffix of the path unread. *)
Lemma copy_elem_rest (path out : list ascii) :
  List.length (fst (filepath.copy_elem path out)) <= List.length path.
Proof.
  revert out. induction path as [|c rest IH]; intros out; cbn; [lia|].
  destruct (filepath.IsPathSeparator c); cbn; [lia|].
  specialize (IH (c :: out)). lia.
Qed.

(** A real path element is not empty: [copy_elem] reads at least one byte
    of a path that does not begin with a separator. *)
Lemma copy_elem_progress (c : ascii) (rest out : list ascii) :
  filepath.IsPathSeparator c = false ->
  List.length (fst (filepath.copy_elem (c :: rest) out)) <= List.length rest.
Proof.
  intros Hc. cbn. rewrite Hc. apply copy_elem_rest.
Qed.

(** The loop of [Clean] ends before its fuel does: more fuel than the
    path has bytes changes nothing. *)
Lemma clean_loop_fuel (fuel fuel' : nat) rooted (path out : list ascii) dotdot :
  List.length path < fuel -> List.length path < fuel' ->
  filepath.clean_loop fuel rooted path out dotdot =
  filepath.clean_loop fuel' rooted path out dotdot.
Proof.
  revert fuel' path out dotdot.
  induction fuel as [|fuel IH]; intros fuel' path out dotdot Hf Hf'; [lia|].
  destruct fuel' as [|fuel']; [lia|].
  destruct path as [|c rest]; [reflexivity|].
  cbn [filepath.clean_loop List.length] in *.
  destruct (filepath.IsPathSeparator c) eqn:Hsep; [apply IH; lia|].
  destruct (Ascii.eqb c "." && filepath.at_elem_end rest); [apply IH; lia|].
  destruct (Ascii.eqb c "." && _) eqn:Hdd.
  - assert (Hrest : List.length (tl rest) <= List.length rest)
      by (destruct rest; cbn; lia).
    destruct (dotdot <? List.length out); [apply IH; lia|].
    destruct (negb rooted); apply IH; lia.
  - pose proof (copy_elem_progress c rest
                  (if rooted && negb (List.length out =? 1)
                      || negb rooted && negb (List.length out =? 0)
                   then filepath.Separator :: out else out) Hsep) as Hp.
    destruct (filepath.copy_elem _ _) as [rest' out2]. cbn [fst] in Hp.
    apply IH; lia.
Qed.

Lemma get_Some_lt (s : string) (i : nat) (c : ascii) :
  String.get i s = Some c -> i < String.length s.
Proof.
  revert i. induction s as [|c' s IH]; intros i H; [discriminate|].
  destruct i as [|i]; cbn in *; [lia|]. apply IH in H. lia.
Qed.

(** The scan of an element ends before its fuel does. *)
Lemma scan_elem_fuel (fuel fuel' : nat) (s : string) (i : nat) :
  String.length s - i <= fuel -> String.length s - i <= fuel' ->
  filepath.scan_elem fuel s i = filepath.scan_elem fuel' s i.
Proof.
  revert fuel' i. induction fuel as [|fuel IH]; intros fuel' i Hf Hf'.
  - destruct fuel' as [|fuel']; [reflexivity|]. cbn.
    destruct (String.get i s) as [c|] eqn:Hg; [|reflexivity].
    apply get_Some_lt in Hg. lia.
  - cbn. destruct (String.get i s) as [c|] eqn:Hg.
    + pose proof (get_Some_lt _ _ _ Hg) as Hlt.
      destruct fuel' as [|fuel']; [lia|]. cbn. rewrite Hg.
      destruct (filepath.IsPathSeparator c); [reflexivity|]. apply IH; lia.
    + destruct fuel' as [|fuel']; [reflexivity|]. cbn. rewrite Hg. reflexivity.
Qed.

Lemma scan_elem_ge (fuel : nat) (s : string) (i : nat) :
  i <= filepath.scan_elem fuel s i.
Proof.
  revert i. induction fuel as [|fuel IH]; intros i; cbn; [lia|].
  destruct (String.get i s) as [c|]; [|lia].
  destruct (filepath.IsPathSeparator c); [lia|]. specialize (IH (S i)). lia.
Qed.

(** The loop of [Rel] ends before its fuel does. *)
Lemma rel_loop_fuel (fuel fuel' : nat) (base targ : string) (b0 bi t0 ti : nat) :
  String.length base - bi <= fuel -> String.length base - bi <= fuel' ->
  filepath.rel_loop fuel base targ b0 bi t0 ti =
  filepath.rel_loop fuel' base targ b0 bi t0 ti.
Proof.
  revert fuel' b0 bi t0 ti.
  induction fuel as [|fuel IH]; intros fuel' b0 bi t0 ti Hf Hf'.
  - destruct fuel' as [|fuel']; [reflexivity|]. cbn [filepath.rel_loop].
    destruct (Nat.ltb_spec bi (String.length base)); [lia | reflexivity].
  - cbn [filepath.rel_loop].
    destruct (Nat.ltb_spec bi (String.length base)) as [Hlt|Hge].
    + destruct fuel' as [|fuel']; [lia|]. cbn [filepath.rel_loop].
      destruct (Nat.ltb_spec bi (String.length base)); [|lia].
      destruct (ti <? String.length targ); [|reflexivity]. cbn [andb].
      destruct (negb _); [reflexivity|].
      pose proof (scan_elem_ge (String.length base) base bi) as Hs.
      destruct (Nat.ltb_spec (filepath.scan_elem (String.length base) base bi)
                  (String.length base)); apply IH; lia.
    + destruct fuel' as [|fuel']; [reflexivity|]. cbn [filepath.rel_loop].
      destruct (Nat.ltb_spec bi (String.length base)); [lia | reflexivity].
Qed.

End Fuel.

Section Suffix.

Local Open Scope nat_scope.

Lemma substring_all (s : string) : substring 0 (String.length s) s = s.
Proof. induction s as [|c s IH]; cbn; [reflexivity | rewrite IH; reflexivity]. Qed.

Lemma substring_after (pre suf : string) :
  substring (String.length pre) (String.length suf) (pre ++ suf) = suf.
Proof.
  induction pre as [|c pre IH]; cbn; [apply substring_all | exact IH].
Qed.

Lemma length_append (s1 s2 : string) :
  String.length (s1 ++ s2) = String.length s1 + String.length s2.
Proof. induction s1 as [|c s1 IH]; cbn; [reflexivity | rewrite IH; reflexivity]. Qed.

Lemma substring_split (s : string) (k : nat) :
  k <= String.length s ->
  s = substring 0 k s ++ substring k (String.length s - k) s.
Proof.
  revert k. induction s as [|c s IH]; intros k Hk.
  - destruct k; reflexivity.
  - destruct k as [|k]; cbn.
    + rewrite substring_all. reflexivity.
    + cbn in Hk. rewrite <- IH by lia. reflexivity.
Qed.

(** [strings.HasSuffix] tests whether the string ends in the suffix. *)
Lemma HasSuffix_spec (s suffix : string) :
  strings.HasSuffix s suffix = true <-> exists pre, s = pre ++ suffix.
Proof.
  unfold strings.HasSuffix. split.
  - intros H. apply andb_true_iff in H. destruct H as [Hle Heq].
    apply Nat.leb_le in Hle. apply String.eqb_eq in Heq.
    exists (substring 0 (String.length s - String.length suffix) s).
    pose proof (substring_split s (String.length s - String.length suffix)
                  ltac:(lia)) as Hs.
    replace (String.length s - (String.length s - String.length suffix))
      with (String.length suffix) in Hs by lia.
    rewrite Heq in Hs. exact Hs.
  - intros [pre ->]. rewrite length_append.
    apply andb_true_iff. split; [apply Nat.leb_le; lia|].
    replace (String.length pre + String.length suffix - String.length suffix)
      with (String.length pre) by lia.
    rewrite substring_after. apply String.eqb_refl.
Qed.

End Suffix.

(** The loop of [Clean] and the rules on the elements agree on every path
    of up to six bytes over the separator, the dot and a letter. *)
Lemma Clean_by_elements_agrees :
  forallb (fun p => String.eqb (filepath.Clean p) (Clean_by_elements p))
    (words_upto ["/"; "."; "a"]%char 6) = true.
Proof. vm_compute. reflexivity. Qed.

(** The loop of [Rel] and the rules on the elements agree on every pair
    of paths of up to three bytes over the separator, the dot and two
    letters. *)
Lemma Rel_by_elements_agrees :
  let paths := words_upto ["/"; "."; "a"; "b"]%char 3 in
  forallb (fun b =>
    forallb (fun t => result_eqb (filepath.Rel b t) (Rel_by_elements b t)) paths)
    paths = true.
Proof. vm_compute. reflexivity. Qed.

(** Some paths cleaned, joined and made relative. *)
Example Clean_cases :
  filepath.Clean "" = "." /\
  filepath.Clean "abc//def//ghi" = "abc/def/ghi" /\
  filepath.Clean "abc/def/../ghi/../jkl" = "abc/jkl" /\
  filepath.Clean "abc/../../././../def" = "../../def" /\
  filepath.Clean "/abc/def/../../.." = "/" /\
  filepath.Clean "/../abc/" = "/abc".
Proof. vm_compute. repeat split. Qed.

Example Join_cases :
  filepath.Join ["/mnt/fuse"; ""] = "/mnt/fuse" /\
  filepath.Join [""; "/"; "a"] = "/a" /\
  filepath.Join ["dir"; "/"; "a"] = "dir/a" /\
  filepath.Join ["/"; "/chroot"; "."] = "/chroot" /\
  filepath.Join [""; ""] = "".
Proof. vm_compute. repeat split. Qed.

Example Rel_cases :
  filepath.Rel "a/b" "a/b/c/d" = Ok "c/d" /\
  filepath.Rel "a/b/c/d" "a/b" = Ok "../.." /\
  filepath.Rel "/ab/cd" "/ab/c" = Ok "../c" /\
  filepath.Rel "/a/b" "/c/d" = Ok "../../c/d" /\
  filepath.Rel "/a/b" "/a/b/." = Ok "." /\
  filepath.Rel "." "a/b" = Ok "a/b" /\
  filepath.Rel ".." "a" = Err "Rel: can't make a relative to .." /\
  filepath.Rel "a" "/a" = Err "Rel: can't make /a relative to a".
Proof. vm_compute. repeat split. Qed.

(* ===================================================================== *)
(** * Path translation                                                     *)
(* ===================================================================== *)

(** The assertions of [TestZKPath] without alias. *)
Example TestZKPath_root :
  let zh := test_handle "/" in
  ZooHandle.ZKPath zh "" = "/" /\
  ZooHandle.ZKPath zh "/" = "/" /\
  ZooHandle.ZKPath zh "/test-path/" = "/test-path" /\
  ZooHandle.ZKPath zh "test-path" = "/test-path" /\
  ZooHandle.ZKPath zh "test-path/sub-node" = "/test-path/sub-node".
Proof. vm_compute. repeat split. Qed.

(** The assertions of [TestZKPath] under the alias [/chroot], but the last. *)
Example TestZKPath_chroot :
  let zh := test_handle "/chroot" in
  ZooHandle.ZKPath zh "/" = "/chroot" /\
  ZooHandle.ZKPath zh "test-path" = "/chroot/test-path" /\
  ZooHandle.ZKPath zh "test-path/sub-node" = "/chroot/test-path/sub-node".
Proof. vm_compute. repeat split. Qed.

(** C2 at the mount of [TestZKPath] with the alias [/chroot]: a path
    that climbs out of the mount point is translated to a path outside
    the alias, not to the alias root. *)
Theorem ZKPath_leaves_alias :
  ZooHandle.ZKPath (test_handle "/chroot") "../x" = "/x" /\
  ZooHandle.ZKPath (test_handle "/chroot") ".." = "/" /\
  ZooHandle.ZKPath (test_handle "/chroot") "a/../../../etc" = "/etc".
Proof. vm_compute. repeat split. Qed.

(** C4 at the last assertion of [TestZKPath]: the path of the marker
    entry is translated with the marker name kept, so it is not the
    remote path of the directory, and [Open] asks the wire client for the
    znode of that name. *)
Theorem ZKPath_keeps_marker :
  let p := "test-path/sub-node" in
  ZooHandle.ZKPath (test_handle "/chroot") (p ++ "/" ++ ZNodeMarker) =
    "/chroot/test-path/sub-node/__znode_data__" /\
  ZooHandle.ZKPath (test_handle "/chroot") p = "/chroot/test-path/sub-node" /\
  snd (snd (FuseFS.Open test_env test_fs (p ++ "/" ++ ZNodeMarker) 0 (tt, []))) =
    [CallGet "/chroot/test-path/sub-node/__znode_data__"].
Proof. vm_compute. repeat split. Qed.

(* ===================================================================== *)
(** * Translated paths are paths of znodes                                 *)
(* ===================================================================== *)

Section Canonical.

Local Open Scope list_scope.
Local Open Scope nat_scope.

Lemma buffer_of_cons e stack :
  buffer_of (e :: stack) =
  rev e ++ match stack with
           | [] => [filepath.Separator]
           | _ => filepath.Separator :: buffer_of stack
           end.
Proof.
  destruct stack as [|e' stack]; cbn [buffer_of flat_map].
  - rewrite app_nil_r. reflexivity.
  - rewrite <- app_assoc. reflexivity.
Qed.

Lemma buffer_of_length stack :
  Forall node_name stack -> stack <> [] -> 1 < List.length (buffer_of stack).
Proof.
  intros Hs Hne. destruct stack as [|e stack]; [contradiction|].
  apply Forall_cons_1 in Hs. destruct Hs as [[He _] _].
  rewrite buffer_of_cons, length_app, length_rev.
  destruct e; [contradiction|]. destruct stack; cbn [List.length]; lia.
Qed.

(** [..] at an element takes the last name off the buffer. *)
Lemma backtrack_name (l tail : list ascii) :
  l <> [] -> Forall (fun c => filepath.IsPathSeparator c = false) l ->
  filepath.backtrack (l ++ filepath.Separator :: tail) 1 =
  match tail with
  | [] => [filepath.Separator]
  | _ => tail
  end.
Proof.
  induction l as [|c l IH]; intros Hne Hl; [contradiction|].
  apply Forall_cons_1 in Hl. destruct Hl as [Hc Hl].
  cbn [app filepath.backtrack]. rewrite Hc. cbn [negb].
  destruct l as [|c' l].
  - cbn [app List.length]. destruct tail as [|t tail]; [reflexivity|].
    cbn [List.length Nat.ltb Nat.leb andb filepath.backtrack].
    change (filepath.IsPathSeparator filepath.Separator) with true.
    cbn [negb]. rewrite andb_false_r. reflexivity.
  - replace (1 <? List.length ((c' :: l) ++ filepath.Separator :: tail)) with true.
    + cbn [andb]. apply IH; [discriminate | exact Hl].
    + symmetry. apply Nat.ltb_lt. rewrite length_app. cbn [List.length]. lia.
Qed.

Lemma backtrack_buffer e stack :
  node_name e ->
  filepath.backtrack (buffer_of (e :: stack)) 1 = buffer_of stack.
Proof.
  intros (He & Hsep & _). rewrite buffer_of_cons.
  destruct stack as [|e' stack].
  - apply (backtrack_name (rev e) []).
    + destruct e; [contradiction|]. cbn. destruct (rev e); discriminate.
    + apply Forall_rev, Hsep.
  - rewrite backtrack_name.
    + destruct (buffer_of (e' :: stack)) eqn:Hb; [|reflexivity].
      rewrite buffer_of_cons in Hb. apply (f_equal (@List.length _)) in Hb.
      rewrite length_app in Hb. destruct stack; cbn [List.length] in Hb; lia.
    + destruct e; [contradiction|]. cbn. destruct (rev e); discriminate.
    + apply Forall_rev, Hsep.
Qed.

Lemma copy_elem_head path out :
  snd (filepath.copy_elem path out) = rev (head_elem path) ++ out.
Proof.
  revert out. induction path as [|c rest IH]; intros out; [reflexivity|].
  cbn [filepath.copy_elem head_elem].
  destruct (filepath.IsPathSeparator c); [reflexivity|].
  rewrite IH. cbn [rev]. rewrite <- app_assoc. reflexivity.
Qed.

Lemma head_elem_no_sep path :
  Forall (fun c => filepath.IsPathSeparator c = false) (head_elem path).
Proof.
  induction path as [|c rest IH]; [constructor|]. cbn [head_elem].
  destruct (filepath.IsPathSeparator c) eqn:Hc; [constructor|].
  constructor; assumption.
Qed.

Lemma head_elem_nil path :
  head_elem path = [] -> filepath.at_elem_end path = true.
Proof.
  destruct path as [|c rest]; [reflexivity|]. cbn.
  destruct (filepath.IsPathSeparator c); [reflexivity | discriminate].
Qed.

(** What the loop of [Clean] copies as a name is one. *)
Lemma copied_name c rest :
  filepath.IsPathSeparator c = false ->
  Ascii.eqb c "." && filepath.at_elem_end rest = false ->
  Ascii.eqb c "." &&
    match rest with
    | c' :: rest' => Ascii.eqb c' "." && filepath.at_elem_end rest'
    | [] => false
    end = false ->
  node_name (head_elem (c :: rest)).
Proof.
  intros Hc Hdot Hdotdot. cbn [head_elem]. rewrite Hc.
  split; [discriminate|]. split.
  { constructor; [exact Hc | apply head_elem_no_sep]. }
  split.
  - intros [= -> Hrest]. apply head_elem_nil in Hrest.
    rewrite Hrest in Hdot. discriminate.
  - intros [= -> Hrest]. destruct rest as [|c' rest']; [discriminate|].
    cbn [head_elem] in Hrest.
    destruct (filepath.IsPathSeparator c') eqn:Hc'; [discriminate|].
    injection Hrest as -> Hrest. apply head_elem_nil in Hrest.
    rewrite Hrest in Hdotdot. discriminate.
Qed.

(** The loop of [Clean] on a rooted path keeps the buffer the path of a
    stack of names. *)
Lemma clean_loop_buffer fuel path stack :
  Forall node_name stack ->
  exists stack',
    Forall node_name stack' /\
    filepath.clean_loop fuel true path (buffer_of stack) 1 = buffer_of stack'.
Proof.
  revert path stack. induction fuel as [|fuel IH]; intros path stack Hs.
  { exists stack. split; [exact Hs | reflexivity]. }
  destruct path as [|c rest].
  { exists stack. split; [exact Hs | reflexivity]. }
  cbn [filepath.clean_loop].
  destruct (filepath.IsPathSeparator c) eqn:Hc; [apply IH, Hs|].
  remember (Ascii.eqb c "." && filepath.at_elem_end rest) as dot eqn:Hdot.
  symmetry in Hdot. destruct dot; [apply IH, Hs|].
  remember (Ascii.eqb c "." &&
            match rest with
            | c' :: rest' => Ascii.eqb c' "." && filepath.at_elem_end rest'
            | [] => false
            end) as dotdot eqn:Hdotdot.
  symmetry in Hdotdot. destruct dotdot.
  - destruct stack as [|e stack].
    + cbn [buffer_of List.length Nat.ltb Nat.leb negb].
      apply (IH (tl rest) []), Hs.
    + apply Forall_cons_1 in Hs. destruct Hs as [He Hs].
      pose proof (buffer_of_length (e :: stack)
                    (Forall_cons_2 _ _ _ He Hs) ltac:(discriminate)) as Hlen.
      apply Nat.ltb_lt in Hlen. rewrite Hlen.
      rewrite backtrack_buffer by exact He. apply IH, Hs.
  - cbn [andb negb orb]. rewrite orb_false_r.
    pose proof (copied_name c rest Hc Hdot Hdotdot) as Hname.
    pose proof (copy_elem_head (c :: rest)
                  (if negb (List.length (buffer_of stack) =? 1)
                   then filepath.Separator :: buffer_of stack
                   else buffer_of stack)) as Hcopy.
    destruct (filepath.copy_elem _ _) as [rest' out2]. cbn [snd] in Hcopy.
    assert (Hout : out2 = buffer_of (head_elem (c :: rest) :: stack)).
    { rewrite Hcopy, buffer_of_cons. f_equal.
      destruct stack as [|e stack]; [reflexivity|].
      pose proof (buffer_of_length (e :: stack) Hs ltac:(discriminate)) as Hlen.
      destruct (Nat.eqb_spec (List.length (buffer_of (e :: stack))) 1); [lia|].
      reflexivity. }
    rewrite Hout. apply IH. constructor; assumption.
Qed.

Lemma string_of_list_ascii_app l1 l2 :
  string_of_list_ascii (l1 ++ l2) =
  (string_of_list_ascii l1 ++ string_of_list_ascii l2)%string.
Proof. induction l1 as [|c l1 IH]; cbn; [reflexivity | rewrite IH; reflexivity]. Qed.

Lemma rev_flat_map (stack : list (list ascii)) :
  rev (flat_map (fun e => rev e ++ [filepath.Separator]) stack) =
  flat_map (fun e => filepath.Separator :: e) (rev stack).
Proof.
  induction stack as [|e stack IH]; [reflexivity|].
  cbn [flat_map rev]. rewrite rev_app_distr, IH, flat_map_app.
  cbn [flat_map]. rewrite app_nil_r, rev_app_distr, rev_involutive.
  reflexivity.
Qed.

Lemma string_of_names n (names : list (list ascii)) :
  string_of_list_ascii (flat_map (fun e => filepath.Separator :: e) (n :: names)) =
  path_through (n :: names).
Proof.
  unfold path_through. revert n.
  induction names as [|n' names IH]; intros n.
  - cbn. rewrite app_nil_r. reflexivity.
  - change (flat_map (fun e => filepath.Separator :: e) (n :: n' :: names))
      with ((filepath.Separator :: n) ++
            flat_map (fun e => filepath.Separator :: e) (n' :: names)).
    rewrite string_of_list_ascii_app, IH. reflexivity.
Qed.

(** The buffer read backwards is the path through the names, first name
    first. *)
Lemma buffer_of_path stack :
  string_of_list_ascii (rev (buffer_of stack)) = path_through (rev stack).
Proof.
  destruct stack as [|e stack]; [reflexivity|].
  change (buffer_of (e :: stack))
    with (flat_map (fun e => rev e ++ [filepath.Separator]) (e :: stack)).
  rewrite rev_flat_map.
  destruct (rev (e :: stack)) as [|n names] eqn:Hrev.
  - apply (f_equal (@List.length _)) in Hrev. rewrite length_rev in Hrev.
    discriminate.
  - apply string_of_names.
Qed.

(** [Clean] makes of a rooted path the path through a list of names. *)
Lemma Clean_rooted (p : string) :
  znode_path (filepath.Clean (String "/" p)).
Proof.
  unfold znode_path, filepath.Clean. cbn [list_ascii_of_string].
  change (filepath.IsPathSeparator "/") with true. cbv iota. cbn [tl].
  destruct (clean_loop_buffer
              (S (List.length ("/"%char :: list_ascii_of_string p)))
              (list_ascii_of_string p) [] ltac:(constructor))
    as (stack & Hstack & Hloop).
  change (buffer_of []) with [filepath.Separator] in Hloop. rewrite Hloop.
  exists (rev stack). split; [apply Forall_rev, Hstack|].
  rewrite <- buffer_of_path.
  destruct (buffer_of stack) eqn:Hb; [|reflexivity].
  destruct stack as [|e stack]; [discriminate|].
  rewrite buffer_of_cons in Hb. apply (f_equal (@List.length _)) in Hb.
  rewrite length_app in Hb. destruct stack; cbn [List.length] in Hb; lia.
Qed.

Lemma Join_from_root (elem : list string) :
  znode_path (filepath.Join ("/" :: elem)).
Proof.
  cbn [filepath.Join]. change (String.eqb "/" "") with false. cbv iota.
  unfold strings.Join.
  destruct elem as [|e elem]; cbn [String.concat]; apply Clean_rooted.
Qed.

End Canonical.

(** X1.  The translation always returns the path of a znode: whatever
    the alias, the mount point and the path, [ZKPath] returns the
    separator followed by names joined with single separators, each name
    not empty, without a separator in it, and neither [.] nor [..].  So
    the wire client is never asked for a relative path, nor for one with a
    doubled or a trailing separator. *)
Theorem ZKPath_is_znode_path {W} (z : ZooHandle.t W) (path : string) :
  znode_path (ZooHandle.ZKPath z path).
Proof.
  unfold ZooHandle.ZKPath.
  destruct (filepath.Rel _ _); apply Join_from_root.
Qed.

Section Spelling.

Local Open Scope list_scope.
Local Open Scope nat_scope.

Lemma at_elem_end_app (rest tail : list ascii) :
  filepath.at_elem_end tail = true ->
  filepath.at_elem_end (rest ++ tail) = filepath.at_elem_end rest.
Proof. intros Ht. destruct rest; [exact Ht | reflexivity]. Qed.

(** An element is copied up to the separator that ends it. *)
Lemma copy_elem_app (path tail out : list ascii) :
  filepath.at_elem_end tail = true ->
  filepath.copy_elem (path ++ tail) out =
  (fst (filepath.copy_elem path out) ++ tail, snd (filepath.copy_elem path out)).
Proof.
  intros Ht. revert out. induction path as [|c rest IH]; intros out.
  - cbn [app filepath.copy_elem fst snd].
    destruct tail as [|t tail]; [reflexivity|]. cbn in Ht.
    cbn [filepath.copy_elem]. rewrite Ht. reflexivity.
  - cbn [app filepath.copy_elem].
    destruct (filepath.IsPathSeparator c); [reflexivity | apply IH].
Qed.

Lemma copy_elem_name (n out : list ascii) :
  Forall (fun c => filepath.IsPathSeparator c = false) n ->
  filepath.copy_elem n out = ([], rev n ++ out).
Proof.
  intros Hn. revert out. induction Hn as [|c n Hc _ IH]; intros out; [reflexivity|].
  cbn [filepath.copy_elem]. rewrite Hc, IH. cbn [rev].
  rewrite <- app_assoc. reflexivity.
Qed.

(** A name at the head of the path is neither a [.] nor a [..] element. *)
Lemma name_not_dot c n cs :
  node_name (c :: n) -> filepath.at_elem_end cs = true ->
  Ascii.eqb c "." && filepath.at_elem_end (n ++ cs) = false /\
  Ascii.eqb c "." &&
    match n ++ cs with
    | c' :: rest' => Ascii.eqb c' "." && filepath.at_elem_end rest'
    | [] => false
    end = false.
Proof.
  intros (_ & Hsep & Hdot & Hdotdot) Hcs.
  apply Forall_cons_1 in Hsep. destruct Hsep as [_ Hsep].
  destruct (Ascii.eqb_spec c ".") as [->|_]; [|split; reflexivity].
  cbn [andb]. destruct n as [|c' n].
  - contradiction Hdot. reflexivity.
  - apply Forall_cons_1 in Hsep. destruct Hsep as [Hc' Hsep].
    cbn [app filepath.at_elem_end]. split; [exact Hc'|].
    destruct (Ascii.eqb_spec c' ".") as [->|_]; [|reflexivity].
    cbn [andb]. destruct n as [|c'' n].
    + contradiction Hdotdot. reflexivity.
    + apply Forall_cons_1 in Hsep. destruct Hsep as [Hc'' _]. exact Hc''.
Qed.

(** On bytes that spell names the loop of [Clean] puts the names on the
    stack, one after the other. *)
Lemma clean_spells cs ns :
  spells cs ns ->
  forall fuel stack,
    Forall node_name stack -> List.length cs < fuel ->
    filepath.clean_loop fuel true cs (buffer_of stack) 1 =
    buffer_of (rev ns ++ stack).
Proof.
  induction 1 as [|cs ns _ IH|cs ns Hend _ IH|n cs ns Hn Hend _ IH];
    intros fuel stack Hstack Hfuel.
  - destruct fuel; reflexivity.
  - destruct fuel as [|fuel]; [lia|]. cbn [filepath.clean_loop].
    change (filepath.IsPathSeparator filepath.Separator) with true. cbv iota.
    apply IH; [exact Hstack | cbn [List.length] in Hfuel; lia].
  - destruct fuel as [|fuel]; [lia|]. cbn [filepath.clean_loop].
    change (filepath.IsPathSeparator ".") with false. cbv iota.
    change (Ascii.eqb "." ".") with true. rewrite Hend. cbn [andb].
    apply IH; [exact Hstack | cbn [List.length] in Hfuel; lia].
  - destruct n as [|c n]; [destruct Hn as [Hne _]; contradiction|].
    destruct fuel as [|fuel]; [lia|].
    pose proof Hn as (_ & Hsep & _).
    pose proof (name_not_dot c n cs Hn Hend) as [Hdot Hdotdot].
    apply Forall_cons_1 in Hsep. destruct Hsep as [Hc Hsep].
    cbn [app filepath.clean_loop]. rewrite Hc, Hdot, Hdotdot. cbv iota.
    cbn [andb negb orb]. rewrite orb_false_r.
    change (c :: n ++ cs) with ((c :: n) ++ cs).
    rewrite copy_elem_app by exact Hend.
    rewrite copy_elem_name by (constructor; assumption).
    cbn [fst snd app].
    assert (Hout : rev (c :: n) ++
                   (if negb (List.length (buffer_of stack) =? 1)
                    then filepath.Separator :: buffer_of stack
                    else buffer_of stack) =
                   buffer_of ((c :: n) :: stack)).
    { rewrite buffer_of_cons. f_equal.
      destruct stack as [|e stack]; [reflexivity|].
      pose proof (buffer_of_length (e :: stack) Hstack ltac:(discriminate)) as Hlen.
      destruct (Nat.eqb_spec (List.length (buffer_of (e :: stack))) 1); [lia|].
      reflexivity. }
    rewrite Hout. rewrite IH.
    + cbn [rev]. rewrite <- app_assoc. reflexivity.
    + constructor; assumption.
    + rewrite length_app in Hfuel. cbn [List.length] in Hfuel. lia.
Qed.

Lemma spells_app cs1 ns1 cs2 ns2 :
  spells cs1 ns1 -> spells cs2 ns2 -> filepath.at_elem_end cs2 = true ->
  spells (cs1 ++ cs2) (ns1 ++ ns2).
Proof.
  intros H1 H2 Hend.
  induction H1 as [|cs ns _ IH|cs ns Hcs _ IH|n cs ns Hn Hcs _ IH].
  - exact H2.
  - cbn [app]. constructor. exact IH.
  - cbn [app]. constructor; [|exact IH].
    rewrite at_elem_end_app by exact Hend. exact Hcs.
  - rewrite <- app_assoc. cbn [app]. constructor; [exact Hn| |exact IH].
    rewrite at_elem_end_app by exact Hend. exact Hcs.
Qed.

Lemma list_ascii_of_string_app (s1 s2 : string) :
  list_ascii_of_string (s1 ++ s2) =
  list_ascii_of_string s1 ++ list_ascii_of_string s2.
Proof. induction s1 as [|c s1 IH]; cbn; [reflexivity | rewrite IH; reflexivity]. Qed.

(** A relative path of names spells them. *)
Lemma spells_relative names :
  Forall node_name names -> spells (list_ascii_of_string (relative names)) names.
Proof.
  unfold relative. induction 1 as [|n names Hn Hnames IH]; [constructor|].
  cbn [List.map String.concat]. destruct names as [|n' names].
  - cbn [List.map]. rewrite list_ascii_of_string_of_list_ascii.
    rewrite <- (app_nil_r n) at 1. constructor; [exact Hn | reflexivity | constructor].
  - cbn [List.map] in *. rewrite list_ascii_of_string_app.
    rewrite list_ascii_of_string_of_list_ascii.
    constructor; [exact Hn | reflexivity|].
    cbn [list_ascii_of_string append]. 
    change (list_ascii_of_string ("/" ++ ?s)) with ("/"%char :: list_ascii_of_string s).
    constructor. exact IH.
Qed.

(** [Clean] of a rooted path that spells names is the path through them. *)
Lemma Clean_spells cs ns :
  spells cs ns ->
  filepath.Clean (String "/" (string_of_list_ascii cs)) = path_through ns.
Proof.
  intros Hs. unfold filepath.Clean. cbn [list_ascii_of_string].
  change (filepath.IsPathSeparator "/") with true. cbv iota. cbn [tl].
  rewrite list_ascii_of_string_of_list_ascii.
  change [filepath.Separator] with (buffer_of []).
  rewrite (clean_spells cs ns Hs) by (try constructor; cbn [List.length]; lia).
  rewrite app_nil_r, buffer_of_path, rev_involutive.
  destruct (buffer_of (rev ns)) eqn:Hb; [|reflexivity].
  destruct (rev ns) as [|e stack]; [discriminate|].
  rewrite buffer_of_cons in Hb. apply (f_equal (@List.length _)) in Hb.
  rewrite length_app in Hb. destruct stack; cbn [List.length] in Hb; lia.
Qed.


Lemma dotdot_app (rest tail : list ascii) :
  filepath.at_elem_end tail = true ->
  match rest ++ tail with
  | c' :: rest' => Ascii.eqb c' "." && filepath.at_elem_end rest'
  | [] => false
  end =
  match rest with
  | c' :: rest' => Ascii.eqb c' "." && filepath.at_elem_end rest'
  | [] => false
  end.
Proof.
  intros Ht. destruct rest as [|c' rest'].
  - destruct tail as [|t tail]; [reflexivity|]. cbn in Ht |- *.
    unfold filepath.IsPathSeparator in Ht. apply Ascii.eqb_eq in Ht. subst t.
    reflexivity.
  - cbn [app]. rewrite at_elem_end_app by exact Ht. reflexivity.
Qed.

(** The loop of [Clean] reads a rooted path up to a separator as it reads
    the path alone: what is on the stack by then does not depend on what
    follows. *)
Lemma clean_loop_prefix n :
  forall A stack,
    List.length A <= n -> Forall node_name stack ->
    exists stack',
      Forall node_name stack' /\
      forall tail fuel,
        filepath.at_elem_end tail = true -> List.length (A ++ tail) < fuel ->
        filepath.clean_loop fuel true (A ++ tail) (buffer_of stack) 1 =
        filepath.clean_loop fuel true tail (buffer_of stack') 1.
Proof.
  induction n as [|n IH]; intros A stack Hlen Hstack.
  { destruct A; [|cbn in Hlen; lia].
    exists stack. split; [exact Hstack | reflexivity]. }
  destruct A as [|c rest].
  { exists stack. split; [exact Hstack | reflexivity]. }
  cbn [List.length] in Hlen.
  assert (Hskip : forall rest' stack0,
            List.length rest' <= n -> Forall node_name stack0 ->
            exists stack',
              Forall node_name stack' /\
              forall tail fuel,
                filepath.at_elem_end tail = true ->
                List.length (rest' ++ tail) < fuel ->
                filepath.clean_loop fuel true (rest' ++ tail) (buffer_of stack0) 1 =
                filepath.clean_loop (S fuel) true tail (buffer_of stack') 1).
  { intros rest' stack0 Hl Hs.
    destruct (IH rest' stack0 Hl Hs) as (stack' & Hs' & Hrun).
    exists stack'. split; [exact Hs'|]. intros tail fuel Ht Hf.
    rewrite (Hrun tail fuel Ht Hf). apply clean_loop_fuel.
    - rewrite length_app in Hf. lia.
    - rewrite length_app in Hf. lia. }
  destruct (filepath.IsPathSeparator c) eqn:Hc.
  { destruct (Hskip rest stack ltac:(lia) Hstack) as (stack' & Hs' & Hrun).
    exists stack'. split; [exact Hs'|]. intros tail fuel Ht Hf.
    destruct fuel as [|fuel]; [lia|].
    cbn [app filepath.clean_loop]. rewrite Hc.
    apply Hrun; [exact Ht | cbn [app List.length] in Hf; lia]. }
  destruct (Ascii.eqb c "." && filepath.at_elem_end rest) eqn:Hdot.
  { destruct (Hskip rest stack ltac:(lia) Hstack) as (stack' & Hs' & Hrun).
    exists stack'. split; [exact Hs'|]. intros tail fuel Ht Hf.
    destruct fuel as [|fuel]; [lia|].
    cbn [app filepath.clean_loop]. rewrite Hc.
    rewrite at_elem_end_app by exact Ht. rewrite Hdot.
    apply Hrun; [exact Ht | cbn [app List.length] in Hf; lia]. }
  destruct (Ascii.eqb c "." &&
            match rest with
            | c' :: rest' => Ascii.eqb c' "." && filepath.at_elem_end rest'
            | [] => false
            end) eqn:Hdotdot.
  { destruct rest as [|c' rest'];
      [rewrite andb_false_r in Hdotdot; discriminate|].
    cbn [List.length] in Hlen.
    assert (Hpop : exists stack0,
              Forall node_name stack0 /\
              (if 1 <? List.length (buffer_of stack)
               then filepath.backtrack (buffer_of stack) 1
               else buffer_of stack) = buffer_of stack0).
    { destruct stack as [|e stack].
      - exists []. split; [constructor | reflexivity].
      - apply Forall_cons_1 in Hstack. destruct Hstack as [He Hstack].
        exists stack. split; [exact Hstack|].
        pose proof (buffer_of_length (e :: stack)
                      (Forall_cons_2 _ _ _ He Hstack) ltac:(discriminate)) as Hl.
        apply Nat.ltb_lt in Hl. rewrite Hl. apply backtrack_buffer, He. }
    destruct Hpop as (stack0 & Hs0 & Hpop).
    destruct (Hskip rest' stack0 ltac:(lia) Hs0) as (stack' & Hs' & Hrun).
    exists stack'. split; [exact Hs'|]. intros tail fuel Ht Hf.
    destruct fuel as [|fuel]; [lia|].
    rewrite <- (Hrun tail fuel Ht) by (cbn [app List.length] in Hf; lia).
    rewrite <- Hpop.
    change ((c :: c' :: rest') ++ tail) with (c :: (c' :: rest') ++ tail).
    cbn [filepath.clean_loop]. rewrite Hc.
    rewrite at_elem_end_app by exact Ht. rewrite Hdot.
    rewrite dotdot_app by exact Ht. rewrite Hdotdot.
    cbn [app tl negb].
    destruct (1 <? List.length (buffer_of stack)); reflexivity. }
  pose proof (copied_name c rest Hc Hdot Hdotdot) as Hname.
  pose proof (copy_elem_progress c rest
                (if negb (List.length (buffer_of stack) =? 1)
                 then filepath.Separator :: buffer_of stack
                 else buffer_of stack) Hc) as Hshort.
  pose proof (copy_elem_head (c :: rest)
                (if negb (List.length (buffer_of stack) =? 1)
                 then filepath.Separator :: buffer_of stack
                 else buffer_of stack)) as Hcopy.
  destruct (filepath.copy_elem (c :: rest) _) as [r out2] eqn:Hce.
  cbn [fst snd] in Hshort, Hcopy.
  assert (Hout : out2 = buffer_of (head_elem (c :: rest) :: stack)).
  { rewrite Hcopy, buffer_of_cons. f_equal.
    destruct stack as [|e stack]; [reflexivity|].
    pose proof (buffer_of_length (e :: stack) Hstack ltac:(discriminate)) as Hl.
    destruct (Nat.eqb_spec (List.length (buffer_of (e :: stack))) 1); [lia|].
    reflexivity. }
  destruct (Hskip r (head_elem (c :: rest) :: stack) ltac:(lia)
              ltac:(constructor; assumption)) as (stack' & Hs' & Hrun).
  exists stack'. split; [exact Hs'|]. intros tail fuel Ht Hf.
  destruct fuel as [|fuel]; [lia|].
  cbn [filepath.clean_loop].
  change ((c :: rest) ++ tail) with (c :: rest ++ tail).
  cbv iota. rewrite Hc.
  rewrite at_elem_end_app by exact Ht. rewrite Hdot.
  rewrite dotdot_app by exact Ht. rewrite Hdotdot.
  cbn [andb negb orb]. rewrite orb_false_r.
  change (c :: rest ++ tail) with ((c :: rest) ++ tail).
  rewrite copy_elem_app by exact Ht. rewrite Hce. cbn [fst snd].
  rewrite Hout. apply Hrun; [exact Ht|].
  cbn [app List.length] in Hf. rewrite length_app in Hf |- *. lia.
Qed.


Lemma Clean_spells_string (s : string) ns :
  spells (list_ascii_of_string s) ns ->
  filepath.Clean (String "/" s) = path_through ns.
Proof.
  intros Hs. rewrite <- (string_of_list_ascii_of_string s). apply Clean_spells, Hs.
Qed.

(** [Clean] leaves the path through names as it is. *)
Lemma Clean_path_through ns :
  Forall node_name ns -> filepath.Clean (path_through ns) = path_through ns.
Proof. intros Hns. apply Clean_spells_string, spells_relative, Hns. Qed.

(** Joining the path through [m] and a relative path of names gives the
    path through them all. *)
Lemma Join_path_through m names :
  Forall node_name m -> Forall node_name names ->
  filepath.Join [path_through m; relative names] = path_through (m ++ names).
Proof.
  intros Hm Hnames. cbn [filepath.Join].
  change (String.eqb (path_through m) "") with false. cbv iota.
  unfold strings.Join. cbn [String.concat].
  change (path_through m ++ "/" ++ relative names)%string
    with (String "/" (relative m ++ String "/" (relative names))).
  apply Clean_spells_string. rewrite list_ascii_of_string_app.
  apply spells_app; [apply spells_relative, Hm | | reflexivity].
  cbn [list_ascii_of_string]. constructor. apply spells_relative, Hnames.
Qed.

(** What stands before a separator in a rooted path gives the first
    names of the cleaned path, whatever follows. *)
Lemma Clean_prefix (A : list ascii) :
  exists alias,
    Forall node_name alias /\
    forall tail ns,
      spells tail ns -> filepath.at_elem_end tail = true ->
      filepath.Clean (String "/" (string_of_list_ascii (A ++ tail))) =
      path_through (alias ++ ns).
Proof.
  destruct (clean_loop_prefix (List.length A) A [] (Nat.le_refl _) ltac:(constructor))
    as (stack & Hstack & Hrun).
  exists (rev stack). split; [apply Forall_rev, Hstack|].
  intros tail ns Hs Ht. unfold filepath.Clean. cbn [list_ascii_of_string].
  change (filepath.IsPathSeparator "/") with true. cbv iota. cbn [tl].
  rewrite list_ascii_of_string_of_list_ascii.
  change [filepath.Separator] with (buffer_of []).
  rewrite Hrun by (try exact Ht; cbn [List.length]; lia).
  rewrite (clean_spells tail ns Hs)
    by (try exact Hstack; cbn [List.length]; rewrite length_app; lia).
  rewrite buffer_of_path, rev_app_distr, rev_involutive.
  destruct (buffer_of (rev ns ++ stack)) eqn:Hb; [|reflexivity].
  destruct (rev ns ++ stack) as [|e st]; [discriminate|].
  rewrite buffer_of_cons in Hb. apply (f_equal (@List.length _)) in Hb.
  rewrite length_app in Hb. destruct st; cbn [List.length] in Hb; lia.
Qed.

(** The alias and a relative path joined at the root: the names of the
    alias, then the names of the path; [.] adds none. *)
Lemma Join_alias (root : string) :
  exists alias,
    Forall node_name alias /\
    filepath.Join ["/"; root; "."] = path_through alias /\
    forall names,
      Forall node_name names ->
      filepath.Join ["/"; root; relative names] = path_through (alias ++ names).
Proof.
  destruct (Clean_prefix ("/"%char :: list_ascii_of_string root))
    as (alias & Halias & Hclean).
  assert (Hjoin : forall rel ns,
            spells (list_ascii_of_string rel) ns ->
            filepath.Join ["/"; root; rel] = path_through (alias ++ ns)).
  { intros rel ns Hs. cbn [filepath.Join].
    change (String.eqb "/" "") with false. cbv iota.
    unfold strings.Join. cbn [String.concat].
    change ("/" ++ "/" ++ root ++ "/" ++ rel)%string
      with (String "/" (String "/" (root ++ String "/" rel))).
    rewrite <- (string_of_list_ascii_of_string (String "/" (root ++ String "/" rel))).
    cbn [list_ascii_of_string]. rewrite list_ascii_of_string_app.
    cbn [list_ascii_of_string].
    change ("/"%char :: list_ascii_of_string root ++ "/"%char :: list_ascii_of_string rel)
      with (("/"%char :: list_ascii_of_string root) ++
            "/"%char :: list_ascii_of_string rel).
    apply Hclean; [|reflexivity]. constructor. exact Hs. }
  exists alias. split; [exact Halias|]. split.
  - rewrite <- (app_nil_r alias). apply Hjoin.
    cbn [list_ascii_of_string]. constructor; [reflexivity | constructor].
  - intros names Hnames. apply Hjoin, spells_relative, Hnames.
Qed.

End Spelling.

Section Relative.

Local Open Scope nat_scope.

Lemma append_assoc (s1 s2 s3 : string) : ((s1 ++ s2) ++ s3 = s1 ++ (s2 ++ s3))%string.
Proof. induction s1 as [|c s1 IH]; cbn; [reflexivity | rewrite IH; reflexivity]. Qed.

Lemma append_nil_r (s : string) : (s ++ "" = s)%string.
Proof. induction s as [|c s IH]; cbn; [reflexivity | rewrite IH; reflexivity]. Qed.

Lemma length_string_of_list_ascii (e : list ascii) :
  String.length (string_of_list_ascii e) = List.length e.
Proof. induction e as [|c e IH]; cbn; [reflexivity | rewrite IH; reflexivity]. Qed.

Lemma get_app_r (pre s : string) (k : nat) :
  String.get (String.length pre + k) (pre ++ s) = String.get k s.
Proof. induction pre as [|c pre IH]; cbn; [reflexivity | exact IH]. Qed.

Lemma substring_app_r (pre s : string) (i n : nat) :
  substring (String.length pre + i) n (pre ++ s) = substring i n s.
Proof. induction pre as [|c pre IH]; cbn; [reflexivity | exact IH]. Qed.

Lemma substring_prefix (e rest : string) :
  substring 0 (String.length e) (e ++ rest) = e.
Proof.
  induction e as [|c e IH]; cbn.
  - destruct rest; reflexivity.
  - rewrite IH. reflexivity.
Qed.

Lemma substring_none (s : string) (i : nat) : substring i 0 s = "".
Proof.
  revert i. induction s as [|c s IH]; intros i; destruct i; cbn;
    try reflexivity. apply IH.
Qed.

(** The scan of an element stops at its end. *)
Lemma scan_elem_at (e : list ascii) :
  forall (pre rest : string) (fuel : nat),
    Forall (fun c => filepath.IsPathSeparator c = false) e ->
    rest = "" \/ filepath.starts_with_sep rest = true ->
    List.length e <= fuel ->
    filepath.scan_elem fuel (pre ++ string_of_list_ascii e ++ rest)
      (String.length pre) = String.length pre + List.length e.
Proof.
  induction e as [|c e IH]; intros pre rest fuel He Hrest Hfuel.
  - cbn [string_of_list_ascii append List.length]. rewrite Nat.add_0_r.
    destruct fuel as [|fuel]; [reflexivity|]. cbn [filepath.scan_elem].
    rewrite <- (Nat.add_0_r (String.length pre)) at 1. rewrite get_app_r.
    destruct Hrest as [->|Hrest]; [reflexivity|].
    destruct rest as [|r rest]; [discriminate|]. cbn in Hrest |- *.
    rewrite Hrest. reflexivity.
  - apply Forall_cons_1 in He. destruct He as [Hc He].
    cbn [List.length] in Hfuel. destruct fuel as [|fuel]; [lia|].
    cbn [filepath.scan_elem string_of_list_ascii append].
    rewrite <- (Nat.add_0_r (String.length pre)) at 1. rewrite get_app_r.
    cbn [String.get]. rewrite Hc.
    replace (pre ++ String c (string_of_list_ascii e ++ rest))%string
      with ((pre ++ String c "") ++ string_of_list_ascii e ++ rest)%string
      by (rewrite append_assoc; reflexivity).
    replace (S (String.length pre)) with (String.length (pre ++ String c ""))
      by (rewrite length_append; cbn; lia).
    rewrite IH by (try assumption; lia).
    rewrite length_append. cbn [String.length List.length]. lia.
Qed.

(** One turn of the loop of [Rel] over an element that base and target
    share. *)
Lemma rel_loop_step (fuel : nat) (pre : string) (e : list ascii)
    (restb restt : string) (b0 t0 : nat) :
  Forall (fun c => filepath.IsPathSeparator c = false) e ->
  e <> [] \/ restb <> "" ->
  restb = "" \/ filepath.starts_with_sep restb = true ->
  filepath.starts_with_sep restt = true ->
  let base := (pre ++ string_of_list_ascii e ++ restb)%string in
  let targ := (pre ++ string_of_list_ascii e ++ restt)%string in
  let i := String.length pre + List.length e in
  let bi := if String.eqb restb "" then i else S i in
  filepath.rel_loop (S fuel) base targ b0 (String.length pre) t0 (String.length pre) =
  filepath.rel_loop fuel base targ bi bi (S i) (S i).
Proof.
  intros He Hne Hrestb Hrestt base targ i bi.
  assert (Hbl : String.length base = i + String.length restb).
  { unfold base, i. rewrite !length_append, length_string_of_list_ascii. lia. }
  assert (Htl : String.length targ = i + String.length restt).
  { unfold targ, i. rewrite !length_append, length_string_of_list_ascii. lia. }
  assert (Hrt : 0 < String.length restt).
  { destruct restt; [discriminate | cbn; lia]. }
  assert (Hlt : String.length pre < String.length base).
  { rewrite Hbl. unfold i. destruct Hne as [Hne|Hne].
    - destruct e; [contradiction | cbn [List.length]; lia].
    - destruct restb; [contradiction | cbn [String.length]; lia]. }
  cbn [filepath.rel_loop].
  replace (String.length pre <? String.length base) with true
    by (symmetry; apply Nat.ltb_lt; lia).
  replace (String.length pre <? String.length targ) with true
    by (symmetry; apply Nat.ltb_lt; lia).
  cbn [andb].
  assert (Hsb : filepath.scan_elem (String.length base) base (String.length pre) = i).
  { rewrite Hbl. unfold base, i. apply scan_elem_at; [assumption | assumption | lia]. }
  assert (Hst : filepath.scan_elem (String.length targ) targ (String.length pre) = i).
  { rewrite Htl. unfold targ, i.
    apply scan_elem_at; [assumption | right; assumption | lia]. }
  rewrite Hsb, Hst.
  assert (Hslice : forall rest,
            filepath.slice (pre ++ string_of_list_ascii e ++ rest)
              (String.length pre) i = string_of_list_ascii e).
  { intros rest. unfold filepath.slice, i.
    replace (String.length pre + List.length e - String.length pre)
      with (String.length (string_of_list_ascii e))
      by (rewrite length_string_of_list_ascii; lia).
    rewrite <- (Nat.add_0_r (String.length pre)) at 1.
    rewrite substring_app_r. apply substring_prefix. }
  unfold base at 1, targ at 1. rewrite !Hslice, String.eqb_refl. cbn [negb].
  fold base targ.
  replace (i <? String.length targ) with true
    by (symmetry; apply Nat.ltb_lt; lia).
  assert (Hbi : (if i <? String.length base then S i else i) = bi).
  { unfold bi. destruct restb as [|r restb]; cbn [String.eqb].
    - replace (i <? String.length base) with false; [reflexivity|].
      symmetry. apply Nat.ltb_ge. rewrite Hbl. cbn. lia.
    - replace (i <? String.length base) with true; [reflexivity|].
      symmetry. apply Nat.ltb_lt. rewrite Hbl. cbn. lia. }
  rewrite Hbi. reflexivity.
Qed.


Lemma rel_loop_turn (fuel : nat) (base targ pre : string) (e : list ascii)
    (restb restt : string) (b0 t0 : nat) :
  base = (pre ++ string_of_list_ascii e ++ restb)%string ->
  targ = (pre ++ string_of_list_ascii e ++ restt)%string ->
  Forall (fun c => filepath.IsPathSeparator c = false) e ->
  e <> [] \/ restb <> "" ->
  restb = "" \/ filepath.starts_with_sep restb = true ->
  filepath.starts_with_sep restt = true ->
  filepath.rel_loop (S fuel) base targ b0 (String.length pre) t0 (String.length pre) =
  filepath.rel_loop fuel base targ
    (if String.eqb restb "" then String.length pre + List.length e
     else S (String.length pre + List.length e))
    (if String.eqb restb "" then String.length pre + List.length e
     else S (String.length pre + List.length e))
    (S (String.length pre + List.length e))
    (S (String.length pre + List.length e)).
Proof. intros -> ->. apply rel_loop_step. Qed.

Lemma rel_loop_end (fuel : nat) (base targ : string) (t : nat) :
  filepath.rel_loop fuel base targ (String.length base) (String.length base) t t =
  (String.length base, String.length base, t, t).
Proof.
  destruct fuel as [|fuel]; [reflexivity|]. cbn [filepath.rel_loop].
  rewrite Nat.ltb_irrefl. reflexivity.
Qed.

Lemma relative_app m names :
  m <> [] -> names <> [] ->
  relative (m ++ names) = (relative m ++ String "/" (relative names))%string.
Proof.
  intros Hm Hnames. unfold relative.
  induction m as [|n m IH]; [contradiction|].
  destruct m as [|n' m].
  - destruct names as [|n1 names]; [contradiction|]. reflexivity.
  - cbn [app List.map String.concat] in *.
    rewrite IH by discriminate. rewrite !append_assoc. reflexivity.
Qed.

(** The loop of [Rel] passes the names that base and target share and
    stops at the end of the base. *)
Lemma rel_loop_names ms :
  Forall node_name ms -> ms <> [] ->
  forall (pre R base targ : string) (fuel b0 t0 : nat),
    base = (pre ++ relative ms)%string ->
    targ = (pre ++ relative ms ++ String "/" R)%string ->
    List.length ms <= fuel ->
    filepath.rel_loop fuel base targ b0 (String.length pre) t0 (String.length pre) =
    (String.length base, String.length base,
     S (String.length base), S (String.length base)).
Proof.
  induction 1 as [|n ms Hn Hms IH]; intros Hnil; [contradiction|].
  clear Hnil. intros pre R base targ fuel b0 t0 Hbase Htarg Hfuel.
  cbn [List.length] in Hfuel. destruct fuel as [|fuel]; [lia|].
  destruct Hn as (Hne & Hsep & _).
  destruct ms as [|n' ms].
  - change (relative [n]) with (string_of_list_ascii n) in Hbase, Htarg.
    rewrite (rel_loop_turn fuel base targ pre n "" (String "/" R));
      [ | rewrite append_nil_r; exact Hbase | exact Htarg | exact Hsep
        | left; exact Hne | left; reflexivity | reflexivity ].
    cbn [String.eqb].
    assert (Hbl : String.length pre + List.length n = String.length base).
    { rewrite Hbase, length_append, length_string_of_list_ascii. reflexivity. }
    rewrite Hbl. apply rel_loop_end.
  - assert (Hrel : relative (n :: n' :: ms) =
                   (string_of_list_ascii n ++ String "/" (relative (n' :: ms)))%string)
      by reflexivity.
    rewrite Hrel in Hbase, Htarg.
    rewrite (rel_loop_turn fuel base targ pre n
               (String "/" (relative (n' :: ms)))
               (String "/" (relative (n' :: ms) ++ String "/" R)));
      [ | exact Hbase | rewrite Htarg, !append_assoc; reflexivity | exact Hsep
        | left; exact Hne | right; reflexivity | reflexivity ].
    cbn [String.eqb].
    replace (S (String.length pre + List.length n))
      with (String.length (pre ++ string_of_list_ascii n ++ "/"))
      by (rewrite !length_append, length_string_of_list_ascii; cbn; lia).
    apply (IH ltac:(discriminate) _ R).
    + rewrite Hbase, !append_assoc. reflexivity.
    + rewrite Htarg, !append_assoc. reflexivity.
    + cbn [List.length] in *. lia.
Qed.

Lemma relative_length ns :
  Forall node_name ns -> List.length ns <= String.length (relative ns).
Proof.
  unfold relative. induction 1 as [|n ns Hn _ IH]; [cbn; lia|].
  destruct Hn as (Hne & _).
  assert (0 < String.length (string_of_list_ascii n)).
  { rewrite length_string_of_list_ascii. destruct n; [contradiction | cbn; lia]. }
  destruct ns as [|n' ns]; cbn [List.map String.concat List.length] in *; [lia|].
  rewrite !length_append. cbn [String.length]. lia.
Qed.

(** From the path through [m] to a path below it, [Rel] gives the names
    that lead there. *)
Lemma Rel_path_through m names :
  Forall node_name m -> Forall node_name names ->
  filepath.Rel (path_through m) (path_through (m ++ names)) =
  Ok (match names with
      | [] => "."
      | _ => relative names
      end).
Proof.
  intros Hm Hnames. unfold filepath.Rel.
  rewrite !Clean_path_through by (try apply Forall_app_2; assumption).
  destruct names as [|n1 names'] eqn:Hnm.
  { rewrite app_nil_r, String.eqb_refl. reflexivity. }
  rewrite <- Hnm in *. assert (Hne : names <> []) by (subst; discriminate).
  clear Hnm n1 names'.
  pose proof (relative_length names Hnames) as HR.
  assert (HR0 : 0 < String.length (relative names)).
  { destruct names; [contradiction | cbn [List.length] in HR; lia]. }
  assert (Htarg : path_through (m ++ names) =
                  match m with
                  | [] => String "/" (relative names)
                  | _ => (path_through m ++ String "/" (relative names))%string
                  end).
  { destruct m as [|n m]; [reflexivity|].
    unfold path_through. fold (relative ((n :: m) ++ names)).
    rewrite relative_app by (try discriminate; assumption). reflexivity. }
  assert (Hneq : String.eqb (path_through (m ++ names)) (path_through m) = false).
  { apply String.eqb_neq. intros Heq.
    apply (f_equal String.length) in Heq. rewrite Htarg in Heq.
    destruct m as [|n m].
    - cbn [path_through relative List.map String.concat String.length] in Heq. lia.
    - rewrite length_append in Heq. cbn [String.length] in Heq. lia. }
  rewrite Hneq.
  change (String.eqb (path_through m) ".") with false. cbv iota.
  change (filepath.starts_with_sep (path_through m)) with true.
  change (filepath.starts_with_sep (path_through (m ++ names))) with true.
  cbn [Bool.eqb negb].
  assert (Hloop : filepath.rel_loop (S (String.length (path_through m)))
                    (path_through m) (path_through (m ++ names)) 0 0 0 0 =
                  (String.length (path_through m), String.length (path_through m),
                   match m with
                   | [] => 1
                   | _ => S (String.length (path_through m))
                   end,
                   match m with
                   | [] => 1
                   | _ => S (String.length (path_through m))
                   end)).
  { destruct m as [|n m].
    - rewrite (rel_loop_turn _ (path_through []) (path_through ([] ++ names)) "" []
                 "/" (String "/" (relative names)));
        [ | reflexivity | reflexivity | constructor | right; discriminate
          | right; reflexivity | reflexivity ].
      cbn [String.eqb String.length List.length plus].
      apply (rel_loop_end _ (path_through []) _ 1).
    - rewrite (rel_loop_turn _ (path_through (n :: m))
                 (path_through ((n :: m) ++ names)) "" []
                 (String "/" (relative (n :: m)))
                 (String "/" (relative (n :: m) ++ String "/" (relative names))));
        [ | reflexivity | rewrite Htarg; reflexivity | constructor
          | right; discriminate | right; reflexivity | reflexivity ].
      cbn [String.eqb String.length List.length plus].
      apply (rel_loop_names (n :: m) Hm ltac:(discriminate) "/" (relative names)
               _ _ _ 1 1).
      + reflexivity.
      + rewrite Htarg. reflexivity.
      + pose proof (relative_length (n :: m) Hm).
        change (path_through (n :: m)) with (String "/" (relative (n :: m))).
        cbn [String.length]. lia. }
  rewrite Hloop. unfold filepath.slice. rewrite Nat.sub_diag, substring_none.
  change (String.eqb "" "..") with false. cbv iota.
  rewrite Nat.eqb_refl. cbn [negb]. f_equal.
  rewrite Htarg. destruct m as [|n m].
  - cbn [String.length substring Nat.sub]. rewrite Nat.sub_0_r. apply substring_all.
  - rewrite length_append. cbn [String.length].
    replace (String.length (path_through (n :: m)) + S (String.length (relative names)) -
             S (String.length (path_through (n :: m))))
      with (String.length (relative names)) by lia.
    replace (path_through (n :: m) ++ String "/" (relative names))%string
      with ((path_through (n :: m) ++ "/") ++ relative names)%string
      by (rewrite append_assoc; reflexivity).
    replace (S (String.length (path_through (n :: m))))
      with (String.length (path_through (n :: m) ++ "/"))
      by (rewrite length_append; cbn; lia).
    apply substring_after.
Qed.

End Relative.

(** X22.  Below the mount point the translation keeps to the alias: when
    the mount point is the path of names from the root, there are names
    [alias], the same for every path, such that a relative path of names
    is translated to the path through [alias] and then those names. *)
Theorem ZKPath_under_alias {W} (z : ZooHandle.t W) (m : list (list ascii))
    (Hm : Forall node_name m)
    (Hmount : ZooHandle.FuseMount z = path_through m) :
  exists alias,
    Forall node_name alias /\
    forall names,
      Forall node_name names ->
      ZooHandle.ZKPath z (relative names) = path_through (alias ++ names)%list.
Proof.
  destruct (Join_alias (ZooHandle.ZKRoot z)) as (alias & Halias & Hdot & Hjoin).
  exists alias. split; [exact Halias|]. intros names Hnames.
  unfold ZooHandle.ZKPath. rewrite Hmount.
  rewrite (Join_path_through m names Hm Hnames).
  rewrite (Rel_path_through m names Hm Hnames).
  destruct names as [|n names].
  - rewrite app_nil_r. exact Hdot.
  - apply Hjoin, Hnames.
Qed.

Lemma ZKPath_under_alias_witness :
  exists alias,
    Forall node_name alias /\
    forall names,
      Forall node_name names ->
      ZooHandle.ZKPath (test_handle "/chroot") (relative names) =
      path_through (alias ++ names)%list.
Proof.
  apply (ZKPath_under_alias (test_handle "/chroot")
           [list_ascii_of_string "mnt"; list_ascii_of_string "fuse"]).
  - repeat first [discriminate | constructor].
  - reflexivity.
Defined.

(* ===================================================================== *)
(** * File handles: [Read] and [Write]                                     *)
(* ===================================================================== *)

Lemma len_nonneg {A} (l : list A) : 0 <= len l.
Proof. unfold len. lia. Qed.

Lemma to_int64_small (x : Z) : - 2 ^ 63 <= x <= max_int64 -> to_int64 x = x.
Proof.
  unfold to_int64, max_int64. intros H.
  rewrite Z.mod_small by lia. lia.
Qed.

Lemma to_uint64_small (x : Z) : 0 <= x < 2 ^ 64 -> to_uint64 x = x.
Proof. unfold to_uint64. intros H. apply Z.mod_small; exact H. Qed.

Lemma to_uint32_small (x : Z) : 0 <= x < 2 ^ 32 -> to_uint32 x = x.
Proof. unfold to_uint32. intros H. apply Z.mod_small; exact H. Qed.

Lemma slice_bytes_ok (data : list byte) (lo hi : Z) :
  0 <= lo <= hi -> hi <= len data ->
  slice_bytes data lo hi =
  Returned (firstn (Z.to_nat (hi - lo)) (skipn (Z.to_nat lo) data)).
Proof.
  intros [Hlo Hhi] Hlen. unfold slice_bytes.
  destruct (Z.leb_spec 0 lo); [|lia].
  destruct (Z.leb_spec lo hi); [|lia].
  destruct (Z.leb_spec hi (len data)); [|lia].
  reflexivity.
Qed.

Lemma slice_bytes_length (data : list byte) (lo hi : Z) (bytes : list byte) :
  slice_bytes data lo hi = Returned bytes -> len bytes = hi - lo.
Proof.
  unfold slice_bytes.
  destruct (Z.leb_spec 0 lo); [|discriminate].
  destruct (Z.leb_spec lo hi); [|discriminate].
  destruct (Z.leb_spec hi (len data)); [|discriminate].
  cbn [andb]. intros [= <-]. unfold len in *.
  rewrite length_firstn, length_skipn. lia.
Qed.

Lemma slice_bytes_backwards (data : list byte) (lo hi : Z) :
  hi < lo -> slice_bytes data lo hi = Panicked.
Proof.
  intros H. unfold slice_bytes.
  destruct (Z.leb_spec lo hi); [lia|].
  rewrite andb_false_r. reflexivity.
Qed.

Section FileHandle.

Context {W : Type}.
Implicit Types (f : FuseFile.t W) (buf content : list byte) (off : Z).

(** [Read] has one status, [fuse.OK]: when it comes back at all. *)
Lemma Read_status_OK f buf off bytes st :
  FuseFile.Read f buf off = Returned (bytes, st) -> st = fuse.OK.
Proof.
  unfold FuseFile.Read.
  destruct (slice_bytes _ _ _); [intros [= _ <-]; reflexivity | discriminate].
Qed.

(** C1, amended.  With a snapshot and a buffer that fit together into
    the address space: an offset [0 <= off <= len(s)] is served with
    exactly the bytes [s[off .. min(off+len(buf), len(s))]] and the status
    OK; an offset beyond [len(s)] makes the slice expression panic, and
    no status at all is returned. *)
Theorem Read_serves_or_panics f buf off
    (Hfit : len (FuseFile.data f) + len buf <= max_int64) :
  (0 <= off <= len (FuseFile.data f) ->
   FuseFile.Read f buf off =
   Returned (firstn (Z.to_nat (Z.min (off + len buf) (len (FuseFile.data f)) - off))
               (skipn (Z.to_nat off) (FuseFile.data f)),
             fuse.OK)) /\
  (len (FuseFile.data f) < off -> FuseFile.Read f buf off = Panicked).
Proof.
  pose proof (len_nonneg buf) as Hbuf.
  pose proof (len_nonneg (FuseFile.data f)) as Hdata.
  split; intros Hoff; unfold FuseFile.Read.
  - rewrite to_int64_small by (unfold max_int64 in *; lia).
    destruct (Z.gtb_spec (off + len buf) (len (FuseFile.data f))) as [Hgt|Hle].
    + rewrite slice_bytes_ok by lia.
      rewrite Z.min_r by lia. reflexivity.
    + rewrite slice_bytes_ok by lia.
      rewrite Z.min_l by lia. reflexivity.
  - destruct (Z.gtb_spec (to_int64 (off + len buf)) (len (FuseFile.data f)));
      rewrite slice_bytes_backwards by lia; reflexivity.
Qed.

(** The number of bytes a served read returns. *)
Lemma Read_length f buf off bytes st :
  len (FuseFile.data f) + len buf <= max_int64 ->
  0 <= off <= len (FuseFile.data f) ->
  FuseFile.Read f buf off = Returned (bytes, st) ->
  len bytes = Z.min (len buf) (len (FuseFile.data f) - off).
Proof.
  intros Hfit Hoff. unfold FuseFile.Read.
  pose proof (len_nonneg buf) as Hbuf.
  rewrite to_int64_small by (unfold max_int64 in *; lia).
  destruct (slice_bytes _ _ _) as [bs|] eqn:Hs; [|discriminate].
  intros [= <- _]. apply slice_bytes_length in Hs. rewrite Hs.
  destruct (Z.gtb_spec (off + len buf) (len (FuseFile.data f))); lia.
Qed.

End FileHandle.

(** The first assertion of [TestRead]: reading at the end is served. *)
Example TestRead_at_end :
  FuseFile.Read test_file [] 3 = Returned ([], fuse.OK).
Proof. reflexivity. Qed.

(** C1 at the input of [TestRead]: with three bytes of content, the read
    at offset 4 panics; it is not answered with EINVAL. *)
Lemma Read_beyond_end_panics :
  FuseFile.Read test_file [] 4 = Panicked /\
  forall bytes, FuseFile.Read test_file [] 4 <> Returned (bytes, fuse.EINVAL).
Proof. split; [reflexivity | intros bytes; discriminate]. Qed.

Lemma Read_serves_or_panics_witness :
  FuseFile.Read test_file [0; 0] 1 = Returned ([0; 0], fuse.OK) /\
  FuseFile.Read test_file [0; 0] 4 = Panicked.
Proof.
  assert (Hfit : len (FuseFile.data test_file) + len [0; 0] <= max_int64)
    by (vm_compute; discriminate).
  split.
  - apply (proj1 (Read_serves_or_panics test_file [0; 0] 1 Hfit)).
    vm_compute. split; discriminate.
  - apply (proj2 (Read_serves_or_panics test_file [0; 0] 4 Hfit)).
    vm_compute. reflexivity.
Defined.

Section WriteThrough.

Context {W : Type}.
Variable zh : Zoohandler W.

Lemma len_zero_nil (content : list byte) : len content = 0 <-> content = [].
Proof.
  unfold len. destruct content; cbn [List.length]; split; intros H;
    try reflexivity; try discriminate; lia.
Qed.

(** C9.  A write of no content succeeds with zero bytes and reaches the
    gateway with no call.  Any other write makes the one call
    [Set(path, content, -1)] with the whole content, whatever the offset:
    when the gateway fails, zero bytes and EIO come back and the handle is
    as before; when it succeeds, the size of the handle becomes the length
    the store reports, nothing else of the handle changes, and that length
    is returned. *)
Theorem Write_through data attr path content off w log :
  let f := handle_on zh data attr path in
  (content = [] ->
   FuseFile.Write f content off (w, log) = ((0, fuse.OK), f, (w, log))) /\
  (content <> [] ->
   forall r w', Zoohandler.Set_ zh path content (-1) w = (r, w') ->
   let log' := record log (CallSet path content (-1)) in
   match r with
   | Err e =>
       FuseFile.Write f content off (w, log) = ((0, fuse.EIO), f, (w', log'))
   | Ok stat =>
       0 <= zk.DataLength stat < 2 ^ 31 ->
       FuseFile.Write f content off (w, log) =
       ((zk.DataLength stat, fuse.OK),
        handle_on zh data
          {| fuse.Mode := fuse.Mode attr;
             fuse.Size := zk.DataLength stat;
             fuse.Atime := fuse.Atime attr;
             fuse.Mtime := fuse.Mtime attr;
             fuse.Ctime := fuse.Ctime attr;
             fuse.owner := fuse.owner attr |}
          path,
        (w', log'))
   end).
Proof.
  intros f. split.
  - intros ->. reflexivity.
  - intros Hne r w' Hset log'. unfold FuseFile.Write.
    destruct (Z.eqb_spec (len content) 0) as [H0|_].
    { apply len_zero_nil in H0. contradiction. }
    cbn [f handle_on FuseFile.zh FuseFile.path recording Zoohandler.Set_ fst snd].
    rewrite Hset. destruct r as [stat|e]; [|reflexivity].
    intros Hlen.
    rewrite to_uint32_small, to_uint64_small by lia. reflexivity.
Qed.

(** The offset plays no part in a write. *)
Lemma Write_ignores_offset (f : FuseFile.t W) content off off' w :
  FuseFile.Write f content off w = FuseFile.Write f content off' w.
Proof. reflexivity. Qed.

End WriteThrough.

Lemma Write_through_witness :
  let f := handle_on (scripted flat_store) [] FuseFS.zero_Attr "mock/path" in
  FuseFile.Write f [] 7 (tt, []) = ((0, fuse.OK), f, (tt, [])) /\
  FuseFile.Write f [0; 0; 0] 7 (tt, []) =
  ((3, fuse.OK),
   handle_on (scripted flat_store) []
     {| fuse.Mode := 0; fuse.Size := 3; fuse.Atime := 0; fuse.Mtime := 0;
        fuse.Ctime := 0; fuse.owner := {| fuse.Uid := 0; fuse.Gid := 0 |} |}
     "mock/path",
   (tt, [CallSet "mock/path" [0; 0; 0] (-1)])).
Proof.
  intros f. split.
  - apply (proj1 (Write_through (scripted flat_store) [] FuseFS.zero_Attr
                    "mock/path" [] 7 tt [])).
    reflexivity.
  - apply (proj2 (Write_through (scripted flat_store) [] FuseFS.zero_Attr
                    "mock/path" [0; 0; 0] 7 tt [])
             ltac:(discriminate) (Ok (leaf_Stat 3)) tt eq_refl).
    vm_compute. split; [discriminate | reflexivity].
Defined.

(** [TestWrite]: three bytes written, three reported, status OK. *)
Example TestWrite :
  fst (fst (FuseFile.Write test_file [0; 0; 0] 0 tt)) = (3, fuse.OK).
Proof. reflexivity. Qed.

Lemma firstn_plus {A} (a b : nat) (l : list A) :
  firstn (a + b) l = (firstn a l ++ firstn b (skipn a l))%list.
Proof.
  revert l. induction a as [|a IH]; intros l; [reflexivity|].
  destruct l as [|x l]; cbn.
  - rewrite firstn_nil. reflexivity.
  - rewrite IH. reflexivity.
Qed.

Section Handle.

Local Open Scope list_scope.

Context {W : Type}.
Implicit Types (f : FuseFile.t W) (buf content : list byte) (off : Z).

(** What a read within the snapshot returns. *)
Lemma Read_within f buf off :
  len (FuseFile.data f) + len buf <= max_int64 ->
  0 <= off <= len (FuseFile.data f) ->
  FuseFile.Read f buf off =
  Returned (firstn (Z.to_nat (Z.min (len buf) (len (FuseFile.data f) - off)))
              (skipn (Z.to_nat off) (FuseFile.data f)), fuse.OK).
Proof.
  intros Hfit Hoff. unfold FuseFile.Read.
  pose proof (len_nonneg buf) as Hbuf.
  rewrite to_int64_small by (unfold max_int64 in *; lia).
  destruct (Z.gtb_spec (off + len buf) (len (FuseFile.data f))).
  - rewrite slice_bytes_ok by lia. rewrite Z.min_r by lia. reflexivity.
  - rewrite slice_bytes_ok by lia. rewrite Z.min_l by lia.
    replace (off + len buf - off) with (len buf) by lia. reflexivity.
Qed.

Lemma len_app (l1 l2 : list byte) : len (l1 ++ l2) = len l1 + len l2.
Proof. unfold len. rewrite length_app. lia. Qed.

(** X3.  Reads that follow one another return what one read of both
    buffers returns: a read that fills its buffer, and the read at the
    offset where it ended, together give the bytes of the read with a
    buffer as long as the two. *)
Theorem Read_consecutive f buf1 buf2 off
    (Hfit : len (FuseFile.data f) + len buf1 + len buf2 <= max_int64)
    (Hoff : 0 <= off)
    (Hfull : off + len buf1 <= len (FuseFile.data f)) :
  exists bytes1 bytes2,
    FuseFile.Read f buf1 off = Returned (bytes1, fuse.OK) /\
    len bytes1 = len buf1 /\
    FuseFile.Read f buf2 (off + len buf1) = Returned (bytes2, fuse.OK) /\
    FuseFile.Read f (buf1 ++ buf2) off = Returned (bytes1 ++ bytes2, fuse.OK).
Proof.
  pose proof (len_nonneg buf1) as H1. pose proof (len_nonneg buf2) as H2.
  pose proof (len_nonneg (FuseFile.data f)) as Hd.
  rewrite !Read_within by (rewrite ?len_app; lia).
  eexists. eexists. split; [reflexivity|].
  split.
  { unfold len in *. rewrite length_firstn, length_skipn. lia. }
  split; [reflexivity|].
  f_equal. f_equal. rewrite len_app.
  rewrite (Z.min_l (len buf1)) by lia.
  replace (Z.to_nat (Z.min (len buf1 + len buf2) (len (FuseFile.data f) - off)))
    with (Z.to_nat (len buf1) +
          Z.to_nat (Z.min (len buf2) (len (FuseFile.data f) - (off + len buf1))))%nat
    by lia.
  rewrite firstn_plus, skipn_skipn.
  replace (Z.to_nat (len buf1) + Z.to_nat off)%nat
    with (Z.to_nat (off + len buf1)) by lia.
  reflexivity.
Qed.

(** X4.  A write leaves the snapshot of the handle as it was taken: the
    reads after the write return what they returned before it, whatever
    was written and whatever the gateway answered. *)
Theorem Write_keeps_snapshot f content off w :
  let f' := snd (fst (FuseFile.Write f content off w)) in
  FuseFile.data f' = FuseFile.data f /\
  FuseFile.path f' = FuseFile.path f /\
  forall buf off', FuseFile.Read f' buf off' = FuseFile.Read f buf off'.
Proof.
  unfold FuseFile.Write.
  destruct (len content =? 0); [repeat split|].
  destruct (Zoohandler.Set_ _ _ _ _ _) as [[stat|e] w']; repeat split.
Qed.

End Handle.

Section Through.

Context {W : Type}.
Variable wire : Zoohandler W.

(** X5.  Through the gateway, a write of more than 1,048,576 bytes is
    answered with zero bytes written and EIO; nothing reaches the wire
    client, and the handle is as before. *)
Theorem Write_oversized root mount data attr path content off w log
    (Hlen : len content > 1048576) :
  let f := handle_through wire root mount data attr path in
  FuseFile.Write f content off (w, log) = ((0, fuse.EIO), f, (w, log)).
Proof.
  intros f. unfold FuseFile.Write.
  destruct (Z.eqb_spec (len content) 0); [lia|].
  cbn [f handle_through FuseFile.zh FuseFile.path ZooHandle.handler
       Zoohandler.Set_].
  unfold ZooHandle.Set_, MaxZnodeData.
  destruct (Z.gtb_spec (len content) 1048576); [reflexivity | lia].
Qed.

End Through.

Lemma Read_consecutive_witness :
  exists bytes1 bytes2,
    FuseFile.Read (handle_on (scripted flat_store) [104; 105; 106; 107]
                     FuseFS.zero_Attr "a") [0] 1 =
      Returned (bytes1, fuse.OK) /\
    len bytes1 = len [0] /\
    FuseFile.Read (handle_on (scripted flat_store) [104; 105; 106; 107]
                     FuseFS.zero_Attr "a") [0; 0] (1 + len [0]) =
      Returned (bytes2, fuse.OK) /\
    FuseFile.Read (handle_on (scripted flat_store) [104; 105; 106; 107]
                     FuseFS.zero_Attr "a") ([0] ++ [0; 0])%list 1 =
      Returned ((bytes1 ++ bytes2)%list, fuse.OK).
Proof.
  apply (Read_consecutive
           (handle_on (scripted flat_store) [104; 105; 106; 107]
              FuseFS.zero_Attr "a") [0] [0; 0] 1);
    vm_compute; discriminate.
Defined.

Lemma Write_oversized_witness :
  FuseFile.Write
    (handle_through (scripted flat_store) "/" "/mnt/fuse" [] FuseFS.zero_Attr "a")
    (repeat 0 (Z.to_nat 1048577)) 0 (tt, []) =
  ((0, fuse.EIO),
   handle_through (scripted flat_store) "/" "/mnt/fuse" [] FuseFS.zero_Attr "a",
   (tt, [])).
Proof.
  apply (Write_oversized (scripted flat_store) "/" "/mnt/fuse" []
           FuseFS.zero_Attr "a" (repeat 0 (Z.to_nat 1048577)) 0 tt []).
  unfold len. rewrite repeat_length, Z2Nat.id; lia.
Defined.

(* ===================================================================== *)
(** * The gateway: [Set]                                                   *)
(* ===================================================================== *)

Section Gateway.

Context {W : Type}.
Variable wire : Zoohandler W.

(** C8.  A payload of more than 1,048,576 bytes is refused with the
    error of the size limit and the wire client is not called; a payload
    of at most 1,048,576 bytes goes to the wire client's [Set] as it is,
    under the translated path, and what the wire client answers is what
    [Set] returns. *)
Theorem Set_payload_limit root mount path data version w log :
  let z := gateway_on wire root mount in
  (len data > 1048576 ->
   ZooHandle.Set_ z path data version (w, log) =
   (Err "length of data payload exceeds allowable limit (1048576)", (w, log))) /\
  (len data <= 1048576 ->
   ZooHandle.Set_ z path data version (w, log) =
   (fst (Zoohandler.Set_ wire (ZooHandle.ZKPath z path) data version w),
    (snd (Zoohandler.Set_ wire (ZooHandle.ZKPath z path) data version w),
     record log (CallSet (ZooHandle.ZKPath z path) data version)))).
Proof.
  intros z. unfold ZooHandle.Set_, MaxZnodeData. split; intros Hlen.
  - destruct (Z.gtb_spec (len data) 1048576); [reflexivity | lia].
  - destruct (Z.gtb_spec (len data) 1048576); [lia|].
    cbn [z gateway_on ZooHandle.zk recording Zoohandler.Set_ fst snd].
    destruct (Zoohandler.Set_ wire _ data version w). reflexivity.
Qed.

End Gateway.

Lemma Set_payload_limit_witness :
  let z := gateway_on (scripted flat_store) "/chroot" "/mnt/fuse" in
  ZooHandle.Set_ z "x" (repeat 0 (Z.to_nat 1048577)) (-1) (tt, []) =
  (Err "length of data payload exceeds allowable limit (1048576)", (tt, [])) /\
  ZooHandle.Set_ z "x" [104; 105] (-1) (tt, []) =
  (Ok (leaf_Stat 2), (tt, [CallSet "/chroot/x" [104; 105] (-1)])).
Proof.
  intros z. split.
  - apply (proj1 (Set_payload_limit (scripted flat_store) "/chroot" "/mnt/fuse"
                    "x" (repeat 0 (Z.to_nat 1048577)) (-1) tt [])).
    unfold len. rewrite repeat_length, Z2Nat.id; lia.
  - apply (proj2 (Set_payload_limit (scripted flat_store) "/chroot" "/mnt/fuse"
                    "x" [104; 105] (-1) tt [])).
    vm_compute. discriminate.
Defined.

Section Wire.

Local Open Scope list_scope.

Context {W : Type}.
Variable wire : Zoohandler W.

(** X2.  Whatever is asked of the gateway, the wire client is called
    with the paths of znodes only: each method of [ZooHandle] adds to the
    calls made so far at most calls whose path is the separator followed
    by names joined with single separators. *)
Theorem gateway_sends_znode_paths root mount path data flags acl version w log :
  let h := ZooHandle.handler (gateway_on wire root mount) in
  let sent (log' : list Call) :=
    exists added, log' = log ++ added /\ Forall znode_call added in
  sent (snd (Zoohandler.Close h (w, log))) /\
  sent (snd (snd (Zoohandler.Children h path (w, log)))) /\
  sent (snd (snd (Zoohandler.Create h path data flags acl (w, log)))) /\
  sent (snd (snd (Zoohandler.Delete h path version (w, log)))) /\
  sent (snd (snd (Zoohandler.Exists h path (w, log)))) /\
  sent (snd (snd (Zoohandler.Get h path (w, log)))) /\
  sent (snd (snd (Zoohandler.Set_ h path data version (w, log)))).
Proof.
  intros h sent.
  assert (Hpath : znode_path (ZooHandle.ZKPath (gateway_on wire root mount) path)).
  { unfold ZooHandle.ZKPath. destruct (filepath.Rel _ _); apply Join_from_root. }
  assert (Hone : forall c, znode_call c -> sent (record log c)).
  { intros c Hc. exists [c]. split; [reflexivity|]. constructor; [exact Hc|constructor]. }
  cbn [h ZooHandle.handler Zoohandler.Close Zoohandler.Children Zoohandler.Create
       Zoohandler.Delete Zoohandler.Exists Zoohandler.Get Zoohandler.Set_].
  unfold ZooHandle.Close, ZooHandle.Children, ZooHandle.Create, ZooHandle.Delete,
    ZooHandle.Exists, ZooHandle.Get, ZooHandle.Set_.
  cbn [gateway_on ZooHandle.zk recording Zoohandler.Close Zoohandler.Children
       Zoohandler.Create Zoohandler.Delete Zoohandler.Exists Zoohandler.Get
       Zoohandler.Set_ fst snd].
  split; [apply Hone; exact I|].
  split; [destruct (Zoohandler.Children wire _ w); apply Hone, Hpath|].
  split; [destruct (Zoohandler.Create wire _ _ _ _ w); apply Hone, Hpath|].
  split; [destruct (Zoohandler.Delete wire _ _ w); apply Hone, Hpath|].
  split; [destruct (Zoohandler.Exists wire _ w); apply Hone, Hpath|].
  split; [destruct (Zoohandler.Get wire _ w); apply Hone, Hpath|].
  destruct (len data >? MaxZnodeData).
  - exists []. split; [cbn [snd]; rewrite app_nil_r; reflexivity | constructor].
  - cbn [recording Zoohandler.Set_ fst snd].
    destruct (Zoohandler.Set_ wire _ _ _ w). apply Hone, Hpath.
Qed.

End Wire.

(* ===================================================================== *)
(** * The adapter: [GetAttr], [Unlink], [Open], [Create]                   *)
(* ===================================================================== *)

Lemma lor_land_absorb (m c : Z) : Z.land (m .| c) c = c.
Proof.
  apply Z.bits_inj'. intros n Hn.
  rewrite Z.land_spec, Z.lor_spec.
  destruct (Z.testbit m n), (Z.testbit c n); reflexivity.
Qed.

Section Adapter.

Context {W : Type}.
Implicit Types (f : FuseFS.t W) (path : string) (w : W).

(** The root of the mount is a directory, and no call is made for it. *)
Lemma GetAttr_root f w :
  exists a, FuseFS.GetAttr f "" w = ((Some a, fuse.OK), w) /\
            fuse.Mode a = fuse.S_IFDIR .| dirPermissions (FuseFS.IsReadWrite f).
Proof. eexists. split; reflexivity. Qed.

(** C5.  For a path other than the root, [GetAttr] asks the gateway
    whether the znode exists.  An error or an absent znode is answered
    with ENOENT.  A znode that is present under a path that ends in the
    marker name is a regular file of mode 0444, whatever its child count;
    under any other path it is a directory ([S_IFDIR] with the directory
    mask) exactly when its child count is positive and a regular file
    ([S_IFREG] with the file mask) exactly when its child count is zero. *)
Theorem GetAttr_classification f path w r w'
    (Hpath : path <> "")
    (Hexists : Zoohandler.Exists (FuseFS.zh f) path w = (r, w')) :
  match r with
  | Err e => FuseFS.GetAttr f path w = ((None, fuse.ENOENT), w')
  | Ok (false, stat) => FuseFS.GetAttr f path w = ((None, fuse.ENOENT), w')
  | Ok (true, stat) =>
      0 <= zk.NumChildren stat ->
      exists a,
        FuseFS.GetAttr f path w = ((Some a, fuse.OK), w') /\
        (ends_in path ZNodeMarker -> fuse.Mode a = fuse.S_IFREG .| IfRegRO) /\
        (~ ends_in path ZNodeMarker ->
         (fuse.Mode a = fuse.S_IFDIR .| dirPermissions (FuseFS.IsReadWrite f)
          <-> zk.NumChildren stat > 0) /\
         (fuse.Mode a = fuse.S_IFREG .| filePermissions (FuseFS.IsReadWrite f)
          <-> zk.NumChildren stat = 0))
  end.
Proof.
  unfold FuseFS.GetAttr.
  destruct (String.eqb_spec path "") as [->|_]; [contradiction|].
  rewrite Hexists. destruct r as [[[|] stat]|e]; try reflexivity.
  intros Hcount. cbn [negb]. eexists. split; [reflexivity|].
  cbn [fuse.Mode].
  destruct (strings.HasSuffix path ZNodeMarker) eqn:Hsuffix.
  - split; [reflexivity|]. intros Hno. apply HasSuffix_spec in Hsuffix.
    contradiction.
  - split.
    { intros Hyes. apply HasSuffix_spec in Hyes. congruence. }
    intros _.
    destruct (Z.eqb_spec (zk.NumChildren stat) 0) as [H0|Hpos].
    + split; split; intros H; try reflexivity; try lia.
      destruct (FuseFS.IsReadWrite f); vm_compute in H; discriminate.
    + split; split; intros H; try reflexivity; try lia.
      destruct (FuseFS.IsReadWrite f); vm_compute in H; discriminate.
Qed.

(** [Rmdir] asks for the znode first: absent, ENOENT; without children,
    ENOTDIR and no [Delete]; with children, the answer of [Delete]. *)
Lemma Rmdir_spec f path w found stat w' :
  Zoohandler.Exists (FuseFS.zh f) path w = (Ok (found, stat), w') ->
  FuseFS.Rmdir f path w =
  if negb found then (fuse.ENOENT, w')
  else if zk.NumChildren stat =? 0 then (fuse.ENOTDIR, w')
  else (match fst (Zoohandler.Delete (FuseFS.zh f) path (-1) w') with
        | Some err => fuse.ENOENT
        | None => fuse.OK
        end, snd (Zoohandler.Delete (FuseFS.zh f) path (-1) w')).
Proof.
  intros He. unfold FuseFS.Rmdir. rewrite He.
  destruct (negb found); [reflexivity|].
  destruct (zk.NumChildren stat =? 0); [reflexivity|].
  destruct (Zoohandler.Delete _ _ _ _) as [[err|] w'']; reflexivity.
Qed.

(** [Truncate] and [Utimens] succeed and do nothing. *)
Lemma Truncate_Utimens_noop f name size w :
  FuseFS.Truncate f name size w = (fuse.OK, w) /\
  FuseFS.Utimens f name w = (fuse.OK, w).
Proof. split; reflexivity. Qed.

End Adapter.

Section Unlink.

Context {W : Type}.
Variable zh : Zoohandler W.

(** C7.  On a path that ends in the marker name [Unlink] answers EPERM,
    read-write mount or not, and the gateway is not called.  On any other
    path the one call made is [Delete(path, -1)]: its failure is answered
    with EIO, its success with OK. *)
Theorem Unlink_guard_then_delete root rw path w log :
  let f := adapter_on zh root rw in
  (ends_in path ZNodeMarker ->
   FuseFS.Unlink f path (w, log) = (fuse.EPERM, (w, log))) /\
  (~ ends_in path ZNodeMarker ->
   FuseFS.Unlink f path (w, log) =
   (match fst (Zoohandler.Delete zh path (-1) w) with
    | Some err => fuse.EIO
    | None => fuse.OK
    end,
    (snd (Zoohandler.Delete zh path (-1) w),
     record log (CallDelete path (-1))))).
Proof.
  intros f. unfold FuseFS.Unlink.
  destruct (strings.HasSuffix path ZNodeMarker) eqn:Hsuffix.
  - split; [reflexivity|]. intros Hno. apply HasSuffix_spec in Hsuffix.
    contradiction.
  - split.
    { intros Hyes. apply HasSuffix_spec in Hyes. congruence. }
    intros _.
    cbn [f adapter_on FuseFS.zh recording Zoohandler.Delete fst snd].
    destruct (Zoohandler.Delete zh path (-1) w) as [[err|] w']; reflexivity.
Qed.

End Unlink.

Lemma not_ends_in_marker (path : string) :
  strings.HasSuffix path ZNodeMarker = false -> ~ ends_in path ZNodeMarker.
Proof. intros H Hyes. apply HasSuffix_spec in Hyes. congruence. Qed.

Lemma Unlink_guard_then_delete_witness :
  FuseFS.Unlink (adapter_on (scripted flat_store) "/mnt/fuse" true)
    "dir/__znode_data__" (tt, []) = (fuse.EPERM, (tt, [])) /\
  FuseFS.Unlink (adapter_on (scripted flat_store) "/mnt/fuse" true)
    "dir/node" (tt, []) = (fuse.OK, (tt, [CallDelete "dir/node" (-1)])).
Proof.
  split.
  - apply (proj1 (Unlink_guard_then_delete (scripted flat_store) "/mnt/fuse"
                    true "dir/__znode_data__" tt [])).
    exists "dir/". reflexivity.
  - apply (proj2 (Unlink_guard_then_delete (scripted flat_store) "/mnt/fuse"
                    true "dir/node" tt [])).
    apply not_ends_in_marker. reflexivity.
Defined.

Lemma GetAttr_classification_witness :
  exists a,
    FuseFS.GetAttr (adapter_on (scripted flat_store) "/mnt/fuse" false)
      "x" (tt, []) = ((Some a, fuse.OK), (tt, [CallExists "x"])) /\
    (fuse.Mode a = fuse.S_IFREG .| filePermissions false <-> 0 = 0).
Proof.
  destruct (GetAttr_classification
              (adapter_on (scripted flat_store) "/mnt/fuse" false) "x" (tt, [])
              (Ok (true, leaf_Stat 2)) (tt, [CallExists "x"])
              ltac:(discriminate) eq_refl ltac:(vm_compute; discriminate))
    as (a & Ha & _ & Hmode).
  exists a. split; [exact Ha|].
  exact (proj2 (Hmode (not_ends_in_marker "x" eq_refl))).
Defined.

Section Handles.

Context {W : Type}.

(** [NewFuseFile] sets the bits of 0644 in the mode, whatever mode it is
    given. *)
Lemma NewFuseFile_mode env data mode path (zh : Zoohandler W) :
  Z.land (fuse.Mode (FuseFile.attr (FuseFile.NewFuseFile env data mode path zh)))
    IfRegRW = IfRegRW.
Proof. cbn [FuseFile.NewFuseFile FuseFile.attr fuse.Mode]. apply lor_land_absorb. Qed.

(** C10.  The handle of a successful [Open] or [Create] has the mode
    0644, in which the write bit of the owner (0200) is set, on every
    mount: [Open] and [Create] do not read the read-write flag of the
    mount, and return the same whatever it is. *)
Theorem handle_mode_is_read_write env (f : FuseFS.t W) path flags mode w h w'
    (Hhandle : FuseFS.Open env f path flags w = ((Some h, fuse.OK), w') \/
               FuseFS.Create env f path flags mode w = ((Some h, fuse.OK), w')) :
  fuse.Mode (FuseFile.attr h) = IfRegRW /\
  Z.land (fuse.Mode (FuseFile.attr h)) 128 = 128 /\
  (forall rw, FuseFS.Open env (with_IsReadWrite f rw) path flags w =
              FuseFS.Open env f path flags w) /\
  (forall rw, FuseFS.Create env (with_IsReadWrite f rw) path flags mode w =
              FuseFS.Create env f path flags mode w).
Proof.
  assert (Hmode : fuse.Mode (FuseFile.attr h) = IfRegRW).
  { destruct Hhandle as [H|H].
    - unfold FuseFS.Open in H.
      destruct (Zoohandler.Get _ _ _) as [[[data stat]|e] w1]; [|discriminate].
      injection H as <- _. reflexivity.
    - unfold FuseFS.Create in H.
      destruct (Zoohandler.Create _ _ _ _ _ _) as [[p|e] w1]; [|discriminate].
      injection H as <- _. reflexivity. }
  rewrite Hmode. repeat split; reflexivity.
Qed.

End Handles.

Lemma handle_mode_is_read_write_witness :
  exists h w',
    FuseFS.Open test_env test_fs "x" 0 (tt, []) = ((Some h, fuse.OK), w') /\
    FuseFS.IsReadWrite test_fs = false /\
    fuse.Mode (FuseFile.attr h) = IfRegRW /\
    Z.land (fuse.Mode (FuseFile.attr h)) 128 = 128.
Proof.
  eexists. eexists. split; [reflexivity|]. split; [reflexivity|].
  destruct (handle_mode_is_read_write test_env test_fs "x" 0 0 (tt, []) _ _
              (or_introl eq_refl)) as (Hmode & Hbit & _).
  split; [exact Hmode | exact Hbit].
Defined.

(** From mount to read: under the alias [/data] on a read-only mount, the
    znode [/data/x] with the payload ["hi"] and no children is a read-only
    regular file of size 2, and opening and reading it returns ["hi"]. *)
Example read_only_mount_end_to_end :
  let fs := {| FuseFS.zh := ZooHandle.handler (test_handle "/data");
               FuseFS.FuseRoot := "/mnt/fuse";
               FuseFS.IsReadWrite := false |} in
  (exists a,
     FuseFS.GetAttr fs "x" (tt, []) = ((Some a, fuse.OK), (tt, [CallExists "/data/x"])) /\
     fuse.Mode a = fuse.S_IFREG .| IfRegRO /\ fuse.Size a = 2) /\
  (exists h,
     FuseFS.Open test_env fs "x" 0 (tt, []) = ((Some h, fuse.OK), (tt, [CallGet "/data/x"])) /\
     FuseFile.Read h [0; 0; 0; 0] 0 = Returned ([104; 105], fuse.OK)).
Proof.
  split; eexists; repeat split.
Qed.

Lemma marker_not_root : ~ ends_in "" ZNodeMarker.
Proof.
  intros H. apply HasSuffix_spec in H. vm_compute in H. discriminate.
Qed.

Section Attributes.

Context {W : Type}.
Implicit Types (f : FuseFS.t W) (path : string) (w : W).

(** X6.  [GetAttr] and the entries of [OpenDir] tell the same file type:
    for a znode with a child count that is not negative, under a path that
    does not end in the marker name, the type bits of the mode of
    [GetAttr] are the mode of the entry that a probe of [OpenDir] builds
    from the same [Stat]. *)
Theorem GetAttr_type_matches_entry f path w stat w' directory
    (Hpath : path <> "")
    (Hmarker : ~ ends_in path ZNodeMarker)
    (Hcount : 0 <= zk.NumChildren stat)
    (Hexists : Zoohandler.Exists (FuseFS.zh f) path w = (Ok (true, stat), w')) :
  exists a,
    FuseFS.GetAttr f path w = ((Some a, fuse.OK), w') /\
    Z.land (fuse.Mode a) S_IFMT =
    fuse.EntryMode (FuseFS.probe_entry directory stat).
Proof.
  unfold FuseFS.GetAttr.
  destruct (String.eqb_spec path "") as [->|_]; [contradiction|].
  rewrite Hexists. cbn [negb]. eexists. split; [reflexivity|].
  cbn [fuse.Mode FuseFS.probe_entry fuse.EntryMode].
  destruct (strings.HasSuffix path ZNodeMarker) eqn:Hs.
  { apply HasSuffix_spec in Hs. contradiction. }
  destruct (Z.eqb_spec (zk.NumChildren stat) 0) as [H0|Hne].
  - rewrite H0. cbn. destruct (FuseFS.IsReadWrite f); reflexivity.
  - destruct (Z.gtb_spec (zk.NumChildren stat) 0); [|lia].
    destruct (FuseFS.IsReadWrite f); reflexivity.
Qed.

(** X7.  On a mount that is not read-write no mode of [GetAttr] has a
    write bit, and under a path that ends in the marker name none has on
    any mount. *)
Theorem GetAttr_no_write_bits f path w a st w'
    (Hattr : FuseFS.GetAttr f path w = ((Some a, st), w'))
    (Hro : FuseFS.IsReadWrite f = false \/ ends_in path ZNodeMarker) :
  Z.land (fuse.Mode a) write_bits = 0.
Proof.
  unfold FuseFS.GetAttr in Hattr.
  destruct (String.eqb_spec path "") as [->|_].
  - injection Hattr as <- _ _. cbn [fuse.Mode].
    destruct Hro as [-> | Hm]; [reflexivity|].
    destruct (marker_not_root Hm).
  - destruct (Zoohandler.Exists _ _ _) as [[[[|] stat]|e] w1]; try discriminate.
    cbn [negb] in Hattr. injection Hattr as <- _ _. cbn [fuse.Mode].
    destruct (strings.HasSuffix path ZNodeMarker) eqn:Hs; [reflexivity|].
    destruct Hro as [-> | Hm].
    + destruct (zk.NumChildren stat =? 0); reflexivity.
    + apply HasSuffix_spec in Hm. congruence.
Qed.

(** X8.  For a znode that exists, [GetAttr] gives the length of the
    payload as the size, and the times of the znode, which are in
    milliseconds, in whole seconds, rounded down. *)
Theorem GetAttr_size_and_times f path w stat w'
    (Hpath : path <> "")
    (Hexists : Zoohandler.Exists (FuseFS.zh f) path w = (Ok (true, stat), w'))
    (Hlen : 0 <= zk.DataLength stat < 2 ^ 31)
    (Hmtime : 0 <= zk.Mtime stat < 2 ^ 63)
    (Hctime : 0 <= zk.Ctime stat < 2 ^ 63) :
  exists a,
    FuseFS.GetAttr f path w = ((Some a, fuse.OK), w') /\
    fuse.Size a = zk.DataLength stat /\
    1000 * fuse.Mtime a <= zk.Mtime stat < 1000 * fuse.Mtime a + 1000 /\
    1000 * fuse.Ctime a <= zk.Ctime stat < 1000 * fuse.Ctime a + 1000.
Proof.
  unfold FuseFS.GetAttr.
  destruct (String.eqb_spec path "") as [->|_]; [contradiction|].
  rewrite Hexists. cbn [negb]. eexists. split; [reflexivity|].
  cbn [fuse.Size fuse.Mtime fuse.Ctime].
  rewrite !Z.quot_div_nonneg by lia.
  pose proof (Z.div_pos (zk.Mtime stat) 1000 ltac:(lia) ltac:(lia)).
  pose proof (Z.div_pos (zk.Ctime stat) 1000 ltac:(lia) ltac:(lia)).
  pose proof (Z.div_le_upper_bound (zk.Mtime stat) 1000 (2 ^ 63) ltac:(lia) ltac:(lia)).
  pose proof (Z.div_le_upper_bound (zk.Ctime stat) 1000 (2 ^ 63) ltac:(lia) ltac:(lia)).
  rewrite !to_uint64_small by lia.
  pose proof (Z.mul_div_le (zk.Mtime stat) 1000 ltac:(lia)).
  pose proof (Z.mul_succ_div_gt (zk.Mtime stat) 1000 ltac:(lia)).
  pose proof (Z.mul_div_le (zk.Ctime stat) 1000 ltac:(lia)).
  pose proof (Z.mul_succ_div_gt (zk.Ctime stat) 1000 ltac:(lia)).
  repeat split; lia.
Qed.

End Attributes.

Lemma GetAttr_type_matches_entry_witness :
  exists a,
    FuseFS.GetAttr flat_fs "a" tt = ((Some a, fuse.OK), tt) /\
    Z.land (fuse.Mode a) S_IFMT =
    fuse.EntryMode (FuseFS.probe_entry "a" (leaf_Stat 2)).
Proof.
  apply (GetAttr_type_matches_entry flat_fs "a" tt (leaf_Stat 2) tt "a"
           ltac:(discriminate) (not_ends_in_marker "a" eq_refl)
           ltac:(vm_compute; discriminate) eq_refl).
Defined.

Lemma GetAttr_no_write_bits_witness :
  match FuseFS.GetAttr (with_IsReadWrite flat_fs true) "dir/__znode_data__" tt with
  | ((Some a, _), _) => Z.land (fuse.Mode a) write_bits = 0
  | _ => True
  end.
Proof.
  destruct (FuseFS.GetAttr (with_IsReadWrite flat_fs true) "dir/__znode_data__" tt)
    as [[[a|] st] w'] eqn:H; [|exact I].
  apply (GetAttr_no_write_bits (with_IsReadWrite flat_fs true)
           "dir/__znode_data__" tt a st w' H).
  right. exists "dir/". reflexivity.
Defined.

Lemma GetAttr_size_and_times_witness :
  exists a,
    FuseFS.GetAttr flat_fs "a" tt = ((Some a, fuse.OK), tt) /\
    fuse.Size a = zk.DataLength (leaf_Stat 2) /\
    1000 * fuse.Mtime a <= zk.Mtime (leaf_Stat 2) < 1000 * fuse.Mtime a + 1000 /\
    1000 * fuse.Ctime a <= zk.Ctime (leaf_Stat 2) < 1000 * fuse.Ctime a + 1000.
Proof.
  apply (GetAttr_size_and_times flat_fs "a" tt (leaf_Stat 2) tt
           ltac:(discriminate) eq_refl);
    vm_compute; split; congruence.
Defined.

Section OpenCreate.

Context {W : Type}.
Variable zh : Zoohandler W.

(** X9.  What [Open] has fetched is what the handle serves: when [Get]
    answers with a payload, [Open] makes that one call, the size of the
    handle is the length of the payload, and a read at offset 0 with a
    buffer at least as long returns the payload, all of it. *)
Theorem Open_then_Read env root rw path flags w log payload stat w' buf
    (Hget : Zoohandler.Get zh path w = (Ok (payload, stat), w'))
    (Hbuf : len payload <= len buf)
    (Hfit : len payload + len buf <= max_int64) :
  exists h,
    FuseFS.Open env (adapter_on zh root rw) path flags (w, log) =
      ((Some h, fuse.OK), (w', record log (CallGet path))) /\
    fuse.Size (FuseFile.attr h) = len payload /\
    FuseFile.Read h buf 0 = Returned (payload, fuse.OK).
Proof.
  unfold FuseFS.Open.
  cbn [adapter_on FuseFS.zh recording Zoohandler.Get fst snd].
  rewrite Hget. eexists. split; [reflexivity|].
  pose proof (len_nonneg payload) as Hp. pose proof (len_nonneg buf) as Hb.
  split.
  - cbn [FuseFile.NewFuseFile FuseFile.attr fuse.Size].
    apply to_uint64_small. unfold max_int64 in Hfit. lia.
  - rewrite Read_within
      by (cbn [FuseFile.NewFuseFile FuseFile.data]; lia).
    cbn [FuseFile.NewFuseFile FuseFile.data].
    rewrite Z.min_r by lia. rewrite Z.sub_0_r.
    unfold len. rewrite Nat2Z.id. cbn [Z.to_nat skipn].
    rewrite firstn_all. reflexivity.
Qed.

(** X10.  [Create] asks the gateway once, for a znode with no payload,
    the flags 0 and the ACL that gives the world all permissions.  When
    that fails there is no handle and the status is ENOENT; when it
    succeeds the handle is empty: size 0, a read at offset 0 returns no
    bytes, and a read at any offset beyond panics. *)
Theorem Create_empty_handle env root rw path flags mode w log r w'
    (Hcreate : Zoohandler.Create zh path [] 0
                 [ {| zk.Perms := 31; zk.Scheme := "world"; zk.ID := "anyone" |} ]
                 w = (r, w')) :
  let log' := record log (CallCreate path [] 0
                [ {| zk.Perms := 31; zk.Scheme := "world"; zk.ID := "anyone" |} ]) in
  match r with
  | Err e =>
      FuseFS.Create env (adapter_on zh root rw) path flags mode (w, log) =
      ((None, fuse.ENOENT), (w', log'))
  | Ok _ =>
      exists h,
        FuseFS.Create env (adapter_on zh root rw) path flags mode (w, log) =
          ((Some h, fuse.OK), (w', log')) /\
        fuse.Size (FuseFile.attr h) = 0 /\
        (forall buf, len buf <= max_int64 ->
                     FuseFile.Read h buf 0 = Returned ([], fuse.OK)) /\
        (forall buf off, 0 < off -> FuseFile.Read h buf off = Panicked)
  end.
Proof.
  intros log'. unfold FuseFS.Create.
  cbn [adapter_on FuseFS.zh recording Zoohandler.Create fst snd].
  change (zk.WorldACL zk.PermAll)
    with [ {| zk.Perms := 31; zk.Scheme := "world"; zk.ID := "anyone" |} ].
  rewrite Hcreate. destruct r as [created|e]; [|reflexivity].
  eexists. split; [reflexivity|]. split; [reflexivity|]. split.
  - intros buf Hb. pose proof (len_nonneg buf).
    rewrite Read_within
      by (cbn [FuseFile.NewFuseFile FuseFile.data];
          change (len (@nil byte)) with 0; lia).
    cbn [FuseFile.NewFuseFile FuseFile.data skipn Z.to_nat].
    rewrite firstn_nil. reflexivity.
  - intros buf off Hoff. unfold FuseFile.Read.
    cbn [FuseFile.NewFuseFile FuseFile.data].
    change (len (@nil byte)) with 0.
    destruct (Z.gtb_spec (to_int64 (off + len buf)) 0);
      rewrite slice_bytes_backwards by lia; reflexivity.
Qed.

End OpenCreate.

Lemma Open_then_Read_witness :
  exists h,
    FuseFS.Open test_env (adapter_on (scripted flat_store) "/mnt/fuse" false)
      "a" 0 (tt, []) = ((Some h, fuse.OK), (tt, record [] (CallGet "a"))) /\
    fuse.Size (FuseFile.attr h) = len [104; 105] /\
    FuseFile.Read h [0; 0; 0; 0] 0 = Returned ([104; 105], fuse.OK).
Proof.
  apply (Open_then_Read (scripted flat_store) test_env "/mnt/fuse" false "a" 0
           tt [] [104; 105] (leaf_Stat 2) tt [0; 0; 0; 0] eq_refl);
    vm_compute; discriminate.
Defined.

Lemma Create_empty_handle_witness :
  exists h,
    FuseFS.Create test_env (adapter_on (scripted flat_store) "/mnt/fuse" true)
      "a" 0 0 (tt, []) =
      ((Some h, fuse.OK),
       (tt, record [] (CallCreate "a" [] 0
                         [ {| zk.Perms := 31; zk.Scheme := "world";
                              zk.ID := "anyone" |} ]))) /\
    fuse.Size (FuseFile.attr h) = 0 /\
    (forall buf, len buf <= max_int64 ->
                 FuseFile.Read h buf 0 = Returned ([], fuse.OK)) /\
    (forall buf off, 0 < off -> FuseFile.Read h buf off = Panicked).
Proof.
  exact (Create_empty_handle (scripted flat_store) test_env "/mnt/fuse" true
           "a" 0 0 tt [] (Ok "a") tt eq_refl).
Defined.

Section Rmdir.

Context {W : Type}.
Variable zh : Zoohandler W.

(** X11.  [Rmdir] deletes nothing but a znode that has children: it asks
    once whether the znode exists; for an error or an absent znode it
    answers ENOENT, for a znode without children ENOTDIR, and in neither
    case is [Delete] called.  Otherwise it calls [Delete(path, -1)] once,
    and answers a failure of it with ENOENT. *)
Theorem Rmdir_deletes_directories_only root rw path w log r w1
    (Hexists : Zoohandler.Exists zh path w = (r, w1)) :
  let f := adapter_on zh root rw in
  let log1 := record log (CallExists path) in
  match r with
  | Err e => FuseFS.Rmdir f path (w, log) = (fuse.ENOENT, (w1, log1))
  | Ok (false, stat) => FuseFS.Rmdir f path (w, log) = (fuse.ENOENT, (w1, log1))
  | Ok (true, stat) =>
      if zk.NumChildren stat =? 0 then
        FuseFS.Rmdir f path (w, log) = (fuse.ENOTDIR, (w1, log1))
      else
        FuseFS.Rmdir f path (w, log) =
        (match fst (Zoohandler.Delete zh path (-1) w1) with
         | Some err => fuse.ENOENT
         | None => fuse.OK
         end,
         (snd (Zoohandler.Delete zh path (-1) w1),
          record log1 (CallDelete path (-1))))
  end.
Proof.
  intros f log1. unfold FuseFS.Rmdir.
  cbn [f adapter_on FuseFS.zh recording Zoohandler.Exists Zoohandler.Delete
       fst snd].
  rewrite Hexists. destruct r as [[[|] stat]|e]; cbn [negb]; try reflexivity.
  destruct (zk.NumChildren stat =? 0); [reflexivity|].
  cbn [fst snd].
  destruct (Zoohandler.Delete zh path (-1) w1) as [[err|] w2]; reflexivity.
Qed.

End Rmdir.

Lemma Rmdir_deletes_directories_only_witness :
  FuseFS.Rmdir (adapter_on (scripted flat_store) "/mnt/fuse" true) "a" (tt, []) =
  (fuse.ENOTDIR, (tt, record [] (CallExists "a"))).
Proof.
  exact (Rmdir_deletes_directories_only (scripted flat_store) "/mnt/fuse" true
           "a" tt [] (Ok (true, leaf_Stat 2)) tt eq_refl).
Defined.

(* ===================================================================== *)
(** * [OpenDir]: the fan-out                                               *)
(* ===================================================================== *)

Section FanOut.

Context {W : Type}.
Variables (f : FuseFS.t W) (path : string) (maxWorkers : nat).

Lemma count_app p (l1 l2 : list FuseFS.Worker) :
  FuseFS.count p (l1 ++ l2) = (FuseFS.count p l1 + FuseFS.count p l2)%nat.
Proof. unfold FuseFS.count. rewrite List.filter_app, length_app. reflexivity. Qed.

(** Replacing a worker changes a count by what the two workers weigh. *)
Lemma count_insert p (l : list FuseFS.Worker) (i : nat) (old new : FuseFS.Worker) :
  l !! i = Some old ->
  (FuseFS.count p (<[i := new]> l) + (if p old then 1 else 0) =
   FuseFS.count p l + (if p new then 1 else 0))%nat.
Proof.
  revert i. induction l as [|x l IH]; intros i Hi; [discriminate|].
  destruct i as [|i]; cbn in Hi.
  - injection Hi as ->. unfold FuseFS.count. cbn.
    destruct (p old); destruct (p new); cbn; lia.
  - specialize (IH i Hi).
    change (<[S i := new]> (x :: l)) with (x :: <[i := new]> l).
    unfold FuseFS.count in *. cbn [List.filter].
    destruct (p x); cbn [length]; lia.
Qed.

Lemma step_worker_slots_ok i s :
  slots_ok maxWorkers s -> slots_ok maxWorkers (FuseFS.step_worker f path maxWorkers i s).
Proof.
  intros [Hc Hm]. unfold FuseFS.step_worker.
  destruct (FuseFS.workers s !! i) as [wk|] eqn:Hi; [|split; assumption].
  assert (Hins : forall new,
            (FuseFS.count FuseFS.in_flight (<[i := new]> (FuseFS.workers s)) +
             (if FuseFS.in_flight wk then 1 else 0) =
             FuseFS.chanLimiter s + (if FuseFS.in_flight new then 1 else 0))%nat).
  { intros new. rewrite <- Hc. apply count_insert, Hi. }
  destruct wk; cbn [FuseFS.in_flight] in Hins.
  - destruct (Nat.ltb_spec (FuseFS.chanLimiter s) maxWorkers); [|split; assumption].
    specialize (Hins (FuseFS.wExists directory)).
    split; cbn [FuseFS.workers FuseFS.chanLimiter FuseFS.in_flight] in *; lia.
  - destruct (Zoohandler.Exists _ _ _) as [[[[|] stat]|e] w'];
      match goal with
      | |- context [<[i := ?new]> _] => specialize (Hins new)
      end;
      split; cbn [FuseFS.workers FuseFS.chanLimiter FuseFS.in_flight negb] in *; lia.
  - specialize (Hins (FuseFS.wStore dirEntry (FuseFS.dirEntries s))).
    split; cbn [FuseFS.workers FuseFS.chanLimiter FuseFS.in_flight
                FuseFS.set_worker] in *; lia.
  - specialize (Hins FuseFS.wRecv).
    split; cbn [FuseFS.workers FuseFS.chanLimiter FuseFS.in_flight] in *; lia.
  - specialize (Hins FuseFS.wDone).
    split; cbn [FuseFS.workers FuseFS.chanLimiter FuseFS.in_flight] in *; lia.
  - specialize (Hins FuseFS.wExited).
    split; cbn [FuseFS.workers FuseFS.chanLimiter FuseFS.in_flight] in *; lia.
  - split; assumption.
Qed.

Lemma step_main_slots_ok (s : @FuseFS.State W) :
  slots_ok maxWorkers s -> slots_ok maxWorkers (FuseFS.step_main s).
Proof.
  intros [Hc Hm]. unfold FuseFS.step_main.
  destruct (FuseFS.main s) as [[|child rest]| |entries].
  - split; assumption.
  - split; cbn [FuseFS.workers FuseFS.chanLimiter]; [|assumption].
    rewrite count_app. rewrite Hc. cbn. lia.
  - destruct (FuseFS.wg s =? 0)%nat; split; assumption.
  - split; assumption.
Qed.

Lemma run_slots_ok sched s :
  slots_ok maxWorkers s -> slots_ok maxWorkers (FuseFS.run f path maxWorkers sched s).
Proof.
  revert s. induction sched as [|tid sched IH]; intros s Hs; [exact Hs|].
  cbn [FuseFS.run]. apply IH. destruct tid.
  - apply step_main_slots_ok, Hs.
  - apply step_worker_slots_ok, Hs.
Qed.

End FanOut.

Lemma maxWorkers_for_min (children : list string) :
  FuseFS.maxWorkers_for children = Nat.min 25 (List.length children).
Proof.
  unfold FuseFS.maxWorkers_for, MaxConcurrentRequests.
  destruct (Nat.ltb_spec (List.length children) 25); lia.
Qed.

(** X12.  Under every schedule, and at every moment of it, the probes in
    flight are as many as the slots taken in [chanLimiter], and these are at most
    [min(25, len(children))]. *)
Lemma OpenDir_in_flight_bounded {W} (f : FuseFS.t W) path children w sched :
  let s := FuseFS.run f path (FuseFS.maxWorkers_for children) sched
             (FuseFS.fan_out children w) in
  FuseFS.count FuseFS.in_flight (FuseFS.workers s) = FuseFS.chanLimiter s /\
  (FuseFS.count FuseFS.in_flight (FuseFS.workers s)
   <= Nat.min 25 (List.length children))%nat.
Proof.
  intros s.
  assert (H : slots_ok (FuseFS.maxWorkers_for children) s).
  { apply run_slots_ok. split; cbn; [reflexivity | lia]. }
  destruct H as [Hc Hm]. rewrite maxWorkers_for_min in Hm. split; lia.
Qed.

Section WaitGroup.

Local Open Scope list_scope.
Local Open Scope nat_scope.

Context {W : Type}.
Variables (f : FuseFS.t W) (path : string) (maxWorkers n : nat).

Lemma count_zero_lookup p (l : list FuseFS.Worker) i wk :
  FuseFS.count p l = 0 -> l !! i = Some wk -> p wk = false.
Proof.
  revert i. induction l as [|x l IH]; intros i Hc Hi; [discriminate|].
  unfold FuseFS.count in *. cbn [List.filter] in Hc.
  destruct (p x) eqn:Hx; [discriminate|].
  destruct i as [|i]; cbn in Hi; [injection Hi as <-; exact Hx|].
  eapply IH; eassumption.
Qed.

Lemma step_worker_wg_ok i s :
  wg_ok n s -> wg_ok n (FuseFS.step_worker f path maxWorkers i s).
Proof.
  intros (Hwg & Hlen & Hret). unfold FuseFS.step_worker.
  destruct (FuseFS.workers s !! i) as [wk|] eqn:Hi; [|split; [|split]; assumption].
  assert (Hins : forall new,
            FuseFS.count FuseFS.unfinished (<[i := new]> (FuseFS.workers s)) +
            (if FuseFS.unfinished wk then 1 else 0) =
            FuseFS.wg s + (if FuseFS.unfinished new then 1 else 0)).
  { intros new. rewrite Hwg. apply count_insert, Hi. }
  assert (Hrun : FuseFS.unfinished wk = true ->
                 forall entries, FuseFS.main s <> FuseFS.mReturned entries).
  { intros Hu entries Hm. destruct (Hret entries Hm) as [H0 _].
    rewrite Hwg in H0. rewrite (count_zero_lookup _ _ _ _ H0 Hi) in Hu.
    discriminate. }
  destruct wk; cbn [FuseFS.unfinished] in Hins, Hrun;
    try specialize (Hrun eq_refl).
  - destruct (FuseFS.chanLimiter s <? maxWorkers); [|split; [|split]; assumption].
    specialize (Hins (FuseFS.wExists directory)).
    split; [|split];
      cbn [FuseFS.workers FuseFS.wg FuseFS.main FuseFS.dirEntries FuseFS.unfinished] in *;
      rewrite ?length_insert; try lia.
    intros entries Hm. destruct (Hrun entries Hm).
  - destruct (Zoohandler.Exists _ _ _) as [[[[|] stat]|e] w'];
      match goal with
      | |- context [<[i := ?new]> _] => specialize (Hins new)
      end;
      (split; [|split]);
      cbn [FuseFS.workers FuseFS.wg FuseFS.main FuseFS.dirEntries
           FuseFS.unfinished negb] in *;
      rewrite ?length_insert; try lia;
      intros entries Hm; destruct (Hrun entries Hm).
  - specialize (Hins (FuseFS.wStore dirEntry (FuseFS.dirEntries s))).
    split; [|split];
      cbn [FuseFS.workers FuseFS.wg FuseFS.main FuseFS.dirEntries
           FuseFS.unfinished FuseFS.set_worker] in *;
      rewrite ?length_insert; try lia.
    intros entries Hm. destruct (Hrun entries Hm).
  - specialize (Hins FuseFS.wRecv).
    split; [|split];
      cbn [FuseFS.workers FuseFS.wg FuseFS.main FuseFS.dirEntries FuseFS.unfinished] in *;
      rewrite ?length_insert; try lia.
    intros entries Hm. destruct (Hrun entries Hm).
  - specialize (Hins FuseFS.wDone).
    split; [|split];
      cbn [FuseFS.workers FuseFS.wg FuseFS.main FuseFS.dirEntries FuseFS.unfinished] in *;
      rewrite ?length_insert; try lia.
    intros entries Hm. destruct (Hrun entries Hm).
  - specialize (Hins FuseFS.wExited).
    split; [|split];
      cbn [FuseFS.workers FuseFS.wg FuseFS.main FuseFS.dirEntries FuseFS.unfinished] in *;
      rewrite ?length_insert; try lia.
    intros entries Hm. destruct (Hrun entries Hm).
  - split; [|split]; assumption.
Qed.

Lemma step_main_wg_ok (s : @FuseFS.State W) :
  wg_ok n s -> wg_ok n (FuseFS.step_main s).
Proof.
  intros (Hwg & Hlen & Hret). unfold FuseFS.step_main.
  destruct (FuseFS.main s) as [[|child rest]| |entries] eqn:Hmain;
    cbn [unspawned] in Hlen.
  - split; [|split]; cbn [FuseFS.workers FuseFS.wg FuseFS.main FuseFS.dirEntries
                          unspawned].
    + exact Hwg.
    + exact Hlen.
    + intros entries [=].
  - split; [|split]; cbn [FuseFS.workers FuseFS.wg FuseFS.main FuseFS.dirEntries
                          unspawned].
    + rewrite count_app, <- Hwg. cbn. lia.
    + rewrite length_app. cbn [List.length] in *. lia.
    + intros entries [=].
  - destruct (Nat.eqb_spec (FuseFS.wg s) 0) as [H0|Hne].
    + split; [|split]; cbn [FuseFS.workers FuseFS.wg FuseFS.main FuseFS.dirEntries
                            unspawned].
      * exact Hwg.
      * exact Hlen.
      * intros entries [= <-]. split; [exact H0 | reflexivity].
    + split; [|split]; rewrite ?Hmain; cbn [unspawned].
      * exact Hwg.
      * exact Hlen.
      * intros entries [=].
  - split; [|split]; rewrite ?Hmain; cbn [unspawned].
    + exact Hwg.
    + exact Hlen.
    + intros entries' Hm. apply Hret. exact Hm.
Qed.

Lemma run_wg_ok sched s :
  wg_ok n s -> wg_ok n (FuseFS.run f path maxWorkers sched s).
Proof.
  revert s. induction sched as [|tid sched IH]; intros s Hs; [exact Hs|].
  cbn [FuseFS.run]. apply IH. destruct tid.
  - apply step_main_wg_ok, Hs.
  - apply step_worker_wg_ok, Hs.
Qed.

End WaitGroup.

(** X13.  [wg.Wait()] holds the calling thread until every goroutine is
    through:
    in the state in which the fan-out has returned there is one goroutine
    for each child, each of them has exited, and the listing returned is
    [dirEntries] as the last of them left it. *)
Lemma fan_out_returns_after_all {W} (f : FuseFS.t W) path children w sched entries :
  let s := FuseFS.run f path (FuseFS.maxWorkers_for children) sched
             (FuseFS.fan_out children w) in
  FuseFS.main s = FuseFS.mReturned entries ->
  List.length (FuseFS.workers s) = List.length children /\
  FuseFS.count FuseFS.unfinished (FuseFS.workers s) = 0%nat /\
  FuseFS.dirEntries s = entries.
Proof.
  intros s Hm.
  assert (H : wg_ok (List.length children) s).
  { apply run_wg_ok. split; [|split]; cbn; [reflexivity | lia |].
    intros es [=]. }
  destruct H as (Hwg & Hlen & Hret). destruct (Hret entries Hm) as [H0 Hd].
  rewrite Hm in Hlen. cbn [unspawned] in Hlen.
  split; [lia|]. split; [rewrite <- Hwg; exact H0 | exact Hd].
Qed.

Lemma fan_out_returns_after_all_witness :
  List.length
    (FuseFS.workers
       (FuseFS.run flat_fs "" (FuseFS.maxWorkers_for ["a"; "b"])
          lost_entry_schedule (FuseFS.fan_out ["a"; "b"] tt))) =
    List.length ["a"; "b"] /\
  FuseFS.count FuseFS.unfinished
    (FuseFS.workers
       (FuseFS.run flat_fs "" (FuseFS.maxWorkers_for ["a"; "b"])
          lost_entry_schedule (FuseFS.fan_out ["a"; "b"] tt))) = 0%nat /\
  FuseFS.dirEntries
    (FuseFS.run flat_fs "" (FuseFS.maxWorkers_for ["a"; "b"])
       lost_entry_schedule (FuseFS.fan_out ["a"; "b"] tt)) =
    [FuseFS.marker_entry; FuseFS.probe_entry "b" (leaf_Stat 2)].
Proof.
  apply (fan_out_returns_after_all flat_fs "" ["a"; "b"] tt lost_entry_schedule
           [FuseFS.marker_entry; FuseFS.probe_entry "b" (leaf_Stat 2)]).
  vm_compute. reflexivity.
Defined.

(** C3 at a directory with the two children [a] and [b], both present.
    Both goroutines hold a slot of [chanLimiter] (two slots for two
    children), and both have read [dirEntries] for their [append] before
    either has written its result back: the two read-modify-write
    sequences on the shared slice overlap, with nothing to order them. *)
Theorem OpenDir_appends_overlap :
  let s := FuseFS.run flat_fs "" (FuseFS.maxWorkers_for ["a"; "b"])
             overlap_schedule (FuseFS.fan_out ["a"; "b"] tt) in
  FuseFS.workers s =
    [FuseFS.wStore (FuseFS.probe_entry "a" (leaf_Stat 2)) [FuseFS.marker_entry];
     FuseFS.wStore (FuseFS.probe_entry "b" (leaf_Stat 2)) [FuseFS.marker_entry]] /\
  FuseFS.count FuseFS.appending (FuseFS.workers s) = 2%nat /\
  FuseFS.chanLimiter s = 2%nat /\
  FuseFS.dirEntries s = [FuseFS.marker_entry].
Proof. vm_compute. repeat split. Qed.

(** C6 at the same directory: when the overlapping appends complete, the
    second write replaces the first, and [OpenDir] returns a listing
    without the entry of [a], a child whose probe reported presence. *)
Theorem OpenDir_loses_present_child :
  on_Exists flat_store "/a" = Ok (true, leaf_Stat 2) /\
  on_Exists flat_store "/b" = Ok (true, leaf_Stat 2) /\
  FuseFS.OpenDir flat_fs "" lost_entry_schedule tt =
  Some ((Some [FuseFS.marker_entry; FuseFS.probe_entry "b" (leaf_Stat 2)],
         fuse.OK), tt).
Proof. vm_compute. repeat split. Qed.

Section Soundness.

Local Open Scope list_scope.

Context {W : Type}.
Variables (f : FuseFS.t W) (path : string) (maxWorkers : nat)
          (children : list string).

Lemma listing_of_append entries e :
  listing_of f path children entries -> probed f path children e ->
  listing_of f path children (entries ++ [e]).
Proof.
  intros [l [-> Hl]] He. exists (l ++ [e]). split; [reflexivity|].
  apply Forall_app. split; [exact Hl | constructor; [exact He | constructor]].
Qed.

Lemma step_worker_entries_ok i s :
  entries_ok f path children s ->
  entries_ok f path children (FuseFS.step_worker f path maxWorkers i s).
Proof.
  intros (Hd & Hw & Hm). unfold FuseFS.step_worker.
  destruct (FuseFS.workers s !! i) as [wk|] eqn:Hi; [|(split; [|split]; assumption)].
  pose proof (Forall_lookup_1 _ _ _ _ Hw Hi) as Hwk.
  destruct wk; cbn [worker_ok] in Hwk.
  - destruct (FuseFS.chanLimiter s <? maxWorkers)%nat; [|(split; [|split]; assumption)].
    (split; [|split]); cbn [FuseFS.dirEntries FuseFS.workers FuseFS.main]; try assumption.
    apply Forall_insert; assumption.
  - destruct (Zoohandler.Exists _ _ _) as [[[[|] stat]|e] w'] eqn:He;
      (split; [|split]); cbn [FuseFS.dirEntries FuseFS.workers FuseFS.main negb];
      try assumption; apply Forall_insert; try assumption; cbn [worker_ok]; try exact I.
    exists directory, stat, (FuseFS.world s), w'.
    split; [assumption|]. split; [exact He | reflexivity].
  - (split; [|split]); cbn [FuseFS.dirEntries FuseFS.workers FuseFS.main FuseFS.set_worker];
      try assumption.
    apply Forall_insert; [assumption|]. split; assumption.
  - destruct Hwk as [He Hseen].
    (split; [|split]); cbn [FuseFS.dirEntries FuseFS.workers FuseFS.main]; try assumption.
    + apply listing_of_append; assumption.
    + apply Forall_insert; [assumption | exact I].
  - (split; [|split]); cbn [FuseFS.dirEntries FuseFS.workers FuseFS.main]; try assumption.
    apply Forall_insert; [assumption | exact I].
  - (split; [|split]); cbn [FuseFS.dirEntries FuseFS.workers FuseFS.main]; try assumption.
    apply Forall_insert; [assumption | exact I].
  - (split; [|split]; assumption).
Qed.

Lemma step_main_entries_ok s :
  entries_ok f path children s -> entries_ok f path children (FuseFS.step_main s).
Proof.
  intros (Hd & Hw & Hm). unfold FuseFS.step_main.
  destruct (FuseFS.main s) as [[|child rest]| |entries] eqn:Hmain; cbn [main_ok] in Hm.
  - split; [|split]; cbn [FuseFS.dirEntries FuseFS.workers FuseFS.main main_ok];
      first [assumption | exact I].
  - (split; [|split]); cbn [FuseFS.dirEntries FuseFS.workers FuseFS.main main_ok];
      try assumption.
    + apply Forall_app. split; [assumption|].
      constructor; [|constructor]. cbn [worker_ok]. apply Hm. left. reflexivity.
    + intros c Hc. apply Hm. right. exact Hc.
  - destruct (FuseFS.wg s =? 0)%nat;
      (split; [|split]); cbn [FuseFS.dirEntries FuseFS.workers FuseFS.main main_ok];
      rewrite ?Hmain; cbn [main_ok]; first [assumption | exact I].
  - split; [|split]; rewrite ?Hmain; cbn [main_ok]; assumption.
Qed.

Lemma run_entries_ok sched s :
  entries_ok f path children s ->
  entries_ok f path children (FuseFS.run f path maxWorkers sched s).
Proof.
  revert s. induction sched as [|tid sched IH]; intros s Hs; [exact Hs|].
  cbn [FuseFS.run]. apply IH. destruct tid.
  - apply step_main_entries_ok, Hs.
  - apply step_worker_entries_ok, Hs.
Qed.

End Soundness.

(** In the model, where the slice is read and written as a whole: whatever
    the schedule, a listing that [OpenDir] returns begins with
    the marker entry, and each further entry is the entry of a child whose
    probe reported presence; the status is OK. *)
Lemma OpenDir_listing_sound {W} (f : FuseFS.t W) path sched w children stat w1
    r st w2 :
  Zoohandler.Children (FuseFS.zh f) path w = (Ok (children, stat), w1) ->
  FuseFS.OpenDir f path sched w = Some ((r, st), w2) ->
  st = fuse.OK /\
  exists entries, r = Some entries /\ listing_of f path children entries.
Proof.
  intros Hc. unfold FuseFS.OpenDir. rewrite Hc.
  destruct (List.length children =? 0)%nat.
  - intros [= <- <- _]. split; [reflexivity|].
    eexists. split; [reflexivity|]. exists []. split; [reflexivity | constructor].
  - pose proof (run_entries_ok f path (FuseFS.maxWorkers_for children) children
                  sched (FuseFS.fan_out children w1)) as Hrun.
    destruct (FuseFS.main _) as [rest| |entries] eqn:Hmain; try discriminate.
    intros [= <- <- _]. split; [reflexivity|].
    exists entries. split; [reflexivity|].
    assert (H0 : entries_ok f path children (FuseFS.fan_out children w1)).
    { (split; [|split]); cbn.
      - exists []. split; [reflexivity | constructor].
      - constructor.
      - intros c Hin. exact Hin. }
    destruct (Hrun H0) as (_ & _ & Hm). rewrite Hmain in Hm. exact Hm.
Qed.

(** When [Children] fails, [OpenDir] answers ENOENT with no listing,
    under every schedule, and no probe is made. *)
Lemma OpenDir_Children_fails {W} (f : FuseFS.t W) path sched w e w1 :
  Zoohandler.Children (FuseFS.zh f) path w = (Err e, w1) ->
  FuseFS.OpenDir f path sched w = Some ((None, fuse.ENOENT), w1).
Proof. intros Hc. unfold FuseFS.OpenDir. rewrite Hc. reflexivity. Qed.

Section Sequential.

Local Open Scope list_scope.

Context {W : Type}.
Variables (f : FuseFS.t W) (path : string) (maxWorkers : nat).
Lemma run_app sched1 sched2 (s : @FuseFS.State W) :
  FuseFS.run f path maxWorkers (sched1 ++ sched2) s =
  FuseFS.run f path maxWorkers sched2 (FuseFS.run f path maxWorkers sched1 s).
Proof.
  revert s. induction sched1 as [|tid sched1 IH]; intros s; [reflexivity|].
  cbn [app FuseFS.run]. apply IH.
Qed.

Lemma lookup_at_length (done rest : list FuseFS.Worker) wk :
  ((done ++ wk :: rest)%list : list FuseFS.Worker) !! List.length done = Some wk.
Proof. apply list_lookup_middle. reflexivity. Qed.

Lemma insert_at_length (done rest : list FuseFS.Worker) wk wk' :
  <[List.length done := wk']> (done ++ wk :: rest)%list = (done ++ wk' :: rest)%list.
Proof.
  induction done as [|x done IH]; [reflexivity|].
  cbn [List.length app].
  change (<[S (List.length done) := wk']> (x :: (done ++ wk :: rest)))
    with (x :: <[List.length done := wk']> (done ++ wk :: rest)).
  rewrite IH. reflexivity.
Qed.

(** The calling thread starts a goroutine for each child. *)
Lemma run_spawn children w entries ws k :
  FuseFS.run f path maxWorkers (repeat FuseFS.tMain (S (List.length children)))
    {| FuseFS.world := w; FuseFS.dirEntries := entries; FuseFS.chanLimiter := 0;
       FuseFS.wg := k; FuseFS.main := FuseFS.mSpawn children;
       FuseFS.workers := ws |} =
    {| FuseFS.world := w; FuseFS.dirEntries := entries; FuseFS.chanLimiter := 0;
       FuseFS.wg := (k + List.length children)%nat; FuseFS.main := FuseFS.mWait;
       FuseFS.workers := ws ++ List.map FuseFS.wSend children |}.
Proof.
  revert ws k. induction children as [|child rest IH]; intros ws k.
  - cbn. rewrite app_nil_r, Nat.add_0_r. reflexivity.
  - cbn [List.length].
    change (repeat FuseFS.tMain (S (S (List.length rest))))
      with (FuseFS.tMain :: repeat FuseFS.tMain (S (List.length rest))).
    cbn [FuseFS.run FuseFS.step FuseFS.step_main FuseFS.main
         FuseFS.world FuseFS.dirEntries FuseFS.chanLimiter FuseFS.wg FuseFS.workers].
    rewrite (IH (ws ++ [FuseFS.wSend child]) (S k)).
    rewrite <- app_assoc. cbn [List.map app].
    replace (S k + List.length rest)%nat with (k + S (List.length rest))%nat by lia.
    reflexivity.
Qed.

Hypothesis Hslot : (1 <= maxWorkers)%nat.

Tactic Notation "worker_step" integer(n) :=
  unfold FuseFS.step_worker at n, FuseFS.set_worker;
  cbn [FuseFS.workers FuseFS.chanLimiter FuseFS.world FuseFS.dirEntries
       FuseFS.wg FuseFS.main];
  rewrite ?insert_at_length, ?lookup_at_length;
  cbn [FuseFS.workers FuseFS.chanLimiter FuseFS.world FuseFS.dirEntries
       FuseFS.wg FuseFS.main Nat.pred].

(** One goroutine, run alone from its start to its end, does what one
    round of the sequential loop does. *)
Lemma run_one_worker done child rest w entries k :
  FuseFS.run f path maxWorkers (repeat (FuseFS.tWorker (List.length done)) 6)
    {| FuseFS.world := w; FuseFS.dirEntries := entries; FuseFS.chanLimiter := 0;
       FuseFS.wg := S k; FuseFS.main := FuseFS.mWait;
       FuseFS.workers := done ++ FuseFS.wSend child :: rest |} =
    {| FuseFS.world := snd (FuseFS.probe_loop f path [child] entries w);
       FuseFS.dirEntries := fst (FuseFS.probe_loop f path [child] entries w);
       FuseFS.chanLimiter := 0;
       FuseFS.wg := k; FuseFS.main := FuseFS.mWait;
       FuseFS.workers := done ++ FuseFS.wExited :: rest |}.
Proof.
  cbn [repeat FuseFS.run FuseFS.step].
  worker_step 6.
  destruct (Nat.ltb_spec 0 maxWorkers) as [_|]; [|lia].
  worker_step 5.
  cbn [FuseFS.probe_loop].
  destruct (Zoohandler.Exists (FuseFS.zh f) _ w) as [[[[|] stat]|e] w'];
    cbn [negb fst snd];
    worker_step 4; worker_step 3; worker_step 2; worker_step 1;
    reflexivity.
Qed.

Lemma probe_loop_cons child rest entries w :
  FuseFS.probe_loop f path (child :: rest) entries w =
  FuseFS.probe_loop f path rest
    (fst (FuseFS.probe_loop f path [child] entries w))
    (snd (FuseFS.probe_loop f path [child] entries w)).
Proof.
  cbn [FuseFS.probe_loop].
  destruct (Zoohandler.Exists (FuseFS.zh f) _ w) as [[[[|] stat]|e] w'];
    reflexivity.
Qed.

(** The goroutines, run one after the other, do what the sequential loop
    does. *)
Lemma run_workers children done w entries :
  FuseFS.run f path maxWorkers
    (flat_map (fun i => repeat (FuseFS.tWorker i) 6)
       (seq (List.length done) (List.length children)))
    {| FuseFS.world := w; FuseFS.dirEntries := entries; FuseFS.chanLimiter := 0;
       FuseFS.wg := List.length children; FuseFS.main := FuseFS.mWait;
       FuseFS.workers := done ++ List.map FuseFS.wSend children |} =
    {| FuseFS.world := snd (FuseFS.probe_loop f path children entries w);
       FuseFS.dirEntries := fst (FuseFS.probe_loop f path children entries w);
       FuseFS.chanLimiter := 0; FuseFS.wg := 0; FuseFS.main := FuseFS.mWait;
       FuseFS.workers := done ++ repeat FuseFS.wExited (List.length children) |}.
Proof.
  revert done w entries.
  induction children as [|child rest IH]; intros done w entries; [reflexivity|].
  cbn [List.length seq flat_map List.map].
  rewrite run_app, run_one_worker, (probe_loop_cons child rest entries w).
  specialize (IH (done ++ [FuseFS.wExited])).
  rewrite length_app, Nat.add_1_r, <- !app_assoc in IH.
  cbn [List.length app] in IH. rewrite IH. reflexivity.
Qed.

End Sequential.

Lemma maxWorkers_for_pos (children : list string) :
  children <> [] -> (1 <= FuseFS.maxWorkers_for children)%nat.
Proof.
  intros Hne. rewrite maxWorkers_for_min.
  destruct children; [contradiction | cbn [List.length]; lia].
Qed.

(** Run one after the other, the goroutines of [OpenDir] lose nothing:
    the call returns the marker entry followed by what the sequential loop
    collects, and the gateway is left as that loop leaves it. *)
Lemma OpenDir_one_by_one {W} (f : FuseFS.t W) path w children stat w' :
  Zoohandler.Children (FuseFS.zh f) path w = (Ok (children, stat), w') ->
  FuseFS.OpenDir f path (FuseFS.one_by_one (List.length children)) w =
  Some ((Some (fst (FuseFS.probe_loop f path children [FuseFS.marker_entry] w')),
         fuse.OK),
        snd (FuseFS.probe_loop f path children [FuseFS.marker_entry] w')).
Proof.
  intros Hc. unfold FuseFS.OpenDir. rewrite Hc.
  destruct children as [|child rest]; [reflexivity|].
  change (List.length (child :: rest) =? 0)%nat with false. cbv iota.
  unfold FuseFS.one_by_one, FuseFS.fan_out.
  rewrite !run_app, run_spawn.
  assert (Hne : child :: rest <> []) by discriminate.
  pose proof (run_workers f path (FuseFS.maxWorkers_for (child :: rest))
                (maxWorkers_for_pos (child :: rest) Hne)
                (child :: rest) [] w' [FuseFS.marker_entry]) as Hrun.
  change (List.length (@nil FuseFS.Worker)) with 0%nat in Hrun.
  change (0 + List.length (child :: rest))%nat with (List.length (child :: rest)).
  rewrite Hrun.
  reflexivity.
Qed.

Section Length.

Local Open Scope list_scope.
Local Open Scope nat_scope.

Context {W : Type}.
Variables (f : FuseFS.t W) (path : string) (maxWorkers : nat).

Lemma count_le_length p (l : list FuseFS.Worker) :
  FuseFS.count p l <= List.length l.
Proof. unfold FuseFS.count. apply filter_length_le. Qed.

Lemma seen_bound_mono (b b' : nat) (l : list FuseFS.Worker) :
  b <= b' ->
  Forall (fun wk => match wk with
                    | FuseFS.wStore _ seen => List.length seen <= b
                    | _ => True
                    end) l ->
  Forall (fun wk => match wk with
                    | FuseFS.wStore _ seen => List.length seen <= b'
                    | _ => True
                    end) l.
Proof.
  intros Hb H. eapply List.Forall_impl; [|exact H].
  intros [] H'; try exact I. lia.
Qed.


Lemma step_worker_length_ok i s :
  length_ok s -> length_ok (FuseFS.step_worker f path maxWorkers i s).
Proof.
  intros (Hd & Hw & Hm). unfold FuseFS.step_worker.
  destruct (FuseFS.workers s !! i) as [wk|] eqn:Hi; [|split; [|split]; assumption].
  assert (Hins : forall new,
            FuseFS.count past_append (<[i := new]> (FuseFS.workers s)) +
            (if past_append wk then 1 else 0) =
            FuseFS.count past_append (FuseFS.workers s) +
            (if past_append new then 1 else 0)).
  { intros new. apply count_insert, Hi. }
  pose proof (Forall_lookup_1 _ _ _ _ Hw Hi) as Hwk. cbv beta in Hwk.
  assert (Hstep : forall new dirEntries',
            past_append wk = true \/ (past_append wk = false) ->
            FuseFS.count past_append (FuseFS.workers s) <=
              FuseFS.count past_append (<[i := new]> (FuseFS.workers s)) ->
            List.length dirEntries' <=
              S (FuseFS.count past_append (<[i := new]> (FuseFS.workers s))) ->
            match new with
            | FuseFS.wStore _ seen =>
                List.length seen <=
                  S (FuseFS.count past_append (<[i := new]> (FuseFS.workers s)))
            | _ => True
            end ->
            forall (w' : W) c g,
            length_ok {| FuseFS.world := w'; FuseFS.dirEntries := dirEntries';
                         FuseFS.chanLimiter := c; FuseFS.wg := g;
                         FuseFS.main := FuseFS.main s;
                         FuseFS.workers := <[i := new]> (FuseFS.workers s) |}).
  { intros new dirEntries' _ Hmono Hlen Hnew w' c g.
    split; [|split]; cbn [FuseFS.dirEntries FuseFS.workers FuseFS.main].
    - exact Hlen.
    - apply Forall_insert; [|exact Hnew].
      eapply seen_bound_mono; [|exact Hw]. lia.
    - intros entries He. specialize (Hm entries He). lia. }
  destruct wk; cbn [past_append] in Hins; cbv beta iota in Hwk.

  - destruct (FuseFS.chanLimiter s <? maxWorkers); [|split; [|split]; assumption].
    specialize (Hins (FuseFS.wExists directory)). cbn [past_append] in Hins.
    apply Hstep; [auto | lia | lia | exact I].
  - destruct (Zoohandler.Exists _ _ _) as [[[[|] stat]|e] w']; cbn [negb];
      match goal with
      | |- context [<[i := ?new]> _] =>
          specialize (Hins new); cbn [past_append negb] in Hins;
          apply Hstep; [auto | lia | lia | exact I]
      end.
  - specialize (Hins (FuseFS.wStore dirEntry (FuseFS.dirEntries s))).
    cbn [past_append] in Hins. unfold FuseFS.set_worker.
    apply Hstep; [auto | lia | lia | lia].
  - specialize (Hins FuseFS.wRecv). cbn [past_append] in Hins.
    apply Hstep; [auto | lia | | exact I].
    rewrite length_app. cbn [List.length]. lia.
  - specialize (Hins FuseFS.wDone). cbn [past_append] in Hins.
    apply Hstep; [auto | lia | lia | exact I].
  - specialize (Hins FuseFS.wExited). cbn [past_append] in Hins.
    apply Hstep; [auto | lia | lia | exact I].
  - split; [|split]; assumption.
Qed.

Lemma step_main_length_ok (s : @FuseFS.State W) :
  length_ok s -> length_ok (FuseFS.step_main s).
Proof.
  intros (Hd & Hw & Hm). unfold FuseFS.step_main.
  destruct (FuseFS.main s) as [[|child rest]| |entries] eqn:Hmain.
  - split; [|split]; cbn [FuseFS.dirEntries FuseFS.workers FuseFS.main];
      [exact Hd | exact Hw | intros entries [=]].
  - split; [|split]; cbn [FuseFS.dirEntries FuseFS.workers FuseFS.main];
      rewrite ?count_app; cbn [FuseFS.count List.filter past_append List.length].
    + unfold FuseFS.count in *. lia.
    + apply Forall_app. split.
      * eapply seen_bound_mono; [|exact Hw]. unfold FuseFS.count. lia.
      * constructor; [exact I | constructor].
    + intros entries [=].
  - destruct (FuseFS.wg s =? 0).
    + split; [|split]; cbn [FuseFS.dirEntries FuseFS.workers FuseFS.main];
        [exact Hd | exact Hw |].
      intros entries [= <-]. exact Hd.
    + split; [|split]; [exact Hd | exact Hw |].
      intros es He. rewrite Hmain in He. discriminate.
  - split; [|split]; [exact Hd | exact Hw |].
    intros es He. rewrite Hmain in He. apply Hm, He.
Qed.

Lemma run_length_ok sched s :
  length_ok s -> length_ok (FuseFS.run f path maxWorkers sched s).
Proof.
  revert s. induction sched as [|tid sched IH]; intros s Hs; [exact Hs|].
  cbn [FuseFS.run]. apply IH. destruct tid.
  - apply step_main_length_ok, Hs.
  - apply step_worker_length_ok, Hs.
Qed.

End Length.

(** X15.  Under no schedule does [OpenDir] return more entries than the
    directory has children, the marker entry apart. *)
Theorem OpenDir_no_more_than_children {W} (f : FuseFS.t W) path sched w
    children stat w1 entries st w2
    (Hchildren : Zoohandler.Children (FuseFS.zh f) path w =
                 (Ok (children, stat), w1))
    (Hopen : FuseFS.OpenDir f path sched w = Some ((Some entries, st), w2)) :
  (List.length entries <= 1 + List.length children)%nat.
Proof.
  unfold FuseFS.OpenDir in Hopen. rewrite Hchildren in Hopen.
  destruct (List.length children =? 0)%nat.
  { injection Hopen as <- _ _. cbn. lia. }
  set (s := FuseFS.run f path (FuseFS.maxWorkers_for children) sched
              (FuseFS.fan_out children w1)) in *.
  assert (Hlen : length_ok s).
  { apply run_length_ok. split; [|split]; cbn.
    - lia.
    - constructor.
    - intros es [=]. }
  assert (Hwg : wg_ok (List.length children) s).
  { apply run_wg_ok. split; [|split]; cbn; [reflexivity | lia |].
    intros es [=]. }
  destruct (FuseFS.main s) as [rest| |es] eqn:Hmain; try discriminate.
  injection Hopen as <- _ _.
  destruct Hlen as (_ & _ & Hm). specialize (Hm es Hmain).
  destruct Hwg as (_ & Hn & _). rewrite Hmain in Hn. cbn [unspawned] in Hn.
  pose proof (count_le_length past_append (FuseFS.workers s)). lia.
Qed.

Lemma OpenDir_no_more_than_children_witness :
  (List.length [FuseFS.marker_entry; FuseFS.probe_entry "b" (leaf_Stat 2)]
   <= 1 + List.length ["a"; "b"])%nat.
Proof.
  apply (OpenDir_no_more_than_children flat_fs "" lost_entry_schedule tt
           ["a"; "b"] (leaf_Stat 0) tt
           [FuseFS.marker_entry; FuseFS.probe_entry "b" (leaf_Stat 2)]
           fuse.OK tt eq_refl).
  vm_compute. reflexivity.
Defined.

Section Drain.

Local Open Scope list_scope.
Local Open Scope nat_scope.

Context {W : Type}.
Variables (f : FuseFS.t W) (path : string) (maxWorkers : nat).

(** A goroutine that is not blocked comes one step nearer to its end;
    nothing of the other goroutines or of the calling thread changes. *)
Lemma step_worker_progress i s wk :
  FuseFS.workers s !! i = Some wk ->
  admitted wk \/ FuseFS.chanLimiter s < maxWorkers ->
  exists wk',
    FuseFS.workers (FuseFS.step_worker f path maxWorkers i s) =
      <[i := wk']> (FuseFS.workers s) /\
    FuseFS.main (FuseFS.step_worker f path maxWorkers i s) = FuseFS.main s /\
    admitted wk' /\ steps_left wk' <= pred (steps_left wk).
Proof.
  intros Hi Hfree. unfold FuseFS.step_worker. rewrite Hi.
  destruct wk; cbn [steps_left pred admitted] in *.
  - destruct (Nat.ltb_spec (FuseFS.chanLimiter s) maxWorkers) as [_|Hfull].
    + eexists. cbn [FuseFS.workers FuseFS.main].
      split; [reflexivity|]. split; [reflexivity|]. split; [exact I | cbn; lia].
    + destruct Hfree as [[]|Hlt]. lia.
  - destruct (Zoohandler.Exists _ _ _) as [[[[|] stat]|e] w']; cbn [negb];
      eexists; cbn [FuseFS.workers FuseFS.main];
      (split; [reflexivity|]); (split; [reflexivity|]);
      (split; [exact I | cbn; lia]).
  - eexists. cbn [FuseFS.set_worker FuseFS.workers FuseFS.main].
    split; [reflexivity|]. split; [reflexivity|]. split; [exact I | cbn; lia].
  - eexists. cbn [FuseFS.workers FuseFS.main].
    split; [reflexivity|]. split; [reflexivity|]. split; [exact I | cbn; lia].
  - eexists. cbn [FuseFS.workers FuseFS.main].
    split; [reflexivity|]. split; [reflexivity|]. split; [exact I | cbn; lia].
  - eexists. cbn [FuseFS.workers FuseFS.main].
    split; [reflexivity|]. split; [reflexivity|]. split; [exact I | cbn; lia].
  - exists FuseFS.wExited. split; [|split; [reflexivity|split; [exact I|cbn; lia]]].
    symmetry. apply list_insert_id, Hi.
Qed.

(** Once it holds a slot, a goroutine left to run reaches its end. *)
Lemma run_admitted k i s wk :
  FuseFS.workers s !! i = Some wk -> admitted wk -> steps_left wk <= k ->
  FuseFS.workers (FuseFS.run f path maxWorkers (repeat (FuseFS.tWorker i) k) s) =
    <[i := FuseFS.wExited]> (FuseFS.workers s) /\
  FuseFS.main (FuseFS.run f path maxWorkers (repeat (FuseFS.tWorker i) k) s)
      = FuseFS.main s.
Proof.
  revert s wk. induction k as [|k IH]; intros s wk Hi Hadm Hk.
  - cbn [repeat FuseFS.run]. split; [|reflexivity].
    destruct wk; cbn [steps_left] in Hk; try lia.
    symmetry. apply list_insert_id, Hi.
  - cbn [repeat FuseFS.run FuseFS.step].
    destruct (step_worker_progress i s wk Hi (or_introl Hadm))
      as (wk' & Hws & Hmain & Hadm' & Hless).
    assert (Hi' : FuseFS.workers (FuseFS.step_worker f path maxWorkers i s) !! i
        = Some wk').
    { rewrite Hws. apply list_lookup_insert_eq.
      apply lookup_lt_Some in Hi. exact Hi. }
    destruct (IH _ wk' Hi' Hadm' ltac:(lia)) as [Hws' Hmain'].
    rewrite Hws', Hmain', Hws, Hmain. rewrite list_insert_insert_eq.
    split; reflexivity.
Qed.

Lemma run_blocked k i (s : @FuseFS.State W) :
  FuseFS.step_worker f path maxWorkers i s = s -> FuseFS.run f path maxWorkers
      (repeat (FuseFS.tWorker i) k) s = s.
Proof.
  intros Hs. induction k as [|k IH]; [reflexivity|].
  cbn [repeat FuseFS.run FuseFS.step]. rewrite Hs. exact IH.
Qed.

(** A goroutine that finds a free slot, or holds one, reaches its end
    when it is left to run. *)
Lemma run_free k i s wk :
  FuseFS.workers s !! i = Some wk ->
  FuseFS.chanLimiter s < maxWorkers \/ admitted wk ->
  steps_left wk <= S k ->
  FuseFS.workers (FuseFS.run f path maxWorkers (repeat (FuseFS.tWorker i) (S k)) s) =
    <[i := FuseFS.wExited]> (FuseFS.workers s) /\
  FuseFS.main (FuseFS.run f path maxWorkers (repeat (FuseFS.tWorker i) (S k)) s)
      = FuseFS.main s.
Proof.
  intros Hi Hfree Hk.
  cbn [repeat FuseFS.run FuseFS.step].
  destruct (step_worker_progress i s wk Hi ltac:(tauto))
    as (wk' & Hws & Hmain & Hadm' & Hless).
  assert (Hi' : FuseFS.workers (FuseFS.step_worker f path maxWorkers i s) !! i
      = Some wk').
  { rewrite Hws. apply list_lookup_insert_eq.
    apply lookup_lt_Some in Hi. exact Hi. }
  destruct (run_admitted k i _ wk' Hi' Hadm' ltac:(lia)) as [Hws' Hmain'].
  rewrite Hws', Hmain', Hws, Hmain, list_insert_insert_eq.
  split; reflexivity.
Qed.

Lemma steps_left_six wk : steps_left wk <= 6.
Proof. destruct wk; cbn [steps_left]; lia. Qed.

(** Six steps bring a goroutine to rest: to its end, or, where there is
    no free slot, nowhere. *)
Lemma run_six i s wk :
  FuseFS.workers s !! i = Some wk ->
  FuseFS.run f path maxWorkers (repeat (FuseFS.tWorker i) 6) s = s /\ at_rest wk \/
  FuseFS.workers (FuseFS.run f path maxWorkers (repeat (FuseFS.tWorker i) 6) s) =
    <[i := FuseFS.wExited]> (FuseFS.workers s) /\
  FuseFS.main (FuseFS.run f path maxWorkers (repeat (FuseFS.tWorker i) 6) s)
      = FuseFS.main s.
Proof.
  intros Hi.
  destruct (Nat.lt_ge_cases (FuseFS.chanLimiter s) maxWorkers) as [Hlt|Hfull].
  { right. apply (run_free 5 i s wk Hi); [left; exact Hlt | apply steps_left_six]. }
  destruct wk;
    try (right; apply (run_free 5 i s _ Hi); [right; exact I | apply steps_left_six]).
  left. split; [|exact I].
  apply run_blocked. unfold FuseFS.step_worker. rewrite Hi.
  destruct (Nat.ltb_spec (FuseFS.chanLimiter s) maxWorkers); [lia | reflexivity].
Qed.

Lemma run_six_none i (s : @FuseFS.State W) :
  FuseFS.workers s !! i = None -> FuseFS.run f path maxWorkers (repeat
      (FuseFS.tWorker i) 6) s = s.
Proof.
  intros Hi. apply run_blocked. unfold FuseFS.step_worker. rewrite Hi.
  reflexivity.
Qed.

Lemma each_in_turn_S n :
  each_in_turn (S n) = each_in_turn n ++ repeat (FuseFS.tWorker n) 6.
Proof.
  unfold each_in_turn. rewrite seq_S, flat_map_app. cbn [flat_map plus].
  rewrite app_nil_r. reflexivity.
Qed.

(** After a first round the goroutines that were in flight have exited. *)
Lemma first_round n s :
  FuseFS.main (FuseFS.run f path maxWorkers (each_in_turn n) s) = FuseFS.main s /\
  List.length (FuseFS.workers (FuseFS.run f path maxWorkers (each_in_turn n) s)) =
    List.length (FuseFS.workers s) /\
  (forall j wk, j < n -> FuseFS.workers (FuseFS.run f path maxWorkers
      (each_in_turn n) s) !! j = Some wk ->
                at_rest wk).
Proof.
  induction n as [|n IH].
  - cbn [each_in_turn seq flat_map FuseFS.run].
    split; [reflexivity|]. split; [reflexivity | lia].
  - rewrite each_in_turn_S, run_app.
    destruct IH as (Hmain & Hlen & Hrest).
    remember (FuseFS.run f path maxWorkers (each_in_turn n) s)
        as s1 eqn:Hs1. clear Hs1.
    destruct (FuseFS.workers s1 !! n) as [wk|] eqn:Hn.
    + destruct (run_six n s1 wk Hn) as [[Hs Hat] | [Hws Hmain']].
      * rewrite Hs. split; [exact Hmain|]. split; [exact Hlen|].
        intros j wk' Hj Hl. destruct (Nat.eq_dec j n) as [->|Hne].
        -- rewrite Hn in Hl. injection Hl as <-. exact Hat.
        -- apply (Hrest j wk'); [lia | exact Hl].
      * rewrite Hws, Hmain', length_insert.
        split; [exact Hmain|]. split; [exact Hlen|].
        intros j wk' Hj Hl. destruct (Nat.eq_dec j n) as [->|Hne].
        -- rewrite list_lookup_insert_eq in Hl
             by (apply lookup_lt_Some in Hn; exact Hn).
           injection Hl as <-. exact I.
        -- rewrite list_lookup_insert_ne in Hl by lia.
           apply (Hrest j wk'); [lia | exact Hl].
    + rewrite (run_six_none n s1 Hn).
      split; [exact Hmain|]. split; [exact Hlen|].
      intros j wk' Hj Hl. destruct (Nat.eq_dec j n) as [->|Hne].
      * rewrite Hn in Hl. discriminate.
      * apply (Hrest j wk'); [lia | exact Hl].
Qed.

Lemma at_rest_free (ws : list FuseFS.Worker) :
  Forall at_rest ws -> FuseFS.count FuseFS.in_flight ws = 0.
Proof.
  induction 1 as [|wk ws Hwk _ IH]; [reflexivity|].
  unfold FuseFS.count in *. cbn [List.filter].
  destruct wk; cbn [at_rest FuseFS.in_flight] in *; try contradiction; exact IH.
Qed.

(** With every goroutine at rest all slots are free, and a second round
    takes each of them to its end. *)
Lemma second_round n s :
  0 < maxWorkers -> slots_ok maxWorkers s -> Forall at_rest (FuseFS.workers s) ->
  FuseFS.main (FuseFS.run f path maxWorkers (each_in_turn n) s) = FuseFS.main s /\
  Forall at_rest (FuseFS.workers (FuseFS.run f path maxWorkers (each_in_turn n) s)) /\
  List.length (FuseFS.workers (FuseFS.run f path maxWorkers (each_in_turn n) s)) =
    List.length (FuseFS.workers s) /\
  (forall j wk, j < n -> FuseFS.workers (FuseFS.run f path maxWorkers
      (each_in_turn n) s) !! j = Some wk ->
                wk = FuseFS.wExited).
Proof.
  intros Hpos Hslots Hall. induction n as [|n IH].
  - cbn [each_in_turn seq flat_map FuseFS.run].
    split; [reflexivity|]. split; [exact Hall|]. split; [reflexivity | lia].
  - rewrite each_in_turn_S, run_app.
    destruct IH as (Hmain & Hrest & Hlen & Hdone).
    assert (Hslots1 : slots_ok maxWorkers (FuseFS.run f path maxWorkers
        (each_in_turn n) s))
      by (apply run_slots_ok, Hslots).
    remember (FuseFS.run f path maxWorkers (each_in_turn n) s)
        as s1 eqn:Hs1. clear Hs1.
    destruct (FuseFS.workers s1 !! n) as [wk|] eqn:Hn.
    + destruct (run_free 5 n s1 wk Hn) as [Hws Hmain'].
      { left. destruct Hslots1 as [Hc _].
        rewrite <- Hc, at_rest_free by exact Hrest. exact Hpos. }
      { apply steps_left_six. }
      rewrite Hws, Hmain', length_insert.
      split; [exact Hmain|]. split; [|split; [exact Hlen|]].
      * apply Forall_insert; [exact Hrest | exact I].
      * intros j wk' Hj Hl. destruct (Nat.eq_dec j n) as [->|Hne].
        -- rewrite list_lookup_insert_eq in Hl
             by (apply lookup_lt_Some in Hn; exact Hn).
           injection Hl as <-. reflexivity.
        -- rewrite list_lookup_insert_ne in Hl by lia.
           apply (Hdone j wk'); [lia | exact Hl].
    + rewrite (run_six_none n s1 Hn).
      split; [exact Hmain|]. split; [exact Hrest|]. split; [exact Hlen|].
      intros j wk' Hj Hl. destruct (Nat.eq_dec j n) as [->|Hne].
      * rewrite Hn in Hl. discriminate.
      * apply (Hdone j wk'); [lia | exact Hl].
Qed.

Lemma all_exited (ws : list FuseFS.Worker) :
  (forall j wk, ws !! j = Some wk -> wk = FuseFS.wExited) ->
  FuseFS.count FuseFS.unfinished ws = 0.
Proof.
  induction ws as [|wk ws IH]; intros Hall; [reflexivity|].
  unfold FuseFS.count in *. cbn [List.filter].
  rewrite (Hall 0 wk eq_refl). cbn [FuseFS.unfinished].
  apply IH. intros j wk' Hj. apply (Hall (S j) wk'). exact Hj.
Qed.

(** The calling thread is through its loop after one step for each child
    that is left, and one more. *)
Lemma run_main k (s : @FuseFS.State W) :
  spawned (FuseFS.main s) \/ unspawned (FuseFS.main s) < k ->
  spawned (FuseFS.main (FuseFS.run f path maxWorkers (repeat FuseFS.tMain k) s)).
Proof.
  revert s. induction k as [|k IH]; intros s Hs.
  - cbn [repeat FuseFS.run]. destruct Hs as [Hs|Hs]; [exact Hs | lia].
  - cbn [repeat FuseFS.run FuseFS.step]. apply IH. unfold FuseFS.step_main.
    destruct (FuseFS.main s) as [[|child rest]| |entries] eqn:Hmain;
      cbn [FuseFS.main spawned unspawned List.length] in *.
    + left. exact I.
    + right. destruct Hs as [[]|Hs]. lia.
    + left. destruct (FuseFS.wg s =? 0); [exact I | rewrite Hmain; exact I].
    + left. rewrite Hmain. exact I.
Qed.

(** From wherever a fan-out over [n] children stands, [drain n] brings it
    to its return. *)
Lemma run_drain n s :
  0 < maxWorkers -> slots_ok maxWorkers s -> wg_ok n s ->
  exists entries, FuseFS.main (FuseFS.run f path maxWorkers (drain n) s)
      = FuseFS.mReturned entries.
Proof.
  intros Hpos Hslots Hwg. unfold drain. rewrite !run_app.
  assert (Hsp1 : spawned (FuseFS.main (FuseFS.run f path maxWorkers
      (repeat FuseFS.tMain (S n)) s))).
  { apply run_main. right. destruct Hwg as (_ & Hn & _). lia. }
  assert (Hwg1 : wg_ok n (FuseFS.run f path maxWorkers (repeat FuseFS.tMain (S n)) s))
    by (apply run_wg_ok, Hwg).
  assert (Hslots1 : slots_ok maxWorkers (FuseFS.run f path maxWorkers
      (repeat FuseFS.tMain (S n)) s))
    by (apply run_slots_ok, Hslots).
  remember (FuseFS.run f path maxWorkers (repeat FuseFS.tMain (S n)) s)
      as s1 eqn:Hs1. clear Hs1.
  assert (Hlen1 : List.length (FuseFS.workers s1) = n).
  { destruct Hwg1 as (_ & Hn & _).
    destruct (FuseFS.main s1); cbn [spawned unspawned] in *;
      [contradiction | lia | lia]. }
  destruct (first_round n s1) as (Hmain2 & Hlen2 & Hrest2).
  assert (Hslots2 : slots_ok maxWorkers (FuseFS.run f path maxWorkers
      (each_in_turn n) s1))
    by (apply run_slots_ok, Hslots1).
  assert (Hwg2 : wg_ok n (FuseFS.run f path maxWorkers (each_in_turn n) s1))
    by (apply run_wg_ok, Hwg1).
  remember (FuseFS.run f path maxWorkers (each_in_turn n) s1)
      as s2 eqn:Hs2. clear Hs2.
  assert (Hall2 : Forall at_rest (FuseFS.workers s2)).
  { apply Forall_lookup_2. intros j wk Hj. apply (Hrest2 j wk); [|exact Hj].
    apply lookup_lt_Some in Hj. lia. }
  destruct (second_round n s2 Hpos Hslots2 Hall2) as (Hmain3 & _ & Hlen3 & Hdone3).
  assert (Hwg3 : wg_ok n (FuseFS.run f path maxWorkers (each_in_turn n) s2))
    by (apply run_wg_ok, Hwg2).
  remember (FuseFS.run f path maxWorkers (each_in_turn n) s2)
      as s3 eqn:Hs3. clear Hs3.
  assert (Hzero : FuseFS.wg s3 = 0).
  { destruct Hwg3 as (-> & _ & _). apply all_exited. intros j wk Hj.
    apply (Hdone3 j wk); [|exact Hj]. apply lookup_lt_Some in Hj. lia. }
  cbn [FuseFS.run FuseFS.step]. unfold FuseFS.step_main.
  assert (Hsp3 : spawned (FuseFS.main s3)) by (rewrite Hmain3, Hmain2; exact Hsp1).
  destruct (FuseFS.main s3) as [rest| |entries] eqn:Hmain; [contradiction| |].
  - rewrite Hzero. cbn [Nat.eqb FuseFS.main]. eexists. reflexivity.
  - rewrite Hmain. eexists. reflexivity.
Qed.

End Drain.

(** X16.  [OpenDir] cannot get stuck: whatever its goroutines have done so
    far, there is a way on that brings the call to its return.  From the
    state after any schedule, the calling thread starts the goroutines that
    are left, those in flight run out and free their slots, the waiting ones
    follow, and [wg.Wait()] lets the calling thread through. *)
Theorem OpenDir_can_always_finish {W} (f : FuseFS.t W) path sched w
    children stat w1
    (Hchildren : Zoohandler.Children (FuseFS.zh f) path w =
                 (Ok (children, stat), w1)) :
  exists entries w2,
    FuseFS.OpenDir f path (sched ++ drain (List.length children))%list w =
    Some ((Some entries, fuse.OK), w2).
Proof.
  unfold FuseFS.OpenDir. rewrite Hchildren.
  destruct children as [|child rest]; [eexists; eexists; reflexivity|].
  change (List.length (child :: rest) =? 0)%nat with false. cbv iota.
  rewrite run_app.
  destruct (run_drain f path (FuseFS.maxWorkers_for (child :: rest))
              (List.length (child :: rest))
              (FuseFS.run f path (FuseFS.maxWorkers_for (child :: rest)) sched
                 (FuseFS.fan_out (child :: rest) w1)))
    as [entries Hmain].
  - apply maxWorkers_for_pos. discriminate.
  - apply run_slots_ok. split; cbn; [reflexivity | lia].
  - apply run_wg_ok. split; [|split]; cbn; [reflexivity | lia |].
    intros es [=].
  - rewrite Hmain. eexists. eexists. reflexivity.
Qed.

Lemma OpenDir_can_always_finish_witness :
  exists entries w2,
    FuseFS.OpenDir flat_fs ""
      (overlap_schedule ++ drain (List.length ["a"; "b"]))%list tt =
    Some ((Some entries, fuse.OK), w2).
Proof.
  apply (OpenDir_can_always_finish flat_fs "" overlap_schedule tt
           ["a"; "b"] (leaf_Stat 0) tt eq_refl).
Defined.

Section Sequential000.

Local Open Scope list_scope.

Context {W : Type}.
Implicit Types (f : FuseFS.t W) (path : string) (w : W).

(** The loop adds to the listing it is given. *)
Lemma probe_loop_adds f path c entries w :
  exists added,
    fst (FuseFS.probe_loop f path c entries w) = entries ++ added /\
    sublist (List.map fuse.Name added) c /\
    Forall (fun e => fuse.EntryMode e = fuse.S_IFDIR \/
                     fuse.EntryMode e = fuse.S_IFREG) added /\
    forall entries',
      FuseFS.probe_loop f path c entries' w =
      (entries' ++ added, snd (FuseFS.probe_loop f path c entries w)).
Proof.
  revert entries w. induction c as [|cld rest IH]; intros entries w.
  - exists []. cbn. rewrite app_nil_r. repeat split; [constructor | constructor |].
    intros entries'. rewrite app_nil_r. reflexivity.
  - cbn [FuseFS.probe_loop].
    destruct (Zoohandler.Exists (FuseFS.zh f) _ w) as [[[[|] stat]|e] w'];
      cbn [negb].
    + destruct (IH (entries ++ [FuseFS.probe_entry cld stat]) w')
        as (added & Hfst & Hsub & Hmode & Hany).
      exists (FuseFS.probe_entry cld stat :: added).
      split; [rewrite Hfst, <- app_assoc; reflexivity|].
      split; [cbn; constructor; exact Hsub|].
      split.
      { constructor; [|exact Hmode]. cbn.
        destruct (zk.NumChildren stat >? 0)%Z; [left | right]; reflexivity. }
      intros entries'. rewrite (Hany (entries' ++ [FuseFS.probe_entry cld stat])).
      rewrite <- app_assoc. reflexivity.
    + destruct (IH entries w') as (added & Hfst & Hsub & Hmode & Hany).
      exists added. split; [exact Hfst|].
      split; [apply sublist_cons; exact Hsub|]. split; [exact Hmode|]. exact Hany.
    + destruct (IH entries w') as (added & Hfst & Hsub & Hmode & Hany).
      exists added. split; [exact Hfst|].
      split; [apply sublist_cons; exact Hsub|]. split; [exact Hmode|]. exact Hany.
Qed.

(** X17.  The sequential [OpenDir] lists children only, each at most
    once and in the order of [Children]: the names of the listing are a
    subsequence of the names that [Children] returned, and every entry is
    a directory or a regular file. *)
Theorem OpenDir000_lists_children f path w children stat w1 r st w2
    (Hchildren : Zoohandler.Children (FuseFS.zh f) path w =
                 (Ok (children, stat), w1))
    (Hopen : Part000.OpenDir f path w = ((r, st), w2)) :
  st = fuse.OK /\
  exists entries,
    r = Some entries /\
    sublist (List.map fuse.Name entries) children /\
    Forall (fun e => fuse.EntryMode e = fuse.S_IFDIR \/
                     fuse.EntryMode e = fuse.S_IFREG) entries.
Proof.
  unfold Part000.OpenDir in Hopen. rewrite Hchildren in Hopen.
  destruct (probe_loop_adds f path children [] w1)
    as (added & Hfst & Hsub & Hmode & _).
  destruct (FuseFS.probe_loop f path children [] w1) as [entries w3].
  cbn [fst] in Hfst. injection Hopen as <- <- _.
  split; [reflexivity|]. exists entries. split; [reflexivity|].
  subst entries. cbn [app]. split; assumption.
Qed.

(** X18.  With its goroutines run one after the other, [OpenDir] returns
    the marker entry followed by the listing of the sequential [OpenDir],
    and leaves the gateway as the sequential one does. *)
Theorem OpenDir_one_by_one_is_sequential f path w children stat w1
    (Hchildren : Zoohandler.Children (FuseFS.zh f) path w =
                 (Ok (children, stat), w1)) :
  exists entries w2,
    Part000.OpenDir f path w = ((Some entries, fuse.OK), w2) /\
    FuseFS.OpenDir f path (FuseFS.one_by_one (List.length children)) w =
    Some ((Some (FuseFS.marker_entry :: entries), fuse.OK), w2).
Proof.
  rewrite (OpenDir_one_by_one f path w children stat w1 Hchildren).
  unfold Part000.OpenDir. rewrite Hchildren.
  destruct (probe_loop_adds f path children [] w1)
    as (added & Hfst & _ & _ & Hany).
  rewrite (Hany [FuseFS.marker_entry]).
  destruct (FuseFS.probe_loop f path children [] w1) as [entries w2].
  cbn [fst snd app] in *. subst entries.
  exists added, w2. split; reflexivity.
Qed.

(** X19.  The two versions of [GetAttr] answer alike, except under a
    path that ends in the marker name and for a negative child count. *)
Theorem GetAttr000_agrees f path w
    (Hmarker : ~ ends_in path ZNodeMarker)
    (Hcount : forall stat w',
        Zoohandler.Exists (FuseFS.zh f) path w = (Ok (true, stat), w') ->
        (0 <= zk.NumChildren stat)%Z) :
  Part000.GetAttr f path w = FuseFS.GetAttr f path w.
Proof.
  unfold Part000.GetAttr, FuseFS.GetAttr.
  destruct (String.eqb path ""); [reflexivity|].
  destruct (Zoohandler.Exists (FuseFS.zh f) path w) as [[[[|] stat]|e] w'];
    try reflexivity.
  specialize (Hcount stat w' eq_refl). cbn [negb].
  destruct (strings.HasSuffix path ZNodeMarker) eqn:Hs.
  { apply HasSuffix_spec in Hs. contradiction. }
  destruct (Z.eqb_spec (zk.NumChildren stat) 0) as [H0|Hne].
  - rewrite H0. reflexivity.
  - destruct (Z.gtb_spec (zk.NumChildren stat) 0); [reflexivity | lia].
Qed.

End Sequential000.

Section Unlink000.

Context {W : Type}.
Implicit Types (f : FuseFS.t W) (path : string) (w : W).


End Unlink000.

Lemma OpenDir000_lists_children_witness :
  fuse.OK = fuse.OK /\
  exists entries,
    Some [FuseFS.probe_entry "a" (leaf_Stat 2);
          FuseFS.probe_entry "b" (leaf_Stat 2)] = Some entries /\
    sublist (List.map fuse.Name entries) ["a"; "b"] /\
    Forall (fun e => fuse.EntryMode e = fuse.S_IFDIR \/
                     fuse.EntryMode e = fuse.S_IFREG) entries.
Proof.
  apply (OpenDir000_lists_children flat_fs "" tt ["a"; "b"] (leaf_Stat 0) tt
           (Some [FuseFS.probe_entry "a" (leaf_Stat 2);
                  FuseFS.probe_entry "b" (leaf_Stat 2)]) fuse.OK tt eq_refl).
  vm_compute. reflexivity.
Defined.

Lemma OpenDir_one_by_one_is_sequential_witness :
  exists entries w2,
    Part000.OpenDir flat_fs "" tt = ((Some entries, fuse.OK), w2) /\
    FuseFS.OpenDir flat_fs "" (FuseFS.one_by_one (List.length ["a"; "b"])) tt =
    Some ((Some (FuseFS.marker_entry :: entries), fuse.OK), w2).
Proof.
  apply (OpenDir_one_by_one_is_sequential flat_fs "" tt ["a"; "b"]
           (leaf_Stat 0) tt eq_refl).
Defined.

Lemma GetAttr000_agrees_witness :
  Part000.GetAttr flat_fs "a" tt = FuseFS.GetAttr flat_fs "a" tt.
Proof.
  apply (GetAttr000_agrees flat_fs "a" tt (not_ends_in_marker "a" eq_refl)).
  intros stat w' [= <- _]. vm_compute. discriminate.
Defined.


Section Probes.

Local Open Scope list_scope.
Local Open Scope nat_scope.

Context {W : Type}.
Variables (zh : Zoohandler W) (root : string) (rw : bool).
Variables (path : string) (maxWorkers : nat) (children : list string).
Variable log0 : list Call.

Lemma to_probe_insert_same (ws : list FuseFS.Worker) i wk wk' :
  ws !! i = Some wk -> to_probe wk' = to_probe wk ->
  flat_map to_probe (<[i := wk']> ws) = flat_map to_probe ws.
Proof.
  revert i. induction ws as [|x ws IH]; intros i Hi Hsame; [discriminate|].
  destruct i as [|i]; cbn in Hi.
  - injection Hi as ->. cbn [flat_map]. change (<[0 := wk']> (wk :: ws)) with (wk' :: ws).
    cbn [flat_map]. rewrite Hsame. reflexivity.
  - change (<[S i := wk']> (x :: ws)) with (x :: <[i := wk']> ws).
    cbn [flat_map]. rewrite (IH i Hi Hsame). reflexivity.
Qed.

Lemma to_probe_insert_done (ws : list FuseFS.Worker) i wk wk' :
  ws !! i = Some wk -> to_probe wk' = [] ->
  Permutation (to_probe wk ++ flat_map to_probe (<[i := wk']> ws))
              (flat_map to_probe ws).
Proof.
  revert i. induction ws as [|x ws IH]; intros i Hi Hnone; [discriminate|].
  destruct i as [|i]; cbn in Hi.
  - injection Hi as ->. change (<[0 := wk']> (wk :: ws)) with (wk' :: ws).
    cbn [flat_map]. rewrite Hnone. reflexivity.
  - change (<[S i := wk']> (x :: ws)) with (x :: <[i := wk']> ws).
    cbn [flat_map]. rewrite <- (IH i Hi Hnone).
    rewrite !app_assoc. apply Permutation_app_tail, Permutation_app_comm.
Qed.

Lemma step_worker_probes_ok i s :
  probes_ok path children log0 s ->
  probes_ok path children log0
    (FuseFS.step_worker (adapter_on zh root rw) path maxWorkers i s).
Proof.
  intros (done & Hlog & Hperm). unfold FuseFS.step_worker.
  destruct (FuseFS.workers s !! i) as [wk|] eqn:Hi; [|exists done; split; assumption].
  assert (Hsame : forall wk' (w' : W * list Call) entries c g,
            to_probe wk' = to_probe wk -> snd w' = snd (FuseFS.world s) ->
            probes_ok path children log0
              {| FuseFS.world := w'; FuseFS.dirEntries := entries;
                 FuseFS.chanLimiter := c; FuseFS.wg := g;
                 FuseFS.main := FuseFS.main s;
                 FuseFS.workers := <[i := wk']> (FuseFS.workers s) |}).
  { intros wk' w' entries c g Hwk Hw. exists done.
    cbn [FuseFS.world FuseFS.workers FuseFS.main].
    rewrite Hw, (to_probe_insert_same _ i wk wk' Hi Hwk). split; assumption. }
  destruct wk.
  - destruct (FuseFS.chanLimiter s <? maxWorkers); [|exists done; split; assumption].
    apply Hsame; reflexivity.
  - cbn [adapter_on FuseFS.zh recording Zoohandler.Exists].
    destruct (Zoohandler.Exists zh _ (fst (FuseFS.world s))) as [r w'] eqn:Hex.
    assert (Hdone : forall wk' entries c g,
              to_probe wk' = [] ->
              probes_ok path children log0
                {| FuseFS.world :=
                     (w', record (snd (FuseFS.world s))
                            (CallExists (filepath.Join [path; "/"; directory])));
                   FuseFS.dirEntries := entries;
                   FuseFS.chanLimiter := c; FuseFS.wg := g;
                   FuseFS.main := FuseFS.main s;
                   FuseFS.workers := <[i := wk']> (FuseFS.workers s) |}).
    { intros wk' entries c g Hwk. exists (done ++ [directory]).
      cbn [FuseFS.world FuseFS.workers FuseFS.main snd]. split.
      - rewrite Hlog. unfold record. rewrite map_app, app_assoc. reflexivity.
      - rewrite <- Hperm, <- !app_assoc. apply Permutation_app_head.
        rewrite !app_assoc. apply Permutation_app_tail.
        apply (to_probe_insert_done _ i (FuseFS.wExists directory) wk' Hi Hwk). }
    destruct r as [[[|] stat]|e]; cbn [negb]; apply Hdone; reflexivity.
  - unfold FuseFS.set_worker. apply Hsame; reflexivity.
  - apply Hsame; reflexivity.
  - apply Hsame; reflexivity.
  - apply Hsame; reflexivity.
  - exists done. split; assumption.
Qed.

Lemma step_main_probes_ok (s : @FuseFS.State (W * list Call)) :
  probes_ok path children log0 s ->
  probes_ok path children log0 (FuseFS.step_main s).
Proof.
  intros (done & Hlog & Hperm). unfold FuseFS.step_main.
  destruct (FuseFS.main s) as [[|child rest]| |entries] eqn:Hmain;
    cbn [to_spawn] in Hperm.
  - exists done. split; [exact Hlog | exact Hperm].
  - exists done. cbn [FuseFS.world FuseFS.workers FuseFS.main to_spawn].
    split; [exact Hlog|]. rewrite flat_map_app. cbn [flat_map to_probe].
    rewrite app_nil_r, <- app_assoc. exact Hperm.
  - destruct (FuseFS.wg s =? 0); exists done;
      cbn [FuseFS.world FuseFS.workers FuseFS.main to_spawn];
      rewrite ?Hmain; split; assumption.
  - exists done. rewrite Hmain. split; assumption.
Qed.

Lemma run_probes_ok sched s :
  probes_ok path children log0 s ->
  probes_ok path children log0
    (FuseFS.run (adapter_on zh root rw) path maxWorkers sched s).
Proof.
  revert s. induction sched as [|tid sched IH]; intros s Hs; [exact Hs|].
  cbn [FuseFS.run]. apply IH. destruct tid.
  - apply step_main_probes_ok, Hs.
  - apply step_worker_probes_ok, Hs.
Qed.

Lemma exited_none_to_probe (ws : list FuseFS.Worker) :
  FuseFS.count FuseFS.unfinished ws = 0 -> flat_map to_probe ws = [].
Proof.
  induction ws as [|wk ws IH]; intros Hc; [reflexivity|].
  unfold FuseFS.count in *. cbn [List.filter] in Hc.
  destruct wk; cbn [FuseFS.unfinished List.length] in Hc; try discriminate.
  cbn [flat_map to_probe app]. apply IH, Hc.
Qed.

End Probes.

(** X21.  [OpenDir] asks the gateway for the children once and then
    probes each child exactly once, in some order, and asks nothing else:
    whatever the schedule, when the call has returned, the calls it has
    made are [Children(path)] followed by one
    [Exists(filepath.Join(path, "/", child))] for each child. *)
Theorem OpenDir_probes_each_child_once {W} (zh : Zoohandler W) root rw path
    sched w log children stat w1 r w2 log2
    (Hchildren : Zoohandler.Children zh path w = (Ok (children, stat), w1))
    (Hopen : FuseFS.OpenDir (adapter_on zh root rw) path sched (w, log) =
             Some (r, (w2, log2))) :
  exists order,
    Permutation order children /\
    log2 = (log ++ CallChildren path :: List.map (probe_call path) order)%list.
Proof.
  unfold FuseFS.OpenDir in Hopen.
  cbn [adapter_on FuseFS.zh recording Zoohandler.Children fst snd] in Hopen.
  rewrite Hchildren in Hopen.
  destruct children as [|child rest].
  { injection Hopen as _ _ <-. exists []. split; reflexivity. }
  change (List.length (child :: rest) =? 0)%nat with false in Hopen.
  cbv iota in Hopen.
  pose proof (run_probes_ok zh root rw path
                (FuseFS.maxWorkers_for (child :: rest)) (child :: rest)
                (record log (CallChildren path)) sched
                (FuseFS.fan_out (child :: rest)
                   (w1, record log (CallChildren path)))) as Hrun.
  pose proof (run_wg_ok (adapter_on zh root rw) path
                (FuseFS.maxWorkers_for (child :: rest))
                (List.length (child :: rest)) sched
                (FuseFS.fan_out (child :: rest)
                   (w1, record log (CallChildren path)))) as Hwg.
  remember (FuseFS.run (adapter_on zh root rw) path
              (FuseFS.maxWorkers_for (child :: rest)) sched
              (FuseFS.fan_out (child :: rest)
                 (w1, record log (CallChildren path)))) as s eqn:Hs.
  clear Hs.
  destruct Hrun as (done & Hlog & Hperm).
  { exists []. cbn. rewrite app_nil_r. split; reflexivity. }
  destruct Hwg as (Hcount & _ & Hret).
  { split; [|split]; cbn; [reflexivity | lia |]. intros es [=]. }
  destruct (FuseFS.main s) as [rest'| |entries] eqn:Hmain; try discriminate.
  injection Hopen as _ Hworld.
  destruct (Hret entries eq_refl) as [Hzero _].
  rewrite Hcount in Hzero. apply exited_none_to_probe in Hzero.
  rewrite Hzero in Hperm. cbn [to_spawn app] in Hperm.
  rewrite app_nil_r in Hperm.
  exists done. split; [exact Hperm|].
  rewrite Hworld in Hlog. cbn [snd] in Hlog. rewrite Hlog.
  unfold record. rewrite <- app_assoc. reflexivity.
Qed.

Lemma OpenDir_probes_each_child_once_witness :
  exists order,
    Permutation order ["a"; "b"] /\
    [CallChildren ""; CallExists "/a"; CallExists "/b"] =
    ([] ++ CallChildren "" :: List.map (probe_call "") order)%list.
Proof.
  apply (OpenDir_probes_each_child_once (scripted flat_store) "/mnt/fuse" false
           "" lost_entry_schedule tt [] ["a"; "b"] (leaf_Stat 0) tt
           (Some [FuseFS.marker_entry; FuseFS.probe_entry "b" (leaf_Stat 2)],
            fuse.OK)
           tt [CallChildren ""; CallExists "/a"; CallExists "/b"] eq_refl).
  vm_compute. reflexivity.
Defined.
